(** * SODERBOT: crawl, lexical index and hybrid retrieval

    A shallow embedding of the retrieval core of the two server files,
    [chatbot-server.prev.js] (the modules [Prev], [PrevRetrieval],
    [PrevDiscovery] and [PrevChat] below) and its sibling revision (the
    modules [Cur], [CurRetrieval], [CurDiscovery] and [CurChat]), followed by
    the properties proved about it.  What the two files write alike, up to
    layout and the names of locals, is embedded once.

    - JavaScript strings are sequences of UTF-16 code units: [list N].
    - JavaScript numbers are IEEE-754 doubles.  The arithmetic of the source is
      written once against the interface [Number]; it is interpreted both by
      Rocq's primitive binary64 floats ([double_Number], which computes exactly
      what [+ * / Math.sqrt] compute in an engine) and by the real numbers
      ([real_Number], exact arithmetic, where [Math.log] and [Math.tanh] are
      the mathematical functions).
    - [Map]s are finite maps ([gmap]); a [Set] that is converted back to an
      array is a duplicate-free list in insertion order.
    - Every [await] of [crawl] is a point where a request handler may run; the
      crawl is a machine whose steps are the synchronous stretches between
      two awaits, and several crawls in flight are activations of that
      machine over the same globals.
    - The regular expressions of [stripHtml] and [fetchPageStrong] are
      backtracking matchers in continuation-passing style, one combinator for
      each construct of the pattern language that the source uses. *)

From Stdlib Require Import ZArith NArith List Lia Reals Lra Floats Ascii String.
From Stdlib Require Import Permutation Sorted.
From stdpp Require Import gmap list.
Import ListNotations.

#[local] Unset Default Proof Using.
#[local] Set Warnings "-inexact-float".
#[local] Open Scope nat_scope.

(** ** Strings *)

(** A string is the list of its UTF-16 code units. *)
Abbreviation jsstring := (list N).

(** A literal of the source (ASCII only) as a string. *)
Definition lit (s : string) : jsstring :=
  List.map N_of_ascii (list_ascii_of_string s).

(** [s.slice(b, e)] for [0 <= b <= e]. *)
Definition slice {A} (s : list A) (b e : nat) : list A :=
  firstn (e - b) (skipn b s).

(** [s.startsWith(p)]. *)
Fixpoint startsWith (s p : jsstring) : bool :=
  match p, s with
  | [], _ => true
  | _ :: _, [] => false
  | c :: p', d :: s' => if N.eqb c d then startsWith s' p' else false
  end.

Definition jsstring_eqb (a b : jsstring) : bool := bool_decide (a = b).

(** ** Constants of the server *)

Definition SITE : jsstring := lit "https://www.sodermanaudiovisual.com".
Definition MAX_PAGES : nat := 120.
Definition CHUNK_SIZE : nat := 800.
Definition MIN_DOC_CHARS : nat := 180.
Definition MAX_CONTEXT : nat := 90 * 100.
Definition TOP_K : nat := 12.
Definition BATCH_EMBED : nat := 96.

(** ** chunkText

    [[
    function chunkText(s, n = CHUNK_SIZE) {
      const out = []; for (let i = 0; i < s.length; i += n) out.push(s.slice(i, i + n));
      return out;
    }
    ]]
    The loop is run with fuel; [None] means the fuel ran out before the loop
    condition became false (with [n = 0] the source never leaves the loop). *)

Fixpoint chunkLoop {A} (fuel : nat) (s : list A) (n i : nat) (out : list (list A))
  : option (list (list A)) :=
  if i <? length s then
    match fuel with
    | O => None
    | S fuel' => chunkLoop fuel' s n (i + n) (out ++ [slice s i (i + n)])
    end
  else Some out.

Definition chunkText {A} (s : list A) (n : nat) : option (list (list A)) :=
  chunkLoop (length s) s n 0 [].

(** The call [chunkText(doc)] of [crawl], with the default [n = CHUNK_SIZE]. *)
Definition chunkTextDefault {A} (s : list A) : list (list A) :=
  match chunkText s CHUNK_SIZE with
  | Some out => out
  | None => []
  end.

(** ** Numbers

    The operations the source applies to numbers.  [undefinedNum] is what
    arithmetic makes of [undefined] (an array read past the end). *)

Class Number (T : Type) := {
  (** an integer: a literal, a length, a count *)
  ofNat : nat -> T;
  (** the literals [0.5], [0.25], [1.2], [0.7] and [0.3] *)
  c_0_5 : T;
  c_0_25 : T;
  c_1_2 : T;
  c_0_7 : T;
  c_0_3 : T;
  add : T -> T -> T;
  sub : T -> T -> T;
  mul : T -> T -> T;
  div : T -> T -> T;
  Math_sqrt : T -> T;
  undefinedNum : T;
  (** [x === 0] *)
  isZero : T -> bool;
  (** [!x] *)
  falsy : T -> bool;
  (** [x > y] *)
  gt : T -> T -> bool;
}.

(** [Math.log] and [Math.tanh], which the language leaves to the engine. *)
Class MathLib (T : Type) := {
  Math_log : T -> T;
  Math_tanh : T -> T;
}.

Declare Scope num_scope.
Delimit Scope num_scope with num.
Infix "+" := add : num_scope.
Infix "-" := sub : num_scope.
Infix "*" := mul : num_scope.
Infix "/" := div : num_scope.

(** IEEE-754 binary64, as the engine computes: [x === 0] is the IEEE
    comparison (true of both zeros, false of NaN), [!x] holds of the zeros
    and of NaN, and [undefined] becomes NaN. *)
#[export] Instance double_Number : Number float := {
  ofNat n := PrimFloat.of_uint63 (Uint63.of_Z (Z.of_nat n));
  c_0_5 := 0.5%float;
  c_0_25 := 0.25%float;
  c_1_2 := 1.2%float;
  c_0_7 := 0.7%float;
  c_0_3 := 0.3%float;
  add := PrimFloat.add;
  sub := PrimFloat.sub;
  mul := PrimFloat.mul;
  div := PrimFloat.div;
  Math_sqrt := PrimFloat.sqrt;
  undefinedNum := PrimFloat.nan;
  isZero x := PrimFloat.eqb x 0%float;
  falsy x := PrimFloat.eqb x 0%float || PrimFloat.is_nan x;
  gt x y := PrimFloat.ltb y x;
}.

Definition Rgtb (x y : R) : bool := if Rlt_dec y x then true else false.
Definition Reqb0 (x : R) : bool := if Req_dec_T x 0%R then true else false.

(** Exact arithmetic.  The reals have no NaN: an [undefined] operand is given
    the value 0 here, so statements over the reals about vectors of unequal
    lengths say nothing about the source.  The source never divides by zero
    ([cosine] tests both norms first, [denom] is at least 1.25 and
    [dfVal + 0.5] at least 0.5), so the value of [x / 0] over the reals plays
    no part. *)
#[export] Instance real_Number : Number R := {
  ofNat := INR;
  c_0_5 := 0.5%R;
  c_0_25 := 0.25%R;
  c_1_2 := 1.2%R;
  c_0_7 := 0.7%R;
  c_0_3 := 0.3%R;
  add := Rplus;
  sub := Rminus;
  mul := Rmult;
  div := Rdiv;
  Math_sqrt := R_sqrt.sqrt;
  undefinedNum := 0%R;
  isZero := Reqb0;
  falsy := Reqb0;
  gt := Rgtb;
}.

(** [ln] is 0 on the non-positive reals, where [Math.log] is NaN or
    [-Infinity]; [crawl] applies it to [(N + 1) / (dfVal + 0.5)] only, which
    is positive. *)
#[export] Instance real_MathLib : MathLib R := {
  Math_log := ln;
  Math_tanh := tanh;
}.

(** ** What the engine provides for strings and URLs *)

Class Platform := {
  (** [String.prototype.toLowerCase] (the Unicode case mapping). *)
  toLowerCase : jsstring -> jsstring;
  (** [new URL(u).pathname]; [None] when the constructor throws. *)
  urlPathname : jsstring -> option jsstring;
}.

(** ** Regular-expression character tests (no [u] flag) *)

Definition inRange (lo hi c : N) : bool := (N.leb lo c && N.leb c hi)%bool.

(** [Canonicalize] under the [i] flag: the simple upper-case mapping, which a
    code unit of 128 or more never leaves for ASCII.  The table covers the
    Latin-1 range; a code unit above it is left alone, which is exact whenever
    it is compared with an ASCII letter, a digit or one of the letters of the
    tokenizer's class. *)
Definition canonicalize (c : N) : N :=
  if inRange 97 122 c then (c - 32)%N
  else if (inRange 224 254 c && negb (N.eqb c 247))%bool then (c - 32)%N
  else if N.eqb c 255 then 376%N
  else if N.eqb c 181 then 924%N
  else c.

Definition charEqI (a b : N) : bool := N.eqb (canonicalize a) (canonicalize b).

(** The class [[a-z0-9äöåæø]] of [tokenize], matched under the [i] flag. *)
Definition tokenClass : list N :=
  List.map N.of_nat (seq 97 26) ++ List.map N.of_nat (seq 48 10)
    ++ [228; 246; 229; 230; 248]%N.

Definition isTokenChar (c : N) : bool := existsb (charEqI c) tokenClass.

(** [\w] for the assertion [\b]: [[A-Za-z0-9_]]. *)
Definition isWordChar (c : N) : bool :=
  (inRange 97 122 c || inRange 65 90 c || inRange 48 57 c || N.eqb c 95)%bool.

(** ** tokenize, unique

    [[
    function tokenize(s) {
      return String(s).toLowerCase().split(/[^a-z0-9äöåæø]+/i).filter(w => w && w.length > 1);
    }
    function unique(arr) { return Array.from(new Set(arr)); }
    ]] *)

(** [s.split(/[^a-z0-9äöåæø]+/i)]: the pieces between maximal runs of
    separators, the empty pieces at either end included.  [cur] is the piece
    being read, reversed; [inSep] tells that the previous unit was a
    separator. *)
Fixpoint splitLoop (s : jsstring) (cur : jsstring) (inSep : bool) : list jsstring :=
  match s with
  | [] => [rev cur]
  | c :: s' =>
      if isTokenChar c then splitLoop s' (c :: cur) false
      else if inSep then splitLoop s' cur true
      else rev cur :: splitLoop s' [] true
  end.

Definition splitNonToken (s : jsstring) : list jsstring := splitLoop s [] false.

Definition tokenize `{Platform} (s : jsstring) : list jsstring :=
  List.filter (fun w => negb (jsstring_eqb w []) && (1 <? length w))
    (splitNonToken (toLowerCase s)).

(** [Array.from(new Set(arr))]: first occurrences, in order. *)
Definition unique {A} `{EqDecision A} (arr : list A) : list A :=
  fold_left (fun set x => if bool_decide (x ∈ set) then set else set ++ [x]) arr [].

(** ** cosine *)

Section Cosine.
Context {T : Type} `{Number T}.
#[local] Open Scope num_scope.

(** The loop of [cosine]: [a] is what is left of the first array at index
    [i]; [b[i]] past the end of [b] is [undefined]. *)
Fixpoint cosineLoop (a b : list T) (i : nat) (dot na nb : T) : T * T * T :=
  match a with
  | [] => (dot, na, nb)
  | x :: a' =>
      let y := nth i b undefinedNum in
      cosineLoop a' b (S i) (dot + x * y) (na + x * x) (nb + y * y)
  end.
End Cosine.

Module Prev.
Section Cosine.
Context {T : Type} `{Number T}.
#[local] Open Scope num_scope.
(** [[
    function cosine(a, b) {
      let dot = 0, na = 0, nb = 0;
      for (let i = 0; i < a.length; i++) { const x = a[i], y = b[i]; dot += x * y; na += x * x; nb += y * y; }
      if (na === 0 || nb === 0) return 0;
      return dot / (Math.sqrt(na) * Math.sqrt(nb));
    }
    ]] *)
Definition cosine (a b : list T) : T :=
  let '(dot, na, nb) := cosineLoop a b 0 (ofNat 0) (ofNat 0) (ofNat 0) in
  if (isZero na || isZero nb)%bool then ofNat 0
  else dot / (Math_sqrt na * Math_sqrt nb).
End Cosine.
End Prev.

Module Cur.
Section Cosine.
Context {T : Type} `{Number T}.
#[local] Open Scope num_scope.
(** [[
    function cosine(a,b){ let dot=0,na=0,nb=0; for(let i=0;i<a.length;i++){dot+=a[i]*b[i];na+=a[i]*a[i];nb+=b[i]*b[i];} if(!na||!nb) return 0; return dot/(Math.sqrt(na)*Math.sqrt(nb)); }
    ]] *)
Definition cosine (a b : list T) : T :=
  let '(dot, na, nb) := cosineLoop a b 0 (ofNat 0) (ofNat 0) (ofNat 0) in
  if (falsy na || falsy nb)%bool then ofNat 0
  else dot / (Math_sqrt na * Math_sqrt nb).
End Cosine.
End Cur.

(** ** Term counting in [crawl]

    [[
    function escapeForWordBoundary(term) {
      return term.replace(/[.*+?^${}()|[\]\\]/g, "\\$&");
    }
    ...
    const re = new RegExp("\\b" + escapeForWordBoundary(t) + "\\b", "gi");
    const count = (d.chunk.match(re) || []).length || 1;
    ]] *)

Definition regexSpecial : jsstring := lit ".*+?^${}()|[]\".

Definition escapeForWordBoundary (term : jsstring) : jsstring :=
  flat_map (fun c => if existsb (N.eqb c) regexSpecial then [92%N; c] else [c]) term.

(** The patterns [crawl] builds: word-boundary assertions and single
    characters. *)
Inductive Atom := WordBoundary | Char (c : N).

(** The pattern text read as the [RegExp] constructor reads it: [\b] is the
    assertion, a backslash before any other unit makes that unit literal. *)
Fixpoint parsePattern (p : jsstring) (escaped : bool) : list Atom :=
  match p with
  | [] => []
  | c :: p' =>
      if escaped then
        (if N.eqb c 98 then WordBoundary else Char c) :: parsePattern p' false
      else if N.eqb c 92 then parsePattern p' true
      else Char c :: parsePattern p' false
  end.

Definition termPattern (t : jsstring) : list Atom :=
  parsePattern (lit "\b" ++ escapeForWordBoundary t ++ lit "\b") false.

Definition wordCharOpt (c : option N) : bool :=
  match c with Some c => isWordChar c | None => false end.

(** Match of the atoms at one position: [prev] is the unit before it, [s] the
    text from it on; the result is the number of units consumed. *)
Fixpoint matchHere (atoms : list Atom) (prev : option N) (s : jsstring) : option nat :=
  match atoms with
  | [] => Some 0
  | WordBoundary :: atoms' =>
      if xorb (wordCharOpt prev) (wordCharOpt (head s)) then matchHere atoms' prev s
      else None
  | Char c :: atoms' =>
      match s with
      | d :: s' => if charEqI c d then option_map S (matchHere atoms' (Some d) s') else None
      | [] => None
      end
  end.

(** [s.match(re)] with the [g] flag, counted: leftmost matches from left to
    right, the search resuming where the last match ended (one unit further
    after an empty match).  [skip] units are still to be stepped over. *)
Fixpoint countMatches (atoms : list Atom) (skip : nat) (prev : option N) (s : jsstring) : nat :=
  match skip with
  | S k =>
      match s with
      | [] => 0
      | c :: s' => countMatches atoms k (Some c) s'
      end
  | O =>
      match matchHere atoms prev s with
      | Some len =>
          S (match s with
             | [] => 0
             | c :: s' => countMatches atoms (len - 1) (Some c) s'
             end)
      | None =>
          match s with
          | [] => 0
          | c :: s' => countMatches atoms 0 (Some c) s'
          end
      end
  end.

Definition termCount (t chunk : jsstring) : nat :=
  let n := countMatches (termPattern t) 0 None chunk in
  if n =? 0 then 1 else n.

(** ** The knowledge base

    [[
    let KB = [];                         // { id, url, lang:'en', chunk, vec? }
    let VOCAB_IDF = new Map();           // term -> idf
    let CHUNK_TF = new Map();            // id -> Map(term -> tf)
    ]] *)

Record Chunk (T : Type) := mkChunk {
  id : nat;
  url : jsstring;
  lang : jsstring;
  chunk : jsstring;
  vec : option (list T);
}.
Arguments mkChunk {T}.
Arguments id {T}.
Arguments url {T}.
Arguments lang {T}.
Arguments chunk {T}.
Arguments vec {T}.

Record Globals (T : Type) := mkGlobals {
  KB : list (Chunk T);
  VOCAB_IDF : gmap jsstring T;
  CHUNK_TF : gmap nat (gmap jsstring nat);
}.
Arguments mkGlobals {T}.
Arguments KB {T}.
Arguments VOCAB_IDF {T}.
Arguments CHUNK_TF {T}.

Definition setVec {T} (v : list T) (d : Chunk T) : Chunk T :=
  mkChunk (id d) (url d) (lang d) (chunk d) (Some v).

(** ** crawl: the synchronous stretches *)

Section CrawlSteps.
Context {T : Type} `{Number T} `{MathLib T} `{Platform}.

(** [for (const c of pieces) KB.push({ id: idCounter++, url, lang: "en", chunk: c });] *)
Definition pushChunks (u : jsstring) (pieces : list jsstring)
    (st : list (Chunk T) * nat) : list (Chunk T) * nat :=
  fold_left
    (fun '(kb, idCounter) c => (kb ++ [mkChunk idCounter u (lit "en") c None], S idCounter))
    pieces st.

(** The body of the page loop once [fetchPageStrong(url)] has resolved to
    [doc] ([None] is [null]; the empty string is falsy as well). *)
Definition crawlPage (u : jsstring) (doc : option jsstring)
    (st : list (Chunk T) * nat) : list (Chunk T) * nat :=
  match doc with
  | None | Some [] => st
  | Some d => pushChunks u (chunkTextDefault d) st
  end.

(** [for (const t of terms) { ...; tf.set(t, count); }] *)
Definition termFreqs (text : jsstring) (terms : list jsstring) : gmap jsstring nat :=
  fold_left (fun tf t => <[t := termCount t text]> tf) terms ∅.

(** [for (const t of terms) df.set(t, (df.get(t) || 0) + 1);] *)
Definition countTerms (terms : list jsstring) (df : gmap jsstring nat) : gmap jsstring nat :=
  fold_left (fun df t => <[t := default 0 (df !! t) + 1]> df) terms df.

(** One turn of [for (const d of KB)] in the sparse index. *)
Definition indexChunk (st : gmap nat (gmap jsstring nat) * gmap jsstring nat)
    (d : Chunk T) : gmap nat (gmap jsstring nat) * gmap jsstring nat :=
  let terms := unique (tokenize (chunk d)) in
  let tf := termFreqs (chunk d) terms in
  (<[id d := tf]> (fst st), countTerms terms (snd st)).

(** [Math.log((N + 1) / (dfVal + 0.5))] *)
Definition idfOf (N dfVal : nat) : T :=
  Math_log ((ofNat N + ofNat 1) / (ofNat dfVal + c_0_5))%num.

(** The sparse index of [crawl], from [const N = KB.length || 1] to the
    loop over [df.entries()].  Both tables are the global maps, updated in
    place. *)
Definition sparseIndex (g : Globals T) : Globals T :=
  let N := if length (KB g) =? 0 then 1 else length (KB g) in
  let '(ctf, df) := fold_left indexChunk (KB g) (CHUNK_TF g, ∅) in
  let vocab :=
    map_fold (fun t dfVal vocab => <[t := idfOf N dfVal]> vocab) (VOCAB_IDF g) df in
  mkGlobals (KB g) vocab ctf.

(** [resp.data.forEach((e, i) => { KB[start + i].vec = e.embedding; ... })]:
    the flag is [false] when [KB[start + i]] is [undefined] and the
    assignment throws; what was assigned before stays assigned. *)
Fixpoint assignVecs (kb : list (Chunk T)) (start i : nat) (data : list (list T))
  : list (Chunk T) * bool :=
  match data with
  | [] => (kb, true)
  | e :: data' =>
      match kb !! (start + i) with
      | Some d => assignVecs (<[start + i := setVec e d]> kb) start (S i) data'
      | None => (kb, false)
      end
  end.
End CrawlSteps.

(** ** crawl as a machine

    [[
    async function crawl() {
      KB = []; VOCAB_IDF.clear(); CHUNK_TF.clear();
      const urls = await getSitemapUrls();
      let idCounter = 0;
      for (const url of urls) {
        const doc = await fetchPageStrong(url);
        if (!doc) { console.log("· skip", url); continue; }
        const pieces = chunkText(doc);
        for (const c of pieces) { KB.push({ id: idCounter++, url, lang: "en", chunk: c }); }
      }
      // Sparse index ...
      await embedAllChunks();
    }
    async function embedAllChunks() {
      const texts = KB.map(d => d.chunk);
      let start = 0;
      while (start < texts.length) {
        const batch = texts.slice(start, start + BATCH_EMBED);
        const resp = await openai.embeddings.create({ model: "text-embedding-3-small", input: batch });
        resp.data.forEach((e, i) => { KB[start + i].vec = e.embedding; dims.add(e.embedding.length); });
        start += BATCH_EMBED;
      }
    }
    ]]
    The control point of a suspended crawl, with the locals that are live
    there. *)

Inductive CrawlPC :=
| AwaitUrls
| AwaitPage (u : jsstring) (rest : list jsstring) (idCounter : nat)
| AwaitEmbeddings (texts : list jsstring) (start : nat)
| Done
| Rejected.

(** What an awaited promise settles to.  [getSitemapUrls] and
    [fetchPageStrong] catch what they throw, so only the embedding request
    can reject; a response that does not answer the pending request leaves
    the crawl where it is. *)
Inductive Response (T : Type) :=
| Urls (urls : list jsstring)
| Page (doc : option jsstring)
| Embeddings (data : list (list T))
| Thrown.
Arguments Urls {T}.
Arguments Page {T}.
Arguments Embeddings {T}.
Arguments Thrown {T}.

Section CrawlMachine.
Context {T : Type} `{Number T} `{MathLib T} `{Platform}.

(** From the call of [crawl] to its first [await]. *)
Definition crawlStart (g : Globals T) : Globals T * CrawlPC :=
  (mkGlobals [] ∅ ∅, AwaitUrls).

(** The head of [while (start < texts.length)]. *)
Definition embedLoop (g : Globals T) (texts : list jsstring) (start : nat)
  : Globals T * CrawlPC :=
  if start <? length texts then (g, AwaitEmbeddings texts start) else (g, Done).

(** The head of [for (const url of urls)]; after the last page the sparse
    index is built and [embedAllChunks] entered, without suspension. *)
Definition pageLoop (g : Globals T) (urls : list jsstring) (idCounter : nat)
  : Globals T * CrawlPC :=
  match urls with
  | u :: rest => (g, AwaitPage u rest idCounter)
  | [] =>
      let g' := sparseIndex g in
      embedLoop g' (List.map chunk (KB g')) 0
  end.

(** One synchronous stretch: the crawl is resumed with what its pending
    promise settled to and runs up to its next [await] or its end. *)
Definition crawlResume (st : Globals T * CrawlPC) (r : Response T)
  : Globals T * CrawlPC :=
  let '(g, pc) := st in
  match pc, r with
  | AwaitUrls, Urls urls => pageLoop g urls 0
  | AwaitPage u rest idCounter, Page doc =>
      let '(kb, idCounter') := crawlPage u doc (KB g, idCounter) in
      pageLoop (mkGlobals kb (VOCAB_IDF g) (CHUNK_TF g)) rest idCounter'
  | AwaitEmbeddings texts start, Embeddings data =>
      let '(kb, ok) := assignVecs (KB g) start 0 data in
      let g' := mkGlobals kb (VOCAB_IDF g) (CHUNK_TF g) in
      if ok then embedLoop g' texts (start + BATCH_EMBED) else (g', Rejected)
  | AwaitEmbeddings _ _, Thrown => (g, Rejected)
  | _, _ => st
  end.

(** The crawl after a sequence of settled promises. *)
Definition crawlRun (g : Globals T) (rs : list (Response T)) : Globals T * CrawlPC :=
  fold_left crawlResume rs (crawlStart g).
End CrawlMachine.

(** ** retrieveContext

    [[
    async function retrieveContext(query) {
      if (!KB.length) return "";
      const emb = await openai.embeddings.create({ model: "text-embedding-3-small", input: query });
      const qv = emb.data[0].embedding;
      const terms = unique(tokenize(query));
      const scored = [];
      for (const d of KB) {
        const dense = d.vec ? cosine(qv, d.vec) : 0;
        let sparse = 0;
        const tf = CHUNK_TF.get(d.id);
        if (tf) { for (const t of terms) { ... } }
        const score = 0.7 * dense + 0.3 * Math.tanh(sparse);
        if (score > 0) scored.push({ d, score });
      }
      scored.sort((a, b) => b.score - a.score);
      ...
    }
    ]] *)

Definition newline : jsstring := [10%N].

Section Retrieval.
Context {T : Type} `{Number T} `{MathLib T} `{Platform}.
#[local] Open Scope num_scope.

(** The two files differ in [cosine] and in how the product of a term's
    contribution is written. *)
Variable cosine : list T -> list T -> T.
Variable termProduct : T -> T -> T.

(** [x || 0] for a value read from [VOCAB_IDF]. *)
Definition orZero (x : option T) : T :=
  match x with
  | Some v => if falsy v then ofNat 0 else v
  | None => ofNat 0
  end.

(** One turn of [for (const t of terms)]:
    [[
    const f = tf.get(t) || 0;
    const idf = VOCAB_IDF.get(t) || 0;
    const denom = 1 + 0.25 + f;
    sparse += (idf * <product of f and 1.2> / denom);
    ]] *)
Definition addTerm (g : Globals T) (tf : gmap jsstring nat) (sparse : T) (t : jsstring) : T :=
  let f := ofNat (default 0 (tf !! t)) in
  let idf := orZero (VOCAB_IDF g !! t) in
  let denom := ofNat 1 + c_0_25 + f in
  sparse + (idf * termProduct f c_1_2 / denom).

(** [let sparse = 0; const tf = CHUNK_TF.get(d.id); if (tf) { for (const t of terms) ... }] *)
Definition sparseOf (g : Globals T) (terms : list jsstring) (d : Chunk T) : T :=
  match CHUNK_TF g !! id d with
  | Some tf => fold_left (addTerm g tf) terms (ofNat 0)
  | None => ofNat 0
  end.

(** [const dense = d.vec ? cosine(qv, d.vec) : 0;] *)
Definition denseOf (qv : list T) (d : Chunk T) : T :=
  match vec d with
  | Some v => cosine qv v
  | None => ofNat 0
  end.

(** [const score = 0.7 * dense + 0.3 * Math.tanh(sparse);] *)
Definition scoreOf (g : Globals T) (qv : list T) (terms : list jsstring) (d : Chunk T) : T :=
  c_0_7 * denseOf qv d + c_0_3 * Math_tanh (sparseOf g terms d).

(** [for (const d of KB) { ...; if (score > 0) scored.push({ d, score }); }] *)
Definition scoreAll (g : Globals T) (qv : list T) (terms : list jsstring)
  : list (Chunk T * T) :=
  fold_left
    (fun scored d =>
       let score := scoreOf g qv terms d in
       if gt score (ofNat 0) then scored ++ [(d, score)] else scored)
    (KB g) [].

(** [scored.sort((a, b) => b.score - a.score)].  [Array.prototype.sort] is
    stable and puts [a] after [b] exactly when the comparator is positive
    on [(a, b)]; a stable insertion sort does the same. *)
Fixpoint insertByScore (a : Chunk T * T) (l : list (Chunk T * T)) : list (Chunk T * T) :=
  match l with
  | [] => [a]
  | b :: l' =>
      if gt (snd b - snd a) (ofNat 0) then b :: insertByScore a l' else a :: l
  end.

Definition sortByScore (l : list (Chunk T * T)) : list (Chunk T * T) :=
  fold_right insertByScore [] l.

(** [[
    let ctx = "";
    for (const { d } of scored.slice(0, TOP_K)) {
      if (ctx.length + d.chunk.length > MAX_CONTEXT) break;
      ctx += "[Source] " + d.url + "\n" + d.chunk + "\n\n";
    }
    return ctx;
    ]] *)
Definition entry (d : Chunk T) : jsstring :=
  lit "[Source] " ++ url d ++ newline ++ chunk d ++ newline ++ newline.

Fixpoint contextLoop (top : list (Chunk T * T)) (ctx : jsstring) : jsstring :=
  match top with
  | [] => ctx
  | (d, _) :: rest =>
      if (MAX_CONTEXT <? length ctx + length (chunk d))%nat then ctx
      else contextLoop rest (ctx ++ entry d)
  end.

(** The part of [retrieveContext] after its [await]: [qv] is the embedding
    of the query, [g] the globals at that moment. *)
Definition retrieveScan (g : Globals T) (qv : list T) (query : jsstring) : jsstring :=
  let terms := unique (tokenize query) in
  let scored := sortByScore (scoreAll g qv terms) in
  contextLoop (firstn TOP_K scored) [].

(** [retrieveContext(query)] started with globals [g0] and resumed, once
    the embedding has arrived, with globals [g]. *)
Definition retrieveContextAcross (g0 g : Globals T) (qv : list T) (query : jsstring)
  : jsstring :=
  if length (KB g0) =? 0 then [] else retrieveScan g qv query.

(** [retrieveContext(query)] with nothing else running in between. *)
Definition retrieveContextWith (g : Globals T) (qv : list T) (query : jsstring) : jsstring :=
  retrieveContextAcross g g qv query.
End Retrieval.

Module PrevRetrieval.
Section Defs.
Context {T : Type} `{Number T} `{MathLib T} `{Platform}.
(** [sparse += (idf * (f * 1.2) / denom);] *)
Definition termProduct (f c : T) : T := mul f c.
Definition scoreOf := scoreOf (T:=T) Prev.cosine termProduct.
Definition retrieveContext := retrieveContextWith (T:=T) Prev.cosine termProduct.
End Defs.
End PrevRetrieval.

Module CurRetrieval.
Section Defs.
Context {T : Type} `{Number T} `{MathLib T} `{Platform}.
(** [sparse += idf*(1.2*f)/denom;] *)
Definition termProduct (f c : T) : T := mul c f.
Definition scoreOf := scoreOf (T:=T) Cur.cosine termProduct.
Definition retrieveContext := retrieveContextWith (T:=T) Cur.cosine termProduct.
End Defs.
End CurRetrieval.

(** ** URL discovery

    [[
    async function getSitemapUrls() {
      const set = new Set();
      try {
        const r = await fetch(SITE + "/sitemap.xml", ...);
        if (r.ok) {
          const xml = await r.text();
          const re = /<loc>([^<]+)<\/loc>/gi;
          let m;
          while ((m = re.exec(xml))) {
            const u = m[1].trim().replace(/\/+$/, "");
            const path = new URL(u).pathname.replace(/^\/+/, "");
            if (<path is Finnish or Swedish>) continue; // EN only
            if (u.startsWith(SITE)) set.add(u);
          }
        }
      } catch {}
      ["/", "/home", "/services", "/about-us", "/contact", "/references", "/get-a-quote", "/consultation"].forEach(p => {
        try { set.add(new URL(p, SITE).toString().replace(/\/+$/, "")); } catch {}
      });
      return Array.from(set).slice(0, MAX_PAGES);
    }
    ]] *)

Fixpoint startsWithI (s p : jsstring) : bool :=
  match p, s with
  | [], _ => true
  | _ :: _, [] => false
  | c :: p', d :: s' => if charEqI c d then startsWithI s' p' else false
  end.

Fixpoint takeWhile {A} (f : A -> bool) (l : list A) : list A :=
  match l with
  | x :: l' => if f x then x :: takeWhile f l' else []
  | [] => []
  end.

Fixpoint dropWhile {A} (f : A -> bool) (l : list A) : list A :=
  match l with
  | x :: l' => if f x then dropWhile f l' else l
  | [] => []
  end.

(** A match of [/<loc>([^<]+)<\/loc>/i] at the head of [s]: the capture and
    the length of the whole match.  The greedy run stops before a [<] or at
    the end, so giving units back cannot help the closing tag to match. *)
Definition locAt (s : jsstring) : option (jsstring * nat) :=
  if startsWithI s (lit "<loc>") then
    let rest := skipn 5 s in
    let run := takeWhile (fun c => negb (N.eqb c 60)) rest in
    if (0 <? length run) && startsWithI (skipn (length run) rest) (lit "</loc>")
    then Some (run, 5 + length run + 6)
    else None
  else None.

(** The captures of the [while ((m = re.exec(xml)))] loop, in order. *)
Fixpoint locScan (skip : nat) (s : jsstring) : list jsstring :=
  match skip with
  | S k =>
      match s with
      | [] => []
      | _ :: s' => locScan k s'
      end
  | O =>
      match locAt s with
      | Some (m1, len) =>
          m1 :: match s with
                | [] => []
                | _ :: s' => locScan (len - 1) s'
                end
      | None =>
          match s with
          | [] => []
          | _ :: s' => locScan 0 s'
          end
      end
  end.

(** White space and line terminators, as [trim] removes them. *)
Definition isJSSpace (c : N) : bool :=
  (inRange 9 13 c || N.eqb c 32 || N.eqb c 160 || N.eqb c 5760
   || inRange 8192 8202 c || N.eqb c 8232 || N.eqb c 8233 || N.eqb c 8239
   || N.eqb c 8287 || N.eqb c 12288 || N.eqb c 65279)%bool.

Definition dropEnd {A} (f : A -> bool) (l : list A) : list A :=
  rev (dropWhile f (rev l)).

Definition trim (s : jsstring) : jsstring := dropEnd isJSSpace (dropWhile isJSSpace s).

Definition isSlash (c : N) : bool := N.eqb c 47.

(** [s.replace(/\/+$/, "")] and [s.replace(/^\/+/, "")]. *)
Definition stripTrailingSlashes (s : jsstring) : jsstring := dropEnd isSlash s.
Definition stripLeadingSlashes (s : jsstring) : jsstring := dropWhile isSlash s.

(** [set.add(u)] on a [Set] kept as the list of its elements in insertion
    order. *)
Definition setAdd (set : list jsstring) (u : jsstring) : list jsstring :=
  if bool_decide (u ∈ set) then set else set ++ [u].

Definition fallbackPaths : list jsstring :=
  List.map lit ["/"; "/home"; "/services"; "/about-us"; "/contact"; "/references";
                "/get-a-quote"; "/consultation"]%string.

(** [new URL(p, SITE).toString()] for an absolute path [p] of ASCII letters,
    hyphens and slashes is [SITE] followed by [p]; the constructor does not
    throw on these. *)
Definition resolveFallback (p : jsstring) : jsstring := stripTrailingSlashes (SITE ++ p).

Section Discovery.
Context `{Platform}.

(** The language test of the sitemap loop, which the two files write
    differently. *)
Variable excluded : jsstring -> bool.

(** The sitemap loop over the captures; a [new URL(u)] that throws is
    caught outside the loop and ends it. *)
Fixpoint sitemapLoop (locs : list jsstring) (set : list jsstring) : list jsstring :=
  match locs with
  | [] => set
  | m1 :: rest =>
      let u := stripTrailingSlashes (trim m1) in
      match urlPathname u with
      | None => set
      | Some p =>
          let path := stripLeadingSlashes p in
          if excluded path then sitemapLoop rest set
          else if startsWith u SITE then sitemapLoop rest (setAdd set u)
          else sitemapLoop rest set
      end
  end.

(** [sitemap] is the text of the sitemap, or [None] when the fetch failed
    or was not ok. *)
Definition getSitemapUrlsWith (sitemap : option jsstring) : list jsstring :=
  let set :=
    match sitemap with
    | Some xml => sitemapLoop (locScan 0 xml) []
    | None => []
    end in
  let set := fold_left (fun set p => setAdd set (resolveFallback p)) fallbackPaths set in
  firstn MAX_PAGES set.
End Discovery.

Module PrevDiscovery.
(** [path.startsWith("fi") || path === "fi" || path.startsWith("sv") || path === "sv"] *)
Definition excluded (path : jsstring) : bool :=
  startsWith path (lit "fi") || jsstring_eqb path (lit "fi")
  || startsWith path (lit "sv") || jsstring_eqb path (lit "sv").
Definition getSitemapUrls `{Platform} := getSitemapUrlsWith excluded.
End PrevDiscovery.

Module CurDiscovery.
(** [path==="fi"||path.startsWith("fi/")||path==="sv"||path.startsWith("sv/")] *)
Definition excluded (path : jsstring) : bool :=
  jsstring_eqb path (lit "fi") || startsWith path (lit "fi/")
  || jsstring_eqb path (lit "sv") || startsWith path (lit "sv/").
Definition getSitemapUrls `{Platform} := getSitemapUrlsWith excluded.
End CurDiscovery.

(** ** A platform to compute with

    Exact on strings of Latin-1 code units and on plain [http(s)] URLs
    without credentials, port, dot segments or characters that the URL
    parser would escape. *)

Definition lowerUnit (c : N) : N :=
  if inRange 65 90 c then (c + 32)%N
  else if (inRange 192 222 c && negb (N.eqb c 215))%bool then (c + 32)%N
  else c.

Definition isPathEnd (c : N) : bool := (N.eqb c 63 || N.eqb c 35)%bool.

Definition simplePathname (u : jsstring) : option jsstring :=
  let afterScheme :=
    if startsWith u (lit "https://") then Some (skipn 8 u)
    else if startsWith u (lit "http://") then Some (skipn 7 u)
    else None in
  match afterScheme with
  | Some [] | None => None
  | Some r =>
      let fromPath := dropWhile (fun c => negb (isSlash c || isPathEnd c)) r in
      match takeWhile (fun c => negb (isPathEnd c)) fromPath with
      | [] => Some (lit "/")
      | p => Some p
      end
  end.

#[export] Instance simplePlatform : Platform := {
  toLowerCase := List.map lowerUnit;
  urlPathname := simplePathname;
}.

(** ** The chat handler

    [[
    app.post("/chat", async (req, res) => {
      try {
        const msg = req.body?.message || "";
        const lang = req.body?.lang || "en";
        if (!msg) return res.json({ reply: "Please type a message." });
        const ctx = await retrieveContext(msg);
        const langRule = ...;
        const sys = [ ..., langRule, ..., ctx ? ("Knowledge:\n" + ctx) : "Knowledge: (none yet)" ].join("\n");
        const r = await openai.chat.completions.create({ ..., messages: [
            { role: "system", content: sys }, { role: "user", content: msg } ] });
        res.json({ reply: r.choices?.[0]?.message?.content || "(no reply)" });
      } catch (e) {
        res.json({ reply: "Error " + (e?.message || String(e)) });
      }
    });
    ]] *)

(** A value of a parsed JSON body; [JUndefined] is an absent field. *)
Inductive JSValue :=
| JUndefined
| JNull
| JBool (b : bool)
| JNumber (x : float)
| JString (s : jsstring)
| JObject.

Definition truthy (v : JSValue) : bool :=
  match v with
  | JUndefined | JNull => false
  | JBool b => b
  | JNumber x => negb (falsy x)
  | JString s => negb (jsstring_eqb s [])
  | JObject => true
  end.

(** [a || b] *)
Definition orElse (a b : JSValue) : JSValue := if truthy a then a else b.

Record Body := mkBody { message : JSValue; lang_field : JSValue }.

(** [req.body?.message], [req.body?.lang] *)
Definition bodyMessage (body : option Body) : JSValue :=
  match body with Some b => message b | None => JUndefined end.
Definition bodyLang (body : option Body) : JSValue :=
  match body with Some b => lang_field b | None => JUndefined end.

(** What an awaited call yields: a value, or a thrown error with the text
    [e?.message || String(e)]. *)
Inductive Outcome (A : Type) :=
| Fulfilled (a : A)
| Failed (text : jsstring).
Arguments Fulfilled {A}.
Arguments Failed {A}.

(** The handler as the sequence of its calls: it answers, or awaits
    [retrieveContext], or awaits the completion. *)
Inductive Handler :=
| Respond (reply : jsstring)
| Retrieve (query : JSValue) (k : Outcome jsstring -> Handler)
| Complete (sys : jsstring) (user : JSValue) (k : Outcome (option jsstring) -> Handler).

Definition joinLines (ls : list jsstring) : jsstring :=
  match ls with
  | [] => []
  | l :: ls' => l ++ flat_map (fun x => newline ++ x) ls'
  end.

Definition isLang (v : JSValue) (code : string) : bool :=
  match v with JString s => jsstring_eqb s (lit code) | _ => false end.

Section Chat.
(** The wording of the prompt, which the two files choose differently. *)
Variable langRuleOf : JSValue -> jsstring.
Variable missingRule : jsstring.

Definition sysPrompt (lang : JSValue) (ctx : jsstring) : jsstring :=
  joinLines
    [ lit "You are SODERBOT, assistant for Soderman Audiovisual.";
      lit "We are a film production company based in Vaasa and Helsinki. Use 'we'/'our'.";
      lit "When the question is very short (even a single word), infer the most relevant section from the knowledge and explain briefly with context.";
      langRuleOf lang;
      missingRule;
      match ctx with
      | [] => lit "Knowledge: (none yet)"
      | _ => lit "Knowledge:" ++ newline ++ ctx
      end ].

Definition errorReply (text : jsstring) : Handler := Respond (lit "Error " ++ text).

Definition chatWith (body : option Body) : Handler :=
  let msg := orElse (bodyMessage body) (JString []) in
  let lang := orElse (bodyLang body) (JString (lit "en")) in
  if negb (truthy msg) then Respond (lit "Please type a message.")
  else
    Retrieve msg (fun r =>
      match r with
      | Failed text => errorReply text
      | Fulfilled ctx =>
          Complete (sysPrompt lang ctx) msg (fun r =>
            match r with
            | Failed text => errorReply text
            | Fulfilled (Some ((_ :: _) as content)) => Respond content
            | Fulfilled _ => Respond (lit "(no reply)")
            end)
      end).
End Chat.

Module PrevChat.
Definition langRuleOf (lang : JSValue) : jsstring :=
  if isLang lang "fi" then lit "Answer in Finnish. Be faithful to the facts from the knowledge."
  else if isLang lang "sv" then lit "Answer in Swedish. Be faithful to the facts from the knowledge."
  else lit "Answer in English. Be faithful to the facts from the knowledge.".
Definition missingRule : jsstring :=
  lit "Cite implicit context only from the provided knowledge. If something is missing, say so briefly and offer a human handoff.".
Definition chat := chatWith langRuleOf missingRule.
End PrevChat.

Module CurChat.
Definition langRuleOf (lang : JSValue) : jsstring :=
  if isLang lang "fi" then lit "Answer in Finnish."
  else if isLang lang "sv" then lit "Answer in Swedish."
  else lit "Answer in English.".
Definition missingRule : jsstring :=
  lit "Use only the knowledge provided. If a detail is missing, say so and offer a human handoff.".
Definition chat := chatWith langRuleOf missingRule.
End CurChat.

(** ** The status route *)

(** [app.get("/kb-status", ...)]:
    [[
    const embedded = KB.filter(x => Array.isArray(x.vec)).length;
    res.json({ chunks: KB.length, embedded, vocab: VOCAB_IDF.size });
    ]] *)
Record KbStatus := mkKbStatus { chunks : nat; embedded : nat; vocab : nat }.

Definition isArray {T} (v : option (list T)) : bool :=
  match v with Some _ => true | None => false end.

Definition kbStatus {T} (g : Globals T) : KbStatus :=
  mkKbStatus (length (KB g))
    (length (List.filter (fun x => isArray (vec x)) (KB g)))
    (size (VOCAB_IDF g)).

(** ** Regular expressions of the page fetcher

    A regular expression is embedded as a backtracking matcher in
    continuation-passing style, as the engine runs it: a matcher is given
    the continuation [k] for what follows it in the pattern and the text
    from the current position on; it tries its ways of matching a prefix
    in the order of the language and hands what is left to [k], going on to
    its next way when [k] fails.  The result of the continuation at the end
    of the pattern is the result of the match. *)

Section Regex.
Context {A : Type}.
Implicit Types (k : jsstring -> option A) (s : jsstring).

(** One pattern character; [i] is the [i] flag. *)
Definition one (i : bool) (c : N) k s : option A :=
  match s with
  | d :: s' => if (if i then charEqI c d else N.eqb c d) then k s' else None
  | [] => None
  end.

(** A sequence of pattern characters. *)
Fixpoint text (i : bool) (p : jsstring) k : jsstring -> option A :=
  match p with
  | [] => k
  | c :: p' => one i c (text i p' k)
  end.

(** A character class, given by its test. *)
Definition oneOf (f : N -> bool) k s : option A :=
  match s with
  | d :: s' => if f d then k s' else None
  | [] => None
  end.

(** The quantifiers [*] and [+] on a class ([min] is 0 or 1): one more
    character first, the continuation when that fails. *)
Fixpoint greedy (f : N -> bool) (min : nat) k s : option A :=
  let stop := if min =? 0 then k s else None in
  match s with
  | d :: s' =>
      if f d then
        match greedy f (pred min) k s' with
        | Some r => Some r
        | None => stop
        end
      else stop
  | [] => stop
  end.

(** The quantifier [*?] on a class: the continuation first, one more
    character when that fails. *)
Fixpoint lazy (f : N -> bool) k s : option A :=
  match k s with
  | Some r => Some r
  | None =>
      match s with
      | d :: s' => if f d then lazy f k s' else None
      | [] => None
      end
  end.

(** The alternatives of a group [(a|b|...)], in order. *)
Fixpoint anyOf (ms : list ((jsstring -> option A) -> jsstring -> option A)) k s : option A :=
  match ms with
  | [] => None
  | m :: ms' =>
      match m k s with
      | Some r => Some r
      | None => anyOf ms' k s
      end
  end.

(** [s.match(re)] without the [g] flag: the match at the leftmost position
    that has one. *)
Fixpoint searchFrom (here : jsstring -> option A) s : option A :=
  match here s with
  | Some r => Some r
  | None =>
      match s with
      | _ :: s' => searchFrom here s'
      | [] => None
      end
  end.
End Regex.

(** [s.replace(re, rep)] with the [g] flag and a replacement text without
    [$]: [here] gives what is left of the text after a match at its start;
    the search resumes where the match ended (one character further after
    an empty match, that character being kept).  [skip] characters of the
    last match are still to be stepped over. *)
Fixpoint replaceLoop (here : jsstring -> option jsstring) (rep : jsstring)
    (skip : nat) (s : jsstring) : jsstring :=
  match skip with
  | S n =>
      match s with
      | [] => []
      | _ :: s' => replaceLoop here rep n s'
      end
  | O =>
      match here s with
      | Some rest =>
          let len := length s - length rest in
          rep ++ match s with
                 | [] => []
                 | c :: s' =>
                     if len =? 0 then c :: replaceLoop here rep 0 s'
                     else replaceLoop here rep (len - 1) s'
                 end
      | None =>
          match s with
          | [] => []
          | c :: s' => c :: replaceLoop here rep 0 s'
          end
      end
  end.

Definition replaceAll (here : jsstring -> option jsstring) (rep s : jsstring) : jsstring :=
  replaceLoop here rep 0 s.

(** The classes [[\s\S]] and [[^>]], the class of the two quote characters
    and its complement. *)
Definition anyUnit (c : N) : bool := true.
Definition notGt (c : N) : bool := negb (N.eqb c 62).
Definition isQuote (c : N) : bool := (N.eqb c 34 || N.eqb c 39)%bool.
Definition notQuote (c : N) : bool := negb (isQuote c).

(** ** stripHtml

    [[
    function stripHtml(html) {
      if (!html) return '';
      return html
        .replace(/<script[\s\S]*?<\/script>/gi, " ")
        .replace(/<style[\s\S]*?<\/style>/gi, " ")
        .replace(/<!--[\s\S]*?-->/g, " ")
        .replace(/<\/(p|div|section|article|li|h1|h2|h3|br)>/gi, "\n")
        .replace(/<[^>]+>/g, " ")
        .replace(/\s+/g, " ")
        .trim();
    }
    ]] *)

(** [/<script[\s\S]*?<\/script>/i] *)
Definition reScript : jsstring -> option jsstring :=
  text true (lit "<script") (lazy anyUnit (text true (lit "</script>") Some)).

(** [/<style[\s\S]*?<\/style>/i] *)
Definition reStyle : jsstring -> option jsstring :=
  text true (lit "<style") (lazy anyUnit (text true (lit "</style>") Some)).

(** [/<!--[\s\S]*?-->/] *)
Definition reComment : jsstring -> option jsstring :=
  text false (lit "<!--") (lazy anyUnit (text false (lit "-->") Some)).

(** [/<\/(p|div|section|article|li|h1|h2|h3|br)>/i] *)
Definition reBlockEnd : jsstring -> option jsstring :=
  text true (lit "</")
    (anyOf (List.map (fun name => text true (lit name))
              ["p"; "div"; "section"; "article"; "li"; "h1"; "h2"; "h3"; "br"]%string)
       (one true 62 Some)).

(** [/<[^>]+>/] *)
Definition reTag : jsstring -> option jsstring :=
  one false 60 (greedy notGt 1 (one false 62 Some)).

(** [/\s+/] *)
Definition reSpaces : jsstring -> option jsstring :=
  greedy isJSSpace 1 Some.

Definition space : jsstring := [32%N].

Definition stripHtml (html : jsstring) : jsstring :=
  match html with
  | [] => []
  | _ =>
      trim
        (replaceAll reSpaces space
           (replaceAll reTag space
              (replaceAll reBlockEnd newline
                 (replaceAll reComment space
                    (replaceAll reStyle space
                       (replaceAll reScript space html))))))
  end.

(** ** fetchPageStrong

    [[
    async function fetchPageStrong(url) {
      try {
        const r = await fetch(url, { headers: { ... } });
        if (!r.ok) return null;
        const html = await r.text();
        const title = (html.match(/<title[^>]*>([\s\S]*?)<\/title>/i)?.[1] || '').trim();
        const meta = (html.match(/<meta[^>]+name=[Q]description[Q][^>]+content=[Q]([^Q]+)[Q]/i)?.[1] || '').trim();
        let body = '';
        const main = html.match(/<main[\s\S]*?<\/main>/i); if (main) body += ' ' + stripHtml(main[0]);
        const art = html.match(/<article[\s\S]*?<\/article>/i); if (art) body += ' ' + stripHtml(art[0]);
        if (body.trim().length < 120) body = stripHtml(html);
        const doc = [title ? ('TITLE: ' + title) : '', meta ? ('DESCRIPTION: ' + meta) : '', body ? ('BODY:\n' + body) : '']
          .filter(Boolean).join('\n\n');
        return (doc && doc.length >= MIN_DOC_CHARS) ? doc : null;
      } catch { return null; }
    }
    ]]
    The strings of the source are written with single quotes here, and [Q]
    stands for the two quote characters that the classes of the second
    expression list. *)

(** The text between the position [s1] and the later position [s2]. *)
Definition upTo (s1 s2 : jsstring) : jsstring := firstn (length s1 - length s2) s1.

(** [/<title[^>]*>([\s\S]*?)<\/title>/i], giving the group. *)
Definition reTitle : jsstring -> option jsstring :=
  text true (lit "<title")
    (greedy notGt 0
       (one true 62
          (fun s1 => lazy anyUnit (fun s2 => text true (lit "</title>")
                                              (fun _ => Some (upTo s1 s2)) s2) s1))).

(** [/<meta[^>]+name=[Q]description[Q][^>]+content=[Q]([^Q]+)[Q]/i], giving
    the group. *)
Definition reMeta : jsstring -> option jsstring :=
  text true (lit "<meta")
    (greedy notGt 1
       (text true (lit "name=")
          (oneOf isQuote
             (text true (lit "description")
                (oneOf isQuote
                   (greedy notGt 1
                      (text true (lit "content=")
                         (oneOf isQuote
                            (fun s1 => greedy notQuote 1
                                         (fun s2 => oneOf isQuote
                                                      (fun _ => Some (upTo s1 s2)) s2)
                                         s1))))))))).

(** [/<main[\s\S]*?<\/main>/i] and [/<article[\s\S]*?<\/article>/i], giving
    the text matched. *)
Definition reMain (s : jsstring) : option jsstring :=
  text true (lit "<main")
    (lazy anyUnit (text true (lit "</main>") (fun rest => Some (upTo s rest)))) s.

Definition reArticle (s : jsstring) : option jsstring :=
  text true (lit "<article")
    (lazy anyUnit (text true (lit "</article>") (fun rest => Some (upTo s rest)))) s.

(** What the [fetch] of the page comes to: an exception (of [fetch] or of
    [r.text()]), a response that is not ok, or the text of the page. *)
Inductive Fetched :=
| FetchThrows
| NotOk
| Html (html : jsstring).

(** [parts.filter(Boolean).join(sep)] for strings. *)
Fixpoint joinWith (sep : jsstring) (parts : list jsstring) : jsstring :=
  match parts with
  | [] => []
  | [p] => p
  | p :: parts' => p ++ sep ++ joinWith sep parts'
  end.

Definition nonEmpty (s : jsstring) : bool := negb (jsstring_eqb s []).

(** [x ? (label + x) : ''] *)
Definition labelled (label : string) (x : jsstring) : jsstring :=
  if nonEmpty x then lit label ++ x else [].

Definition fetchPageStrong (r : Fetched) : option jsstring :=
  match r with
  | FetchThrows | NotOk => None
  | Html html =>
      let title := trim (default [] (searchFrom reTitle html)) in
      let meta := trim (default [] (searchFrom reMeta html)) in
      let body := [] in
      let body :=
        match searchFrom reMain html with
        | Some m => body ++ space ++ stripHtml m
        | None => body
        end in
      let body :=
        match searchFrom reArticle html with
        | Some m => body ++ space ++ stripHtml m
        | None => body
        end in
      let body := if length (trim body) <? 120 then stripHtml html else body in
      let doc :=
        joinWith (newline ++ newline)
          (List.filter nonEmpty
             [labelled "TITLE: " title; labelled "DESCRIPTION: " meta;
              if nonEmpty body then lit "BODY:" ++ newline ++ body else []]) in
      if nonEmpty doc && (MIN_DOC_CHARS <=? length doc) then Some doc else None
  end.

(** ** The re-index route

    [[
    app.post("/reindex", async (_req, res) => {
      res.json({ ok: true, msg: "Re-crawling started" });
      crawl().catch(e => console.log("reindex error", e?.message || String(e)));
    });
    ]]
    The handler starts a crawl, which runs up to its first [await] before
    the handler returns, whether or not another crawl is suspended. *)
Definition reindex {T} `{Number T} `{MathLib T} `{Platform} (g : Globals T)
  : Globals T * CrawlPC :=
  crawlStart g.

(** ** Several crawls in flight

    Every call of [crawl] (by [main] at start-up, by the handler of
    [/reindex] at each request) is an activation of its own, with its own
    [urls], [idCounter], [texts] and [start], over the one [KB],
    [VOCAB_IDF] and [CHUNK_TF] of the module.  The engine runs one
    activation at a time, from one [await] to the next; nothing in either
    file keeps a crawl from being started while others are suspended.  An
    event starts an activation, which is numbered after the existing ones,
    or resumes the activation numbered [i] with what its promise settled
    to. *)
Inductive Event (T : Type) :=
| StartCrawl
| Settle (i : nat) (r : Response T).
Arguments StartCrawl {T}.
Arguments Settle {T}.

Section Server.
Context {T : Type} `{Number T} `{MathLib T} `{Platform}.

Definition serverStep (st : Globals T * list CrawlPC) (ev : Event T)
  : Globals T * list CrawlPC :=
  let '(g, pcs) := st in
  match ev with
  | StartCrawl => let '(g', pc) := crawlStart g in (g', pcs ++ [pc])
  | Settle i r =>
      match pcs !! i with
      | Some pc => let '(g', pc') := crawlResume (g, pc) r in (g', <[i := pc']> pcs)
      | None => st
      end
  end.

Definition serverRun (st : Globals T * list CrawlPC) (evs : list (Event T))
  : Globals T * list CrawlPC :=
  fold_left serverStep evs st.
End Server.

(** ** Vocabulary of the statements *)

(** The declarative chunking: cut [n] elements off the front, repeatedly. *)
Fixpoint chunksOf {A} (fuel n : nat) (s : list A) : list (list A) :=
  match fuel, s with
  | O, _ | _, [] => []
  | S fuel', _ :: _ => firstn n s :: chunksOf fuel' n (skipn n s)
  end.

(** The loop of [cosine] over two arrays read pairwise. *)
Fixpoint zipLoop {T} `{Number T} (a b : list T) (dot na nb : T) : T * T * T :=
  match a, b with
  | x :: a', y :: b' =>
      zipLoop a' b' (add dot (mul x y)) (add na (mul x x)) (add nb (mul y y))
  | _, _ => (dot, na, nb)
  end.

(** The contribution of a term with weight [idf] occurring [f] times, as
    [addTerm] computes it over the reals (both ways of writing the
    product). *)
Definition contribution (idf : R) (f : nat) : R :=
  (idf * (INR f * 1.2) / (1 + 0.25 + INR f))%R.

(** The sum of [f] over the terms. *)
Definition sumOver (f : jsstring -> R) (terms : list jsstring) : R :=
  fold_right (fun t acc => (f t + acc)%R) 0%R terms.

(** One step of [unique]. *)
Definition uniqueStep {A} `{EqDecision A} (set : list A) (x : A) : list A :=
  if bool_decide (x ∈ set) then set else set ++ [x].

(** The table of one chunk, and the number of chunks whose text has the token
    [t]. *)
Definition tfOf {T} `{Platform} (d : Chunk T) : gmap jsstring nat :=
  termFreqs (chunk d) (unique (tokenize (chunk d))).

Definition hasToken {T} `{Platform} (t : jsstring) (d : Chunk T) : bool :=
  bool_decide (t ∈ tokenize (chunk d)).

Definition docFreq {T} `{Platform} (t : jsstring) (kb : list (Chunk T)) : nat :=
  length (List.filter (hasToken t) kb).

(** A knowledge base is indexed when the two tables hold exactly what the
    sparse index of [crawl] computes from its chunks. *)
Definition generationSize {T} (kb : list (Chunk T)) : nat :=
  if length kb =? 0 then 1 else length kb.

Definition Indexed {T} `{Number T} `{MathLib T} `{Platform} (g : Globals T) : Prop :=
  (forall i, CHUNK_TF g !! i = tfOf <$> (KB g !! i)) /\
  (forall t, VOCAB_IDF g !! t =
     match docFreq t (KB g) with
     | O => None
     | S n => Some (idfOf (generationSize (KB g)) (S n))
     end).

(** The control points at which the sparse index has been built. *)
Definition indexedPC (pc : CrawlPC) : Prop :=
  match pc with
  | AwaitEmbeddings _ _ | Done | Rejected => True
  | AwaitUrls | AwaitPage _ _ _ => False
  end.

(** What holds of the globals at each control point of a crawl. *)
Definition CrawlInv {T} `{Number T} `{MathLib T} `{Platform}
    (st : Globals T * CrawlPC) : Prop :=
  List.map id (KB (fst st)) = seq 0 (length (KB (fst st))) /\
  match snd st with
  | AwaitUrls =>
      KB (fst st) = [] /\ VOCAB_IDF (fst st) = ∅ /\ CHUNK_TF (fst st) = ∅
  | AwaitPage _ _ idCounter =>
      idCounter = length (KB (fst st)) /\
      VOCAB_IDF (fst st) = ∅ /\ CHUNK_TF (fst st) = ∅ /\
      Forall (fun d => vec d = None) (KB (fst st))
  | AwaitEmbeddings texts start =>
      texts = List.map chunk (KB (fst st)) /\ start < length texts /\ Indexed (fst st)
  | Done | Rejected => Indexed (fst st)
  end.


(** One of the two files: its [cosine] and its way of writing the product. *)
Definition IsVersion (cos : list R -> list R -> R) (P : R -> R -> R) : Prop :=
  (cos = Prev.cosine /\ P = PrevRetrieval.termProduct) \/
  (cos = Cur.cosine /\ P = CurRetrieval.termProduct).

(** The test [score > 0] of the scoring loop. *)
Definition positiveScore (cos : list R -> list R -> R) (P : R -> R -> R)
    (g : Globals R) (qv : list R) (terms : list jsstring) (d : Chunk R) : bool :=
  Rgtb (scoreOf cos P g qv terms d) 0.



(** The entries of the chunks [ds], one after the other. *)
Definition entries (ds : list (Chunk R * R)) : jsstring :=
  concat (List.map (fun a => entry (fst a)) ds).

(** *** Example data

    A crawl of one page: the sitemap lists one page, whose text is fetched;
    the crawl is then suspended in its first embedding request. *)
Definition demoUrl : jsstring := SITE ++ lit "/services".
Definition demoText : jsstring := lit "We produce commercial video content".
Definition demoCrawl : list (Response R) := [Urls [demoUrl]; Page (Some demoText)].
Definition noGlobals : Globals R := mkGlobals [] ∅ ∅.

(** A crawl of one page of 8500 characters, which gives ten chunks of 800
    characters and one of 500; every chunk gets the embedding [[1]]. *)
Definition longDoc : jsstring := lit "BODY:" ++ newline ++ repeat 97%N (84 * 100 + 94).
Definition longCrawl : list (Response R) :=
  [Urls [SITE]; Page (Some longDoc); Embeddings (repeat [1%R] 11)].
Definition longKB : list (Chunk R) :=
  imap (fun k c => mkChunk k SITE (lit "en") c (Some [1%R])) (chunkTextDefault longDoc).

(** A crawl of 97 pages with one chunk each, suspended in its second
    embedding request after 96 embeddings have arrived. *)
Definition manyUrls : list jsstring :=
  List.map (fun k => SITE ++ lit "/" ++ repeat 97%N (S k)) (seq 0 97).
Definition pageDoc : jsstring := lit "BODY:" ++ newline ++ repeat 97%N 174.
Definition manyCrawl : list (Response R) :=
  Urls manyUrls :: repeat (Page (Some pageDoc)) 97 ++ [Embeddings (repeat [1%R] 96)].

(** A sitemap that lists one English page whose path starts with [fi]. *)
Definition filmSitemap : jsstring :=
  lit "<urlset><url><loc>https://www.sodermanaudiovisual.com/film-production</loc></url></urlset>".

(** The contribution of a term of weight [idf] and count [f] in double
    arithmetic, as [addTerm] computes it from a running sum of 0. *)
Definition doubleContribution (P : float -> float -> float) (idf : float) (f : nat)
  : float :=
  addTerm P (mkGlobals [] {[ lit "t" := idf ]} ∅) {[ lit "t" := f ]} (ofNat 0) (lit "t").

Definition saturatesAt (P : float -> float -> float) (idf : float) (f : nat) : bool :=
  (PrimFloat.leb (doubleContribution P idf f) (doubleContribution P idf (S f))
   && PrimFloat.ltb
        (doubleContribution P idf (S (S f)) - doubleContribution P idf (S f))
        (doubleContribution P idf (S f) - doubleContribution P idf f))%float.

(** *** Tokens, crawls and URLs *)

(** [w] is a maximal run of class characters of [text]. *)
Definition tokenRun (text w : jsstring) : Prop :=
  exists pre post,
    text = pre ++ w ++ post
    /\ Forall (fun c => isTokenChar c = true) w
    /\ (forall c, last pre = Some c -> isTokenChar c = false)
    /\ (forall c, head post = Some c -> isTokenChar c = false).

(** The run [w] is being read, with [cur] read so far, or lies further on
    in [s] behind a separator. *)
Definition runAhead (s cur w : jsstring) : Prop :=
  (exists w2 post,
      w = rev cur ++ w2 /\ s = w2 ++ post
      /\ Forall (fun c => isTokenChar c = true) w2
      /\ (forall c, head post = Some c -> isTokenChar c = false))
  \/ (exists s1 c1 post,
      s = s1 ++ c1 :: w ++ post /\ isTokenChar c1 = false
      /\ Forall (fun c => isTokenChar c = true) w
      /\ (forall c, head post = Some c -> isTokenChar c = false)).

(** The pieces [crawl] pushes for a fetched page. *)
Definition pagePieces (doc : option jsstring) : list jsstring :=
  match doc with
  | None | Some [] => []
  | Some d => chunkTextDefault d
  end.

(** The chunks of the pages, [numbered] from [n] on. *)
Definition numbered {T} (n : nat) (pieces : list (jsstring * jsstring)) : list (Chunk T) :=
  imap (fun k uc => mkChunk (n + k) (fst uc) (lit "en") (snd uc) None) pieces.

Definition piecesOf (urls : list jsstring) (docs : list (option jsstring))
  : list (jsstring * jsstring) :=
  concat (zip_with (fun u doc => List.map (pair u) (pagePieces doc)) urls docs).

(** The knowledge base after the pages [docs] have been fetched for [urls],
    before any embedding has arrived. *)
Definition fetchedChunks {T} (urls : list jsstring) (docs : list (option jsstring))
  : list (Chunk T) :=
  numbered 0 (piecesOf urls docs).

Definition withVecs {T} (kb : list (Chunk T)) (vs : list (list T)) : list (Chunk T) :=
  zip_with (fun d v => setVec v d) kb vs.



(** All tokens of the knowledge base, each once. *)
Definition vocabulary {T} `{Platform} (kb : list (Chunk T)) : list jsstring :=
  unique (flat_map (fun d => tokenize (chunk d)) kb).

(** Every chunk has between 1 and [CHUNK_SIZE] characters. *)
Definition sizedChunks {T} (kb : list (Chunk T)) : Prop :=
  Forall (fun c => 1 <= length c <= CHUNK_SIZE) (List.map chunk kb).

(** The URLs the sitemap loop can add for the sitemap text [xml]: the
    trimmed captures that are valid URLs of the site with a path that is not
    excluded. *)
Definition listed `{Platform} (excluded : jsstring -> bool) (xml u : jsstring) : Prop :=
  exists m1 p,
    m1 ∈ locScan 0 xml /\ u = stripTrailingSlashes (trim m1)
    /\ urlPathname u = Some p /\ excluded (stripLeadingSlashes p) = false.

Definition fallbackUrls : list jsstring := List.map resolveFallback fallbackPaths.

(** *** Markup and white space *)

(** A match of [/<[^>]+>/] starts here. *)
Definition tagAt (s : jsstring) : bool :=
  match s with
  | 60%N :: d :: s' => negb (N.eqb d 62) && existsb (N.eqb 62) s'
  | _ => false
  end.

(** No match of [/<[^>]+>/] starts anywhere. *)
Fixpoint noTag (s : jsstring) : bool :=
  match s with
  | [] => true
  | _ :: s' => negb (tagAt s) && noTag s'
  end.

Definition headSpace (s : jsstring) : bool :=
  match s with
  | d :: _ => isJSSpace d
  | [] => false
  end.

(** Every white-space character is a space that no white space follows. *)
Fixpoint collapsed (s : jsstring) : bool :=
  match s with
  | [] => true
  | c :: s' =>
      (if isJSSpace c then N.eqb c 32 && negb (headSpace s') else true) && collapsed s'
  end.

(** The text has a tag: a [<], one or more characters other than [>], and
    a [>]. *)
Definition hasTag (s : jsstring) : Prop :=
  exists pre run post,
    s = pre ++ [60%N] ++ run ++ [62%N] ++ post /\ run <> [] /\ 62%N ∉ run.

(** Every white-space character of the text is a space that stands between
    two characters that are not white space. *)
Definition singleSpaced (s : jsstring) : Prop :=
  forall pre c post,
    s = pre ++ c :: post -> isJSSpace c = true ->
    c = 32%N
    /\ (exists a, last pre = Some a /\ isJSSpace a = false)
    /\ (exists b, head post = Some b /\ isJSSpace b = false).

(** A sitemap as a text: before each entry [<loc>u</loc>] comes the text
    [sep] of the pair [(sep, u)], and [tail] ends the sitemap. *)
Definition sitemapText (entries : list (jsstring * jsstring)) (tail : jsstring) : jsstring :=
  flat_map (fun e => fst e ++ lit "<loc>" ++ snd e ++ lit "</loc>") entries ++ tail.

(** No [<loc>] starts inside [sep] when [next] follows it. *)
Definition noLocIn (sep next : jsstring) : Prop :=
  forall n, n < length sep -> startsWithI (drop n (sep ++ next)) (lit "<loc>") = false.

(** *** Norms, cosines and crawls that run alone *)

(** The squared norm of [v], as the loop of [cosine] accumulates it. *)
Definition squaredNorm {T} `{Number T} (v : list T) : T :=
  fold_left (fun s x => add s (mul x x)) v (ofNat 0).





(** Neither squared norm that [cosine(a, b)] accumulates is NaN. *)
Definition normsDefined (a b : list float) : bool :=
  let '(_, na, nb) := cosineLoop a b 0 (ofNat 0) (ofNat 0) (ofNat 0) in
  (negb (PrimFloat.is_nan na) && negb (PrimFloat.is_nan nb))%bool.

(** A stand-in for the engine's [Math.log] and [Math.tanh] on doubles, for
    examples of statements that hold whatever the two functions are. *)
Definition someMathLib : MathLib float :=
  {| Math_log := fun x => x; Math_tanh := fun x => x |}.

(** A knowledge base of one chunk with the vector [v], in double
    arithmetic. *)
Definition floatKB (v : list float) : Globals float :=
  mkGlobals [mkChunk 0 demoUrl (lit "en") demoText (Some v)] ∅ ∅.

(** The events of a crawl that runs alone: it is started when the
    activations [older] exist, and from then on no other activation is
    started or resumed while its own promises settle to [rs]. *)
Definition alone {T} (older : list CrawlPC) (rs : list (Response T)) : list (Event T) :=
  StartCrawl :: List.map (Settle (length older)) rs.

(* ================================================================== *)
(** * Properties *)

(** ** The chunker *)

Section Chunker.
Context {A : Type}.
Implicit Types (s : list A) (out : list (list A)).

Lemma slice_length s b e : length (slice s b e) = Nat.min (e - b) (length s - b).
Proof. unfold slice. now rewrite length_firstn, length_skipn. Qed.

Lemma chunkLoop_spec n (Hn : 0 < n) fuel s i out :
  length s - i <= fuel ->
  chunkLoop fuel s n i out = Some (out ++ chunksOf fuel n (skipn i s)).
Proof.
  revert i out. induction fuel as [|fuel IH]; intros i out Hfuel.
  - simpl. destruct (Nat.ltb_spec i (length s)); [lia|].
    now rewrite app_nil_r.
  - cbn [chunkLoop]. destruct (Nat.ltb_spec i (length s)) as [Hi|Hi].
    + rewrite IH by lia. f_equal. rewrite <- app_assoc. f_equal.
      cbn [chunksOf]. destruct (skipn i s) as [|a t] eqn:E.
      { apply (f_equal (@length A)) in E. rewrite length_skipn in E.
        simpl in E. lia. }
      rewrite <- E. cbn [app]. f_equal.
      * unfold slice. f_equal. lia.
      * f_equal. rewrite skipn_skipn. f_equal. lia.
    + rewrite skipn_all2 by lia. destruct fuel; now rewrite ?app_nil_r.
Qed.

Lemma chunksOf_concat n fuel s :
  0 < n -> length s <= fuel -> concat (chunksOf fuel n s) = s.
Proof.
  intros Hn. revert s. induction fuel as [|fuel IH]; intros s Hs.
  - destruct s; [reflexivity | simpl in Hs; lia].
  - destruct s as [|a t]; [reflexivity|].
    cbn [chunksOf concat]. rewrite IH.
    + apply firstn_skipn.
    + rewrite length_skipn. simpl in *. lia.
Qed.

Lemma chunksOf_length n fuel s :
  0 < n -> length s <= fuel ->
  length (chunksOf fuel n s) = (length s + n - 1) / n.
Proof.
  intros Hn. revert s. induction fuel as [|fuel IH]; intros s Hs.
  - destruct s; [|simpl in Hs; lia]. simpl.
    symmetry. apply Nat.div_small. lia.
  - destruct s as [|a t].
    { simpl. symmetry. apply Nat.div_small. lia. }
    cbn [chunksOf length]. rewrite IH by (rewrite length_skipn; simpl in *; lia).
    rewrite length_skipn. cbn [length].
    destruct (Nat.le_gt_cases n (S (length t))) as [Hle|Hgt].
    + replace (S (length t) + n - 1) with ((S (length t) - n + n - 1) + 1 * n) by lia.
      rewrite Nat.div_add by lia. lia.
    + replace (S (length t) - n) with 0 by lia.
      rewrite (Nat.div_small (0 + n - 1)) by lia.
      apply Nat.div_unique with (r := length t); lia.
Qed.

Lemma chunksOf_nth n fuel s k :
  0 < n -> length s <= fuel -> k < length (chunksOf fuel n s) ->
  nth k (chunksOf fuel n s) [] = slice s (k * n) (k * n + n).
Proof.
  intros Hn. revert s k. induction fuel as [|fuel IH]; intros s k Hs Hk.
  - simpl in Hk. lia.
  - destruct s as [|a t]; [simpl in Hk; lia|].
    cbn [chunksOf] in *. destruct k as [|k].
    + unfold slice. cbn [nth]. rewrite Nat.mul_0_l. cbn [skipn].
      f_equal. lia.
    + cbn [nth]. cbn [length] in Hk. rewrite IH.
      * unfold slice. rewrite skipn_skipn. f_equal; [lia|]. f_equal. lia.
      * rewrite length_skipn. simpl in *. lia.
      * lia.
Qed.

(** C3. For every string [s] and every positive [n] the chunker terminates
    with a list [out] of substrings of [s] taken at the consecutive offsets
    [0, n, 2n, ...] (in original order, not overlapping); their
    concatenation is [s]; every chunk has at most [n] elements and every
    chunk but the last exactly [n]; there are [ceil(|s| / n)] chunks (none
    for the empty string); and the result is a function of [s] and [n]
    alone. *)
Theorem chunkText_partition s n :
  0 < n ->
  exists out,
    chunkText s n = Some out /\
    concat out = s /\
    Forall (fun c => length c <= n) out /\
    (forall k, S k < length out -> length (nth k out []) = n) /\
    (forall k, k < length out -> nth k out [] = slice s (k * n) (k * n + n)) /\
    length out = (length s + n - 1) / n /\
    (s = [] -> out = []) /\
    (forall out', chunkText s n = Some out' -> out' = out).
Proof.
  intros Hn. exists (chunksOf (length s) n s).
  assert (Hrun : chunkText s n = Some (chunksOf (length s) n s)).
  { unfold chunkText. rewrite chunkLoop_spec by lia. reflexivity. }
  assert (Hlen := chunksOf_length n (length s) s Hn (le_n _)).
  assert (Hnth := fun k => chunksOf_nth n (length s) s k Hn (le_n _)).
  repeat split.
  - exact Hrun.
  - now apply chunksOf_concat.
  - apply List.Forall_forall. intros c Hc.
    apply (In_nth _ _ []) in Hc. destruct Hc as (k & Hk & <-).
    rewrite Hnth by exact Hk. rewrite slice_length. lia.
  - intros k Hk. rewrite Hnth by lia. rewrite slice_length.
    rewrite Hlen in Hk.
    assert (Hq : n * ((length s + n - 1) / n) <= length s + n - 1)
      by (apply Nat.Div0.mul_div_le).
    set (q := (length s + n - 1) / n) in *.
    assert (k * n + n + n <= n * q) by nia.
    lia.
  - intros k Hk. now apply Hnth.
  - exact Hlen.
  - intros ->. destruct (length (@nil A)); reflexivity.
  - intros out' H. congruence.
Qed.

Lemma chunkText_default s : chunkText s CHUNK_SIZE = Some (chunkTextDefault s).
Proof.
  unfold chunkTextDefault, chunkText.
  rewrite chunkLoop_spec; [reflexivity | unfold CHUNK_SIZE; lia | lia].
Qed.
End Chunker.

(** The chunker at a concrete input: three chunks of sizes 3, 3 and 1. *)
Lemma chunkText_partition_witness :
  exists out,
    chunkText (lit "abcdefg") 3 = Some out /\
    concat out = lit "abcdefg" /\
    Forall (fun c => length c <= 3) out /\
    (forall k, S k < length out -> length (nth k out []) = 3) /\
    (forall k, k < length out ->
       nth k out [] = slice (lit "abcdefg") (k * 3) (k * 3 + 3)) /\
    length out = (length (lit "abcdefg") + 3 - 1) / 3 /\
    (lit "abcdefg" = [] -> out = []) /\
    (forall out', chunkText (lit "abcdefg") 3 = Some out' -> out' = out).
Proof. apply (chunkText_partition (lit "abcdefg") 3). lia. Defined.

(** ** Cosine similarity *)

Section CosineFacts.
Context {T : Type} `{Number T}.
#[local] Open Scope num_scope.

Lemma cosineLoop_zip (pre a b : list T) dot na nb :
  length a = length b ->
  cosineLoop a (pre ++ b) (length pre) dot na nb = zipLoop a b dot na nb.
Proof.
  revert pre b dot na nb.
  induction a as [|x a IH]; intros pre [|y b] dot na nb Hlen;
    try discriminate; [reflexivity|].
  cbn [cosineLoop zipLoop]. rewrite nth_middle.
  replace (pre ++ y :: b) with ((pre ++ [y]) ++ b) by now rewrite <- app_assoc.
  replace (S (length pre)) with (length (pre ++ [y]))
    by (rewrite length_app; simpl; lia).
  apply IH. now injection Hlen.
Qed.

Lemma cosineLoop_zip0 (a b : list T) dot na nb :
  length a = length b -> cosineLoop a b 0 dot na nb = zipLoop a b dot na nb.
Proof. apply (cosineLoop_zip [] a b). Qed.

Hypothesis mul_comm : forall x y : T, x * y = y * x.

Lemma zipLoop_swap (a b : list T) dot na nb :
  length a = length b ->
  zipLoop b a dot nb na =
    let '(d, x, y) := zipLoop a b dot na nb in (d, y, x).
Proof.
  revert b dot na nb.
  induction a as [|x a IH]; intros [|y b] dot na nb Hlen;
    try discriminate; [reflexivity|].
  cbn [zipLoop]. rewrite (mul_comm y x). apply IH. now injection Hlen.
Qed.

Lemma Prev_cosine_sym (a b : list T) :
  length a = length b -> Prev.cosine a b = Prev.cosine b a.
Proof.
  intros Hlen. unfold Prev.cosine.
  rewrite !cosineLoop_zip0 by congruence. rewrite (zipLoop_swap a b) by exact Hlen.
  destruct (zipLoop a b (ofNat 0) (ofNat 0) (ofNat 0)) as [[d x] y].
  now rewrite (orb_comm (isZero y)), (mul_comm (Math_sqrt y)).
Qed.

Lemma Cur_cosine_sym (a b : list T) :
  length a = length b -> Cur.cosine a b = Cur.cosine b a.
Proof.
  intros Hlen. unfold Cur.cosine.
  rewrite !cosineLoop_zip0 by congruence. rewrite (zipLoop_swap a b) by exact Hlen.
  destruct (zipLoop a b (ofNat 0) (ofNat 0) (ofNat 0)) as [[d x] y].
  now rewrite (orb_comm (falsy y)), (mul_comm (Math_sqrt y)).
Qed.

(** A second array of zeros leaves the third accumulator at zero. *)
Hypothesis isZero_falsy : forall x : T, isZero x = true -> falsy x = true.
Hypothesis zero_isZero : isZero (ofNat 0 : T) = true.
Hypothesis add_zero_sq :
  forall y : T, isZero y = true -> ofNat 0 + y * y = ofNat 0.

Lemma zipLoop_zeros (a b : list T) dot na :
  Forall (fun y => isZero y = true) b ->
  snd (zipLoop a b dot na (ofNat 0)) = ofNat 0.
Proof.
  revert b dot na. induction a as [|x a IH]; intros [|y b] dot na Hb;
    try reflexivity.
  cbn [zipLoop]. inversion Hb; subst. rewrite add_zero_sq by assumption.
  now apply IH.
Qed.

Lemma cosine_zeros (a b : list T) :
  length a = length b -> Forall (fun y => isZero y = true) b ->
  Prev.cosine a b = ofNat 0 /\ Prev.cosine b a = ofNat 0 /\
  Cur.cosine a b = ofNat 0 /\ Cur.cosine b a = ofNat 0.
Proof.
  intros Hlen Hb.
  assert (HP : Prev.cosine a b = ofNat 0).
  { unfold Prev.cosine. rewrite cosineLoop_zip0 by exact Hlen.
    pose proof (zipLoop_zeros a b (ofNat 0) (ofNat 0) Hb) as Hz.
    destruct (zipLoop a b (ofNat 0) (ofNat 0) (ofNat 0)) as [[d x] y].
    simpl in Hz. subst y. now rewrite zero_isZero, orb_true_r. }
  assert (HC : Cur.cosine a b = ofNat 0).
  { unfold Cur.cosine. rewrite cosineLoop_zip0 by exact Hlen.
    pose proof (zipLoop_zeros a b (ofNat 0) (ofNat 0) Hb) as Hz.
    destruct (zipLoop a b (ofNat 0) (ofNat 0) (ofNat 0)) as [[d x] y].
    simpl in Hz. subst y.
    now rewrite (isZero_falsy _ zero_isZero), orb_true_r. }
  rewrite <- (Prev_cosine_sym a b), <- (Cur_cosine_sym a b) by exact Hlen.
  auto.
Qed.
End CosineFacts.

(** *** Doubles *)

Lemma double_mul_comm (x y : float) : mul x y = mul y x.
Proof.
  apply Prim2SF_inj. cbn [mul double_Number]. rewrite !mul_spec.
  unfold SF64mul, SFmul.
  destruct (Prim2SF x) as [sx|sx| |sx mx ex], (Prim2SF y) as [sy|sy| |sy my ey];
    try reflexivity; rewrite ?(Bool.xorb_comm sx sy); try reflexivity.
  now rewrite (Pos.mul_comm mx my), (Z.add_comm ex ey).
Qed.

Lemma double_isZero_inv (x : float) :
  isZero x = true -> x = 0%float \/ x = (-0)%float.
Proof.
  cbn [isZero double_Number]. rewrite FloatAxioms.eqb_spec. intros Hx.
  destruct (Prim2SF x) as [s|s| |s m e] eqn:E; try destruct s;
    vm_compute in Hx; try discriminate.
  - right. apply Prim2SF_inj. rewrite E. reflexivity.
  - left. apply Prim2SF_inj. rewrite E. reflexivity.
Qed.

Lemma double_add_zero_sq (y : float) :
  isZero y = true -> add (ofNat 0) (mul y y) = ofNat 0.
Proof. intros Hy. destruct (double_isZero_inv y Hy) as [-> | ->]; reflexivity. Qed.

Lemma double_isZero_falsy (x : float) : isZero x = true -> falsy x = true.
Proof. cbn [isZero falsy double_Number]. now intros ->. Qed.

(** *** Reals *)

Lemma Reqb0_true (x : R) : Reqb0 x = true <-> x = 0%R.
Proof. unfold Reqb0. destruct (Req_dec_T x 0); split; congruence. Qed.

Lemma Reqb0_false (x : R) : Reqb0 x = false <-> x <> 0%R.
Proof. unfold Reqb0. destruct (Req_dec_T x 0); split; congruence. Qed.

Lemma Rgtb_true (x y : R) : Rgtb x y = true <-> (y < x)%R.
Proof. unfold Rgtb. destruct (Rlt_dec y x); split; congruence. Qed.

Lemma Rgtb_false (x y : R) : Rgtb x y = false <-> (x <= y)%R.
Proof. unfold Rgtb. destruct (Rlt_dec y x); split; try congruence; lra. Qed.

Lemma real_mul_comm (x y : R) : mul x y = mul y x.
Proof. apply Rmult_comm. Qed.

Lemma real_add_zero_sq (y : R) :
  isZero y = true -> add (ofNat 0) (mul y y) = (ofNat 0 : R).
Proof. cbn. rewrite Reqb0_true. intros ->. lra. Qed.

(** Over the reals the three accumulators of [cosine(v, v)] are the same sum
    of squares, which is positive as soon as one entry is not zero. *)
Lemma real_zipLoop_self (v : list R) (s : R) :
  exists s', zipLoop v v s s s = (s', s', s') /\ (s <= s')%R /\
             (Exists (fun x => x <> 0%R) v -> (s < s')%R).
Proof.
  revert s. induction v as [|x v IH]; intros s.
  - exists s. repeat split; [lra|]. intros Hx. inversion Hx.
  - cbn [zipLoop]. destruct (IH (s + x * x)%R) as (s' & E & Hle & Hlt).
    exists s'. cbn [add mul real_Number]. rewrite E.
    pose proof (Rle_0_sqr x) as Hsq. unfold Rsqr in Hsq.
    repeat split; [lra|]. intros Hx.
    apply Exists_cons in Hx. destruct Hx as [Hx|Hx]; [|specialize (Hlt Hx); lra].
    assert (0 < x * x)%R by (apply Rsqr_pos_lt in Hx; exact Hx). lra.
Qed.

Lemma real_cosine_self (v : list R) :
  Exists (fun x => x <> 0%R) v -> Prev.cosine v v = 1%R /\ Cur.cosine v v = 1%R.
Proof.
  intros Hv. unfold Prev.cosine, Cur.cosine.
  rewrite !cosineLoop_zip0 by reflexivity.
  destruct (real_zipLoop_self v (ofNat 0)) as (s & -> & _ & Hs).
  specialize (Hs Hv). cbn in Hs |- *.
  assert (Hne : Reqb0 s = false) by (apply Reqb0_false; lra).
  rewrite Hne. cbn. rewrite sqrt_sqrt by lra. split; field; lra.
Qed.

(** For [cosine(v, v)] the three accumulators are one and the same sum, in
    any arithmetic. *)
Lemma zipLoop_self {T} `{Number T} (v : list T) (s : T) :
  zipLoop v v s s s =
    (fold_left (fun s x => add s (mul x x)) v s,
     fold_left (fun s x => add s (mul x x)) v s,
     fold_left (fun s x => add s (mul x x)) v s).
Proof.
  revert s. induction v as [|x v IH]; intros s; [reflexivity|].
  cbn [zipLoop fold_left]. apply IH.
Qed.

Lemma cosine_self_norm {T} `{Number T} (v : list T) :
  Prev.cosine v v =
    (if isZero (squaredNorm v) then ofNat 0
     else div (squaredNorm v) (mul (Math_sqrt (squaredNorm v)) (Math_sqrt (squaredNorm v))))
  /\ Cur.cosine v v =
    (if falsy (squaredNorm v) then ofNat 0
     else div (squaredNorm v) (mul (Math_sqrt (squaredNorm v)) (Math_sqrt (squaredNorm v)))).
Proof.
  unfold Prev.cosine, Cur.cosine. rewrite !cosineLoop_zip0 by reflexivity.
  rewrite zipLoop_self. fold (squaredNorm v).
  now rewrite !orb_diag.
Qed.

(** C7 (counterexample). In double arithmetic [cosine(v, v)] is not 1 for
    every non-zero [v], and not always close to 1: for [v = [1, 1]] both
    files return 0.9999999999999998 (the product of the two square roots of
    2 is rounded); for [v = [1e200, 1e200]] the squared norm overflows to
    Infinity and both return NaN; for [v = [1e-200]] the squared norm
    underflows to 0 and both return 0. *)
Lemma cosine_self_rounding :
  (Prev.cosine [1; 1]%float [1; 1]%float = 0.99999999999999978%float /\
   Cur.cosine [1; 1]%float [1; 1]%float = 0.99999999999999978%float /\
   PrimFloat.eqb 0.99999999999999978%float 1%float = false) /\
  (squaredNorm [1e200; 1e200]%float = infinity /\
   PrimFloat.is_nan (Prev.cosine [1e200; 1e200]%float [1e200; 1e200]%float) = true /\
   PrimFloat.is_nan (Cur.cosine [1e200; 1e200]%float [1e200; 1e200]%float) = true) /\
  (isZero 1e-200%float = false /\
   squaredNorm [1e-200]%float = 0%float /\
   Prev.cosine [1e-200]%float [1e-200]%float = 0%float /\
   Cur.cosine [1e-200]%float [1e-200]%float = 0%float).
Proof. repeat split; vm_compute; reflexivity. Qed.

(** C7 (amended). For arrays of equal length, in double arithmetic and in
    exact arithmetic alike, both versions of [cosine] are symmetric and
    return 0 when either argument consists of zeros.  [cosine(v, v) = 1]
    for every [v] with a non-zero entry holds in exact arithmetic.  In
    double arithmetic [cosine(v, v)] is [s / (sqrt(s) * sqrt(s))] for the
    squared norm [s] that the loop accumulates, and 0 when [s] is zero (in
    the second file also when [s] is NaN), which need not be 1. *)
Theorem cosine_laws :
  (forall a b : list float, length a = length b ->
     Prev.cosine a b = Prev.cosine b a /\ Cur.cosine a b = Cur.cosine b a) /\
  (forall a b : list float,
     length a = length b -> Forall (fun y => isZero y = true) b ->
     Prev.cosine a b = 0%float /\ Prev.cosine b a = 0%float /\
     Cur.cosine a b = 0%float /\ Cur.cosine b a = 0%float) /\
  (forall a b : list R, length a = length b ->
     Prev.cosine a b = Prev.cosine b a /\ Cur.cosine a b = Cur.cosine b a) /\
  (forall a b : list R,
     length a = length b -> Forall (fun y => y = 0%R) b ->
     Prev.cosine a b = 0%R /\ Prev.cosine b a = 0%R /\
     Cur.cosine a b = 0%R /\ Cur.cosine b a = 0%R) /\
  (forall v : list R, Exists (fun x => x <> 0%R) v ->
     Prev.cosine v v = 1%R /\ Cur.cosine v v = 1%R) /\
  (forall v : list float,
     let s := squaredNorm v in
     Prev.cosine v v =
       (if PrimFloat.eqb s 0 then 0 else s / (PrimFloat.sqrt s * PrimFloat.sqrt s))%float /\
     Cur.cosine v v =
       (if (PrimFloat.eqb s 0 || PrimFloat.is_nan s)%bool then 0
        else s / (PrimFloat.sqrt s * PrimFloat.sqrt s))%float).
Proof.
  split; [|split; [|split; [|split; [|split]]]].
  - intros a b Hlen. split.
    + now apply (Prev_cosine_sym double_mul_comm).
    + now apply (Cur_cosine_sym double_mul_comm).
  - intros a b Hlen Hb.
    apply (cosine_zeros double_mul_comm double_isZero_falsy eq_refl
             double_add_zero_sq a b Hlen Hb).
  - intros a b Hlen. split.
    + now apply (Prev_cosine_sym real_mul_comm).
    + now apply (Cur_cosine_sym real_mul_comm).
  - intros a b Hlen Hb.
    assert (Hz : isZero (ofNat 0 : R) = true) by (cbn; now apply Reqb0_true).
    apply (cosine_zeros real_mul_comm (fun x Hx => Hx) Hz real_add_zero_sq a b Hlen).
    eapply List.Forall_impl; [|exact Hb]. intros y ->. exact Hz.
  - apply real_cosine_self.
  - intros v. pose proof (cosine_self_norm v) as Hn.
    change (ofNat 0 : float) with 0%float in Hn. exact Hn.
Qed.

(** The laws at concrete arrays. *)
Lemma cosine_laws_witness :
  (Prev.cosine [3; 4]%float [1; 2]%float = Prev.cosine [1; 2]%float [3; 4]%float) /\
  (Cur.cosine [3; 4]%float [0; -0]%float = 0%float) /\
  (Prev.cosine [3; 4]%R [1; 2]%R = Prev.cosine [1; 2]%R [3; 4]%R) /\
  (Cur.cosine [3; 4]%R [0; 0]%R = 0%R) /\
  (Prev.cosine [1; 1]%R [1; 1]%R = 1%R).
Proof.
  destruct cosine_laws as (Hsym & Hzero & HsymR & HzeroR & Hself & _).
  split; [|split; [|split; [|split]]].
  - apply (Hsym [3; 4]%float [1; 2]%float). reflexivity.
  - apply (Hzero [3; 4]%float [0; -0]%float); [reflexivity|].
    repeat constructor.
  - apply (HsymR [3; 4]%R [1; 2]%R). reflexivity.
  - apply (HzeroR [3; 4]%R [0; 0]%R); [reflexivity|]. repeat constructor.
  - apply (Hself [1; 1]%R). constructor. lra.
Defined.

(** ** The lexical score of one term *)

(** Decimal literals over the reals as fractions, for [field] and [nra]. *)
Ltac decimals := unfold Q2R in *; cbn [QArith_base.Qnum QArith_base.Qden] in *.

Lemma addTerm_real (P : R -> R -> R) (g : Globals R) (tf : gmap jsstring nat)
    (sparse : R) (t : jsstring) :
  P = PrevRetrieval.termProduct \/ P = CurRetrieval.termProduct ->
  addTerm P g tf sparse t =
    (sparse + contribution (orZero (VOCAB_IDF g !! t)) (default 0%nat (tf !! t)))%R.
Proof.
  intros [-> | ->]; unfold addTerm, contribution, PrevRetrieval.termProduct,
    CurRetrieval.termProduct; cbn; f_equal; f_equal; ring.
Qed.

Lemma orZero_pos (idf : R) : (0 < idf)%R -> orZero (Some idf) = idf.
Proof.
  intros Hidf. unfold orZero. cbn.
  replace (Reqb0 idf) with false; [reflexivity|].
  symmetry. apply Reqb0_false. lra.
Qed.

Lemma contribution_zero (idf : R) : contribution idf 0 = 0%R.
Proof. unfold contribution. cbn [INR]. decimals. field; lra. Qed.

Lemma contribution_diff (idf : R) (f1 f2 : nat) :
  (contribution idf f2 - contribution idf f1 =
   idf * 1.5 * (INR f2 - INR f1) / ((1.25 + INR f1) * (1.25 + INR f2)))%R.
Proof.
  unfold contribution.
  pose proof (pos_INR f1). pose proof (pos_INR f2). decimals. field; lra.
Qed.

Lemma contribution_mono (idf : R) (f1 f2 : nat) :
  (0 < idf)%R -> f1 <= f2 -> (contribution idf f1 <= contribution idf f2)%R.
Proof.
  intros Hidf Hle.
  pose proof (pos_INR f1). pose proof (pos_INR f2).
  pose proof (le_INR _ _ Hle).
  enough (0 <= contribution idf f2 - contribution idf f1)%R by lra.
  rewrite contribution_diff. unfold Rdiv. decimals.
  apply Rmult_le_pos; [nra|]. left. apply Rinv_0_lt_compat. nra.
Qed.

Lemma contribution_saturates (idf : R) (f : nat) :
  (0 < idf)%R ->
  (contribution idf (S (S f)) - contribution idf (S f)
   < contribution idf (S f) - contribution idf f)%R.
Proof.
  intros Hidf. rewrite !contribution_diff. rewrite !S_INR.
  pose proof (pos_INR f) as Hf. set (x := INR f) in *.
  replace (idf * 1.5 * (x + 1 + 1 - (x + 1)) / ((1.25 + (x + 1)) * (1.25 + (x + 1 + 1))))%R
    with (idf * 1.5 / ((2.25 + x) * (3.25 + x)))%R by (decimals; field; lra).
  replace (idf * 1.5 * (x + 1 - x) / ((1.25 + x) * (1.25 + (x + 1))))%R
    with (idf * 1.5 / ((1.25 + x) * (2.25 + x)))%R by (decimals; field; lra).
  decimals. unfold Rdiv. apply Rmult_lt_compat_l; [nra|].
  apply Rinv_lt_contravar; nra.
Qed.

Lemma sparseOf_no_terms (P : R -> R -> R) (g : Globals R) (terms : list jsstring)
    (d : Chunk R) :
  P = PrevRetrieval.termProduct \/ P = CurRetrieval.termProduct ->
  (forall tf, CHUNK_TF g !! id d = Some tf -> forall u, u ∈ terms -> tf !! u = None) ->
  sparseOf P g terms d = 0%R.
Proof.
  intros HP Hnone. unfold sparseOf.
  destruct (CHUNK_TF g !! id d) as [tf|]; [|reflexivity].
  specialize (Hnone tf eq_refl). change (ofNat 0 : R) with 0%R.
  generalize 0%R. induction terms as [|u terms IH]; intros s; [reflexivity|].
  cbn [fold_left]. rewrite addTerm_real by exact HP.
  rewrite (Hnone u) by (left). cbn [default from_option]. rewrite contribution_zero.
  rewrite Rplus_0_r. apply IH.
  intros v Hv. apply Hnone. now right.
Qed.

(** C6. Over the reals, for a term [t] whose weight [idf] in [VOCAB_IDF] is
    positive, and for either file's way of writing the product: the
    contribution that [addTerm] adds to the running sum is 0 when the chunk's
    table has no (or a zero) count for [t]; it does not decrease when the
    count grows; its increase from [f + 1] to [f + 2] occurrences is strictly
    smaller than its increase from [f] to [f + 1]; and a chunk whose table has
    none of the query's terms gets the sparse score 0. *)
Theorem lexical_contribution (P : R -> R -> R) (g : Globals R) (t : jsstring) (idf : R) :
  P = PrevRetrieval.termProduct \/ P = CurRetrieval.termProduct ->
  VOCAB_IDF g !! t = Some idf -> (0 < idf)%R ->
  (forall tf sparse, default 0 (tf !! t) = 0 -> addTerm P g tf sparse t = sparse) /\
  (forall tf1 tf2 sparse,
     default 0 (tf1 !! t) <= default 0 (tf2 !! t) ->
     (addTerm P g tf1 sparse t <= addTerm P g tf2 sparse t)%R) /\
  (forall tf0 tf1 tf2 sparse f,
     default 0 (tf0 !! t) = f -> tf1 !! t = Some (S f) -> tf2 !! t = Some (S (S f)) ->
     (addTerm P g tf2 sparse t - addTerm P g tf1 sparse t
      < addTerm P g tf1 sparse t - addTerm P g tf0 sparse t)%R) /\
  (forall terms d,
     (forall tf, CHUNK_TF g !! id d = Some tf -> forall u, u ∈ terms -> tf !! u = None) ->
     sparseOf P g terms d = 0%R).
Proof.
  intros HP Hidf Hpos. repeat split.
  - intros tf sparse Hf. rewrite addTerm_real by exact HP.
    rewrite Hf, contribution_zero. lra.
  - intros tf1 tf2 sparse Hle. rewrite !addTerm_real by exact HP.
    rewrite Hidf, orZero_pos by exact Hpos.
    apply Rplus_le_compat_l. now apply contribution_mono.
  - intros tf0 tf1 tf2 sparse f H0 H1 H2. rewrite !addTerm_real by exact HP.
    rewrite Hidf, orZero_pos by exact Hpos. rewrite H0, H1, H2.
    cbn [default from_option Datatypes.id].
    pose proof (contribution_saturates idf f Hpos) as Hsat.
    set (c0 := contribution idf f) in *.
    set (c1 := contribution idf (S f)) in *.
    set (c2 := contribution idf (S (S f))) in *. lra.
  - intros terms d. now apply sparseOf_no_terms.
Qed.

(** The term "video" with weight 1. *)
Lemma lexical_contribution_witness :
  let g := mkGlobals [] {[ lit "video" := 1%R ]} ∅ in
  let t := lit "video" in
  let P := PrevRetrieval.termProduct in
  (forall tf sparse, default 0 (tf !! t) = 0 -> addTerm P g tf sparse t = sparse) /\
  (forall tf1 tf2 sparse,
     default 0 (tf1 !! t) <= default 0 (tf2 !! t) ->
     (addTerm P g tf1 sparse t <= addTerm P g tf2 sparse t)%R) /\
  (forall tf0 tf1 tf2 sparse f,
     default 0 (tf0 !! t) = f -> tf1 !! t = Some (S f) -> tf2 !! t = Some (S (S f)) ->
     (addTerm P g tf2 sparse t - addTerm P g tf1 sparse t
      < addTerm P g tf1 sparse t - addTerm P g tf0 sparse t)%R) /\
  (forall terms d,
     (forall tf, CHUNK_TF g !! id d = Some tf -> forall u, u ∈ terms -> tf !! u = None) ->
     sparseOf P g terms d = 0%R).
Proof.
  apply (lexical_contribution PrevRetrieval.termProduct
           (mkGlobals [] {[ lit "video" := 1%R ]} ∅) (lit "video") 1%R).
  - left. reflexivity.
  - apply lookup_singleton_eq.
  - lra.
Defined.

(** ** unique *)

Section Unique.
Context {A : Type} `{EqDecision A}.

Lemma unique_fold_elem (arr acc : list A) (x : A) :
  x ∈ fold_left uniqueStep arr acc <-> x ∈ acc \/ x ∈ arr.
Proof.
  revert acc. induction arr as [|y arr IH]; intros acc; cbn [fold_left].
  - rewrite elem_of_nil. tauto.
  - rewrite IH. unfold uniqueStep. rewrite elem_of_cons.
    case_bool_decide as Hy.
    + split; [tauto|]. intros [?|[->|?]]; auto.
    + rewrite elem_of_app, list_elem_of_singleton. tauto.
Qed.

Lemma unique_fold_NoDup (arr acc : list A) :
  NoDup acc -> NoDup (fold_left uniqueStep arr acc).
Proof.
  revert acc. induction arr as [|y arr IH]; intros acc Hacc; cbn [fold_left].
  - exact Hacc.
  - apply IH. unfold uniqueStep. case_bool_decide as Hy; [exact Hacc|].
    apply NoDup_app. split; [exact Hacc|]. split.
    + intros x Hx Hx'. apply list_elem_of_singleton in Hx'. now subst.
    + apply NoDup_singleton.
Qed.

Lemma unique_elem (arr : list A) (x : A) : x ∈ unique arr <-> x ∈ arr.
Proof.
  unfold unique. change (x ∈ fold_left uniqueStep arr [] <-> x ∈ arr).
  rewrite unique_fold_elem, elem_of_nil. tauto.
Qed.

Lemma unique_NoDup (arr : list A) : NoDup (unique arr).
Proof. apply (unique_fold_NoDup arr []). constructor. Qed.
End Unique.

(** ** The sparse index *)

Lemma termCount_pos (t text : jsstring) : 1 <= termCount t text.
Proof.
  unfold termCount. destruct (Nat.eqb_spec (countMatches (termPattern t) 0 None text) 0); lia.
Qed.

Lemma termFreqs_fold_lookup (text : jsstring) (terms : list jsstring)
    (tf : gmap jsstring nat) (t : jsstring) :
  fold_left (fun tf t => <[t := termCount t text]> tf) terms tf !! t =
    if bool_decide (t ∈ terms) then Some (termCount t text) else tf !! t.
Proof.
  revert tf. induction terms as [|u terms IH]; intros tf; cbn [fold_left].
  - reflexivity.
  - rewrite IH. case_bool_decide as Ht.
    + rewrite bool_decide_eq_true_2 by (now right). reflexivity.
    + case_bool_decide as Hu.
      * apply elem_of_cons in Hu. destruct Hu as [->|Hu]; [|contradiction].
        apply lookup_insert_eq.
      * rewrite lookup_insert_ne; [reflexivity|].
        intros ->. apply Hu. now left.
Qed.

Lemma termFreqs_lookup (text : jsstring) (terms : list jsstring) (t : jsstring) :
  termFreqs text terms !! t =
    if bool_decide (t ∈ terms) then Some (termCount t text) else None.
Proof. unfold termFreqs. now rewrite termFreqs_fold_lookup, lookup_empty. Qed.

Lemma countTerms_lookup (terms : list jsstring) (df : gmap jsstring nat) (t : jsstring) :
  NoDup terms ->
  countTerms terms df !! t =
    if bool_decide (t ∈ terms) then Some (default 0 (df !! t) + 1) else df !! t.
Proof.
  unfold countTerms. revert df.
  induction terms as [|u terms IH]; intros df Hnd; cbn [fold_left].
  - reflexivity.
  - apply NoDup_cons in Hnd. destruct Hnd as [Hu Hnd]. rewrite IH by exact Hnd.
    case_bool_decide as Ht.
    + rewrite bool_decide_eq_true_2 by (now right).
      rewrite lookup_insert_ne; [reflexivity|]. now intros ->.
    + case_bool_decide as Ht'.
      * apply elem_of_cons in Ht'. destruct Ht' as [->|Ht']; [|contradiction].
        apply lookup_insert_eq.
      * rewrite lookup_insert_ne; [reflexivity|].
        intros ->. apply Ht'. now left.
Qed.

Section Index.
Context {T : Type} `{Number T} `{MathLib T} `{Platform}.

Lemma docFreq_le (t : jsstring) (kb : list (Chunk T)) : docFreq t kb <= length kb.
Proof. unfold docFreq. apply List.filter_length_le. Qed.

Lemma indexChunk_fold_df (kb : list (Chunk T)) ctf df (t : jsstring) :
  snd (fold_left indexChunk kb (ctf, df)) !! t =
    match docFreq t kb with
    | O => df !! t
    | S n => Some (default 0 (df !! t) + S n)
    end.
Proof.
  revert ctf df. induction kb as [|d kb IH]; intros ctf df; [reflexivity|].
  cbn [fold_left]. unfold indexChunk at 2. cbn [fst snd]. rewrite IH.
  rewrite countTerms_lookup by apply unique_NoDup.
  unfold docFreq. cbn [List.filter]. unfold hasToken at 2 4.
  destruct (bool_decide (t ∈ tokenize (chunk d))) eqn:E.
  - rewrite bool_decide_eq_true_2
      by (apply unique_elem; now apply bool_decide_eq_true_1 in E).
    cbn [length default from_option Datatypes.id].
    destruct (length (List.filter (hasToken t) kb)); f_equal; lia.
  - rewrite bool_decide_eq_false_2; [reflexivity|].
    rewrite unique_elem. now apply bool_decide_eq_false_1 in E.
Qed.

Lemma indexChunk_fold_tf (kb : list (Chunk T)) (k : nat) ctf df (i : nat) :
  List.map id kb = seq k (length kb) ->
  fst (fold_left indexChunk kb (ctf, df)) !! i =
    if decide (k <= i) then
      match kb !! (i - k) with
      | Some d => Some (tfOf d)
      | None => ctf !! i
      end
    else ctf !! i.
Proof.
  revert k ctf df. induction kb as [|d kb IH]; intros k ctf df Hids.
  - cbn. now destruct (decide (k <= i)).
  - cbn [List.map length seq] in Hids. injection Hids as Hd Hids.
    cbn [fold_left]. unfold indexChunk at 2. cbn [fst snd].
    rewrite (IH (S k)) by exact Hids. rewrite Hd.
    destruct (decide (S k <= i)) as [Hi|Hi].
    + rewrite decide_True by lia.
      replace (i - k) with (S (i - S k)) by lia. cbn [lookup list_lookup].
      destruct (kb !! (i - S k)); [reflexivity|].
      apply lookup_insert_ne. lia.
    + destruct (decide (k <= i)) as [Hk|Hk].
      * assert (i = k) as -> by lia. rewrite Nat.sub_diag. cbn.
        apply lookup_insert_eq.
      * apply lookup_insert_ne. lia.
Qed.

Lemma idf_fold_lookup (N : nat) (df : gmap jsstring nat) (vocab : gmap jsstring T)
    (t : jsstring) :
  map_fold (fun t dfVal vocab => <[t := idfOf N dfVal]> vocab) vocab df !! t =
    match df !! t with
    | Some dfVal => Some (idfOf N dfVal)
    | None => vocab !! t
    end.
Proof.
  apply (map_fold_weak_ind
    (fun r m => r !! t = match m !! t with
                         | Some dfVal => Some (idfOf N dfVal)
                         | None => vocab !! t
                         end)).
  - now rewrite lookup_empty.
  - intros u x m r Hu IH.
    destruct (decide (u = t)) as [->|Hne].
    + now rewrite !lookup_insert_eq.
    + now rewrite !lookup_insert_ne.
Qed.

Lemma sparseIndex_KB (g : Globals T) : KB (sparseIndex g) = KB g.
Proof.
  unfold sparseIndex.
  now destruct (fold_left indexChunk (KB g) (CHUNK_TF g, ∅)).
Qed.

Lemma sparseIndex_Indexed (g : Globals T) :
  List.map id (KB g) = seq 0 (length (KB g)) ->
  CHUNK_TF g = ∅ -> VOCAB_IDF g = ∅ ->
  Indexed (sparseIndex g).
Proof.
  intros Hids Htf Hidf. unfold Indexed, sparseIndex.
  pose proof (indexChunk_fold_tf (KB g) 0 (CHUNK_TF g) ∅) as Hctf.
  pose proof (indexChunk_fold_df (KB g) (CHUNK_TF g) ∅) as Hdf.
  destruct (fold_left indexChunk (KB g) (CHUNK_TF g, ∅)) as [ctf df].
  cbn [fst snd KB CHUNK_TF VOCAB_IDF] in *. split.
  - intros i. rewrite (Hctf i Hids). rewrite decide_True by lia.
    rewrite Nat.sub_0_r, Htf, lookup_empty.
    now destruct (KB g !! i).
  - intros t. rewrite idf_fold_lookup, Hdf, Hidf, !lookup_empty.
    now destruct (docFreq t (KB g)).
Qed.
End Index.

(** ** Invariants of the crawl *)

Section CrawlInvariants.
Context {T : Type} `{Number T} `{MathLib T} `{Platform}.

Lemma tfOf_lookup (kb : list (Chunk T)) (i : nat) :
  tfOf <$> (kb !! i) =
    (fun text => termFreqs text (unique (tokenize text))) <$> (List.map chunk kb !! i).
Proof.
  change (List.map chunk kb) with (chunk <$> kb).
  rewrite list_lookup_fmap. now destruct (kb !! i).
Qed.

Lemma docFreq_texts (t : jsstring) (kb : list (Chunk T)) :
  docFreq t kb =
    length (List.filter (fun text => bool_decide (t ∈ tokenize text)) (List.map chunk kb)).
Proof.
  unfold docFreq. induction kb as [|d kb IH]; [reflexivity|].
  cbn [List.filter List.map]. unfold hasToken at 1.
  destruct (bool_decide (t ∈ tokenize (chunk d))); cbn [length]; now rewrite IH.
Qed.

(** The index only depends on the texts of the chunks. *)
Lemma Indexed_same_texts (kb kb' : list (Chunk T)) vocab ctf :
  List.map chunk kb' = List.map chunk kb ->
  Indexed (mkGlobals kb vocab ctf) -> Indexed (mkGlobals kb' vocab ctf).
Proof.
  intros Htexts [Htf Hidf]. cbn [KB VOCAB_IDF CHUNK_TF] in *.
  assert (Hlen : length kb' = length kb).
  { apply (f_equal (@length _)) in Htexts. now rewrite !length_map in Htexts. }
  split; cbn [KB VOCAB_IDF CHUNK_TF].
  - intros i. now rewrite Htf, !tfOf_lookup, Htexts.
  - intros t. rewrite Hidf, !(docFreq_texts t), Htexts.
    unfold generationSize. now rewrite Hlen.
Qed.

Lemma pushChunks_spec (u : jsstring) (pieces : list jsstring) (kb : list (Chunk T)) (n : nat) :
  pushChunks u pieces (kb, n) =
    (kb ++ imap (fun k c => mkChunk (n + k) u (lit "en") c None) pieces,
     n + length pieces).
Proof.
  unfold pushChunks. revert kb n.
  induction pieces as [|c pieces IH]; intros kb n; cbn [fold_left imap length].
  - now rewrite app_nil_r, Nat.add_0_r.
  - rewrite IH, <- app_assoc. cbn [app]. rewrite Nat.add_0_r. f_equal.
    + f_equal. f_equal. apply imap_ext. intros k x _. cbn. f_equal. lia.
    + lia.
Qed.

Lemma imap_ids (u : jsstring) (pieces : list jsstring) (n : nat) :
  List.map id (imap (fun k c => mkChunk (T:=T) (n + k) u (lit "en") c None) pieces)
    = seq n (length pieces).
Proof.
  revert n. induction pieces as [|c pieces IH]; intros n; [reflexivity|].
  cbn [imap List.map length seq id]. rewrite Nat.add_0_r. f_equal.
  rewrite <- (IH (S n)). f_equal. apply imap_ext. intros k x _. cbn. f_equal. lia.
Qed.

Lemma imap_no_vec (u : jsstring) (pieces : list jsstring) (n : nat) :
  Forall (fun d : Chunk T => vec d = None)
    (imap (fun k c => mkChunk (n + k) u (lit "en") c None) pieces).
Proof.
  revert n. induction pieces as [|c pieces IH]; intros n; constructor.
  - reflexivity.
  - specialize (IH (S n)). erewrite imap_ext; [exact IH|].
    intros k x _. cbn. f_equal. lia.
Qed.

Lemma crawlPage_spec (u : jsstring) (doc : option jsstring) (kb : list (Chunk T)) :
  List.map id kb = seq 0 (length kb) ->
  Forall (fun d => vec d = None) kb ->
  exists kb',
    crawlPage u doc (kb, length kb) = (kb ++ kb', length (kb ++ kb')) /\
    List.map id (kb ++ kb') = seq 0 (length (kb ++ kb')) /\
    Forall (fun d => vec d = None) (kb ++ kb').
Proof.
  intros Hids Hvec.
  assert (Hskip : exists kb',
    (kb, length kb) = (kb ++ kb', length (kb ++ kb')) /\
    List.map id (kb ++ kb') = seq 0 (length (kb ++ kb')) /\
    Forall (fun d => vec d = None) (kb ++ kb')).
  { exists []. now rewrite app_nil_r. }
  destruct doc as [[|c doc]|]; cbn [crawlPage]; try exact Hskip.
  rewrite pushChunks_spec. eexists. split; [|split].
  - f_equal. now rewrite length_app, length_imap.
  - rewrite List.map_app, imap_ids, Hids, length_app, length_imap.
    now rewrite seq_app.
  - apply Forall_app. split; [exact Hvec|apply imap_no_vec].
Qed.

Lemma assignVecs_same (kb : list (Chunk T)) (start i : nat) (data : list (list T)) :
  List.map id (fst (assignVecs kb start i data)) = List.map id kb /\
  List.map chunk (fst (assignVecs kb start i data)) = List.map chunk kb /\
  List.map url (fst (assignVecs kb start i data)) = List.map url kb.
Proof.
  revert kb i. induction data as [|e data IH]; intros kb i; cbn [assignVecs].
  - auto.
  - destruct (kb !! (start + i)) as [d|] eqn:E; [|auto].
    destruct (IH (<[start + i := setVec e d]> kb) (S i)) as (-> & -> & ->).
    change (List.map ?f ?l) with (f <$> l).
    rewrite !list_fmap_insert. cbn [setVec id chunk url].
    repeat split; apply list_insert_id; rewrite list_lookup_fmap, E; reflexivity.
Qed.

Lemma embedLoop_inv (g : Globals T) (start : nat) :
  List.map id (KB g) = seq 0 (length (KB g)) -> Indexed g ->
  CrawlInv (embedLoop g (List.map chunk (KB g)) start).
Proof.
  intros Hids Hidx. unfold embedLoop.
  destruct (Nat.ltb_spec start (length (List.map chunk (KB g)))); split; cbn; auto.
Qed.

Lemma pageLoop_inv (g : Globals T) (urls : list jsstring) :
  List.map id (KB g) = seq 0 (length (KB g)) ->
  VOCAB_IDF g = ∅ -> CHUNK_TF g = ∅ -> Forall (fun d => vec d = None) (KB g) ->
  CrawlInv (pageLoop g urls (length (KB g))).
Proof.
  intros Hids Hidf Htf Hvec. destruct urls as [|u rest]; cbn [pageLoop].
  - apply embedLoop_inv.
    + now rewrite sparseIndex_KB.
    + now apply sparseIndex_Indexed.
  - split; cbn; auto.
Qed.

Lemma crawlResume_inv (st : Globals T * CrawlPC) (r : Response T) :
  CrawlInv st -> CrawlInv (crawlResume st r).
Proof.
  destruct st as [g pc]. intros Hinv. pose proof Hinv as [Hids Hpc].
  cbn [fst snd] in Hids, Hpc.
  destruct pc as [|u rest idCounter|texts start| |], r as [urls|doc|data|];
    cbn [crawlResume]; try exact Hinv.
  - destruct Hpc as (Hkb & Hidf & Htf).
    replace 0 with (length (KB g)) by now rewrite Hkb.
    apply pageLoop_inv; auto. rewrite Hkb. constructor.
  - destruct Hpc as (-> & Hidf & Htf & Hvec).
    destruct (crawlPage_spec u doc (KB g) Hids Hvec) as (kb' & -> & Hids' & Hvec').
    apply (pageLoop_inv (mkGlobals (KB g ++ kb') (VOCAB_IDF g) (CHUNK_TF g))); auto.
  - destruct Hpc as (-> & Hstart & Hidx).
    pose proof (assignVecs_same (KB g) start 0 data) as (Hid' & Hchunk' & _).
    destruct (assignVecs (KB g) start 0 data) as [kb ok]. cbn [fst] in *.
    assert (Hlen : length kb = length (KB g)).
    { apply (f_equal (@length _)) in Hid'. now rewrite !length_map in Hid'. }
    assert (Hidx' : Indexed (mkGlobals kb (VOCAB_IDF g) (CHUNK_TF g))).
    { apply (Indexed_same_texts (KB g)); [exact Hchunk'|]. now destruct g. }
    assert (Hids' : List.map id kb = seq 0 (length kb)) by now rewrite Hid', Hlen.
    destruct ok.
    + rewrite <- Hchunk'.
      apply (embedLoop_inv (mkGlobals kb (VOCAB_IDF g) (CHUNK_TF g))); assumption.
    + split; assumption.
  - destruct Hpc as (_ & _ & Hidx). split; assumption.
Qed.

Lemma crawlRun_inv (g0 : Globals T) (rs : list (Response T)) :
  CrawlInv (crawlRun g0 rs).
Proof.
  unfold crawlRun.
  assert (Hstart : CrawlInv (crawlStart g0)) by (split; cbn; auto).
  revert Hstart. generalize (crawlStart g0).
  induction rs as [|r rs IH]; intros st Hst; cbn [fold_left]; [exact Hst|].
  apply IH. now apply crawlResume_inv.
Qed.
End CrawlInvariants.

(** ** One crawl among suspended ones *)

Section ServerFacts.
Context {T : Type} `{Number T} `{MathLib T} `{Platform}.

Lemma serverRun_app (st : Globals T * list CrawlPC) (evs1 evs2 : list (Event T)) :
  serverRun st (evs1 ++ evs2) = serverRun (serverRun st evs1) evs2.
Proof. apply fold_left_app. Qed.

Lemma serverStep_last (g : Globals T) (older : list CrawlPC) (pc : CrawlPC) (r : Response T) :
  serverStep (g, older ++ [pc]) (Settle (length older) r) =
    (fst (crawlResume (g, pc) r), older ++ [snd (crawlResume (g, pc) r)]).
Proof.
  cbn [serverStep]. rewrite list_lookup_middle by reflexivity.
  destruct (crawlResume (g, pc) r) as [g' pc']. cbn [fst snd]. f_equal.
  replace (length older) with (length older + 0) by lia.
  now rewrite insert_app_r.
Qed.

Lemma serverRun_last (rs : list (Response T)) (g : Globals T) (older : list CrawlPC)
    (pc : CrawlPC) :
  serverRun (g, older ++ [pc]) (List.map (Settle (length older)) rs) =
    (fst (fold_left crawlResume rs (g, pc)), older ++ [snd (fold_left crawlResume rs (g, pc))]).
Proof.
  revert g pc. induction rs as [|r rs IH]; intros g pc; [reflexivity|].
  unfold serverRun in *. cbn [List.map fold_left]. rewrite serverStep_last.
  rewrite IH. now destruct (crawlResume (g, pc) r).
Qed.

(** A crawl that runs alone is a run of the crawl machine, whatever the
    suspended activations are. *)
Lemma serverRun_alone (g0 : Globals T) (older : list CrawlPC) (rs : list (Response T)) :
  serverRun (g0, older) (alone older rs) =
    (fst (crawlRun g0 rs), older ++ [snd (crawlRun g0 rs)]).
Proof.
  unfold alone, crawlRun. change (serverRun ?st (?e :: ?evs))
    with (serverRun (serverStep st e) evs).
  cbn [serverStep crawlStart]. apply serverRun_last.
Qed.
End ServerFacts.

(** C9. In every state a crawl reaches, the identifiers of the chunks are
    [0, 1, 2, ...] in the order of the knowledge base (so increasing and
    without repetition); once the sparse index is built, [CHUNK_TF] has an
    entry for [i] exactly when [i] is the identifier of a chunk, the entry
    under a chunk's identifier is the table made from that chunk's text, its
    keys are exactly the tokens of the text, and every count is at least
    1. *)
Theorem crawl_chunk_identifiers {T : Type} `{Number T} `{MathLib T} `{Platform}
    (g0 : Globals T) (rs : list (Response T)) :
  let g := fst (crawlRun g0 rs) in
  List.map id (KB g) = seq 0 (length (KB g)) /\
  NoDup (List.map id (KB g)) /\
  (indexedPC (snd (crawlRun g0 rs)) ->
   (forall i, is_Some (CHUNK_TF g !! i) <-> i < length (KB g)) /\
   (forall d, d ∈ KB g ->
      exists tf, CHUNK_TF g !! id d = Some tf /\
        (forall t, is_Some (tf !! t) <-> t ∈ tokenize (chunk d)) /\
        (forall t, t ∈ tokenize (chunk d) -> exists n, tf !! t = Some n /\ 1 <= n))).
Proof.
  cbn zeta. pose proof (crawlRun_inv g0 rs) as [Hids Hpc].
  destruct (crawlRun g0 rs) as [g pc]. cbn [fst snd] in *.
  split; [exact Hids|]. split; [rewrite Hids; apply NoDup_seq|].
  intros Hindexed.
  assert (Hidx : Indexed g) by (destruct pc; try contradiction; tauto).
  destruct Hidx as [Htf _]. split.
  - intros i. rewrite Htf, fmap_is_Some. apply lookup_lt_is_Some.
  - intros d Hd. apply list_elem_of_lookup in Hd. destruct Hd as [i Hi].
    assert (Hid : id d = i).
    { assert (Hl : List.map id (KB g) !! i = Some (id d)).
      { change (List.map id (KB g)) with (id <$> KB g).
        now rewrite list_lookup_fmap, Hi. }
      rewrite Hids in Hl. apply lookup_seq in Hl. lia. }
    exists (tfOf d). rewrite Hid, Htf, Hi. split; [reflexivity|]. split.
    + intros t. unfold tfOf. rewrite termFreqs_lookup.
      case_bool_decide as Ht; rewrite unique_elem in Ht.
      * split; [tauto|]. intros _. eauto.
      * split; [intros [? ?]; discriminate | tauto].
    + intros t Ht. exists (termCount t (chunk d)). split; [|apply termCount_pos].
      unfold tfOf. rewrite termFreqs_lookup.
      now rewrite bool_decide_eq_true_2 by now apply unique_elem.
Qed.

(** *** Inverse document frequency, over the reals *)

Lemma Rlt_1_div (a b : R) : (0 < b)%R -> (b < a)%R -> (1 < a / b)%R.
Proof.
  intros Hb Hab. apply Rmult_lt_reg_r with (r := b); [exact Hb|].
  unfold Rdiv. rewrite Rmult_assoc, Rinv_l by lra. lra.
Qed.

Lemma idf_positive (N df : nat) :
  df <= N -> (0 < ln ((INR N + 1) / (INR df + 0.5)))%R.
Proof.
  intros Hle. rewrite <- ln_1.
  pose proof (pos_INR df) as Hdf. pose proof (le_INR _ _ Hle) as HN.
  apply ln_increasing; [lra|]. apply Rlt_1_div; decimals; lra.
Qed.

(** C4. Over the reals, once a crawl has built its sparse index over
    [N >= 1] chunks: a term [t] that is a token of [df >= 1] chunks has the
    entry [ln((N + 1) / (df + 0.5))] in [VOCAB_IDF]; in particular a token of
    every chunk has [ln((N + 1) / (N + 0.5))], which is positive (as is every
    entry); and a term that is a token of no chunk has no entry. *)
Theorem idf_table `{Platform} (g0 : Globals R) (rs : list (Response R)) (t : jsstring) :
  let g := fst (crawlRun g0 rs) in
  let N := length (KB g) in
  let df := docFreq t (KB g) in
  indexedPC (snd (crawlRun g0 rs)) -> 1 <= N ->
  (1 <= df -> VOCAB_IDF g !! t = Some (ln ((INR N + 1) / (INR df + 0.5)))) /\
  (df = N ->
     VOCAB_IDF g !! t = Some (ln ((INR N + 1) / (INR N + 0.5))) /\
     (0 < ln ((INR N + 1) / (INR N + 0.5)))%R) /\
  (df = 0 -> VOCAB_IDF g !! t = None) /\
  (forall v, VOCAB_IDF g !! t = Some v -> (0 < v)%R).
Proof.
  cbn zeta. pose proof (crawlRun_inv g0 rs) as [Hids Hpc].
  destruct (crawlRun g0 rs) as [g pc]. cbn [fst snd] in *.
  intros Hindexed HN.
  assert (Hidx : Indexed g) by (destruct pc; try contradiction; tauto).
  destruct Hidx as [_ Hidf]. specialize (Hidf t).
  assert (Hsize : generationSize (KB g) = length (KB g)).
  { unfold generationSize. destruct (Nat.eqb_spec (length (KB g)) 0); [lia|reflexivity]. }
  rewrite Hsize in Hidf. pose proof (docFreq_le t (KB g)) as Hle.
  assert (Hsome : 1 <= docFreq t (KB g) ->
    VOCAB_IDF g !! t =
      Some (ln ((INR (length (KB g)) + 1) / (INR (docFreq t (KB g)) + 0.5)))).
  { intros Hdf. rewrite Hidf. destruct (docFreq t (KB g)); [lia|reflexivity]. }
  split; [exact Hsome|]. split; [|split].
  - intros Hall. split.
    + rewrite Hsome by lia. now rewrite Hall.
    + now apply idf_positive.
  - intros Hz. rewrite Hidf. now rewrite Hz.
  - intros v Hv. rewrite Hidf in Hv.
    destruct (docFreq t (KB g)) as [|n] eqn:E; [discriminate|].
    injection Hv as <-. apply (idf_positive (length (KB g)) (S n)). lia.
Qed.

Lemma crawl_chunk_identifiers_witness :
  let g := fst (crawlRun noGlobals demoCrawl) in
  (forall i, is_Some (CHUNK_TF g !! i) <-> i < length (KB g)) /\
  (forall d, d ∈ KB g ->
     exists tf, CHUNK_TF g !! id d = Some tf /\
       (forall t, is_Some (tf !! t) <-> t ∈ tokenize (chunk d)) /\
       (forall t, t ∈ tokenize (chunk d) -> exists n, tf !! t = Some n /\ 1 <= n)).
Proof.
  apply (crawl_chunk_identifiers noGlobals demoCrawl). exact I.
Defined.

Lemma idf_table_witness :
  let g := fst (crawlRun noGlobals demoCrawl) in
  let N := length (KB g) in
  let df := docFreq (lit "video") (KB g) in
  (1 <= df -> VOCAB_IDF g !! lit "video" = Some (ln ((INR N + 1) / (INR df + 0.5)))) /\
  (df = N ->
     VOCAB_IDF g !! lit "video" = Some (ln ((INR N + 1) / (INR N + 0.5))) /\
     (0 < ln ((INR N + 1) / (INR N + 0.5)))%R) /\
  (df = 0 -> VOCAB_IDF g !! lit "video" = None) /\
  (forall v, VOCAB_IDF g !! lit "video" = Some v -> (0 < v)%R).
Proof.
  apply (idf_table noGlobals demoCrawl (lit "video")).
  - exact I.
  - apply Nat.le_refl.
Defined.

(** ** Scoring and ranking, over the reals *)

Section Ranking.
Context `{Platform}.
Variable cos : list R -> list R -> R.
Variable P : R -> R -> R.

Lemma scoreAll_spec (g : Globals R) (qv : list R) (terms : list jsstring) :
  scoreAll cos P g qv terms =
    List.map (fun d => (d, scoreOf cos P g qv terms d))
      (List.filter (positiveScore cos P g qv terms) (KB g)).
Proof.
  unfold scoreAll.
  enough (Hgen : forall kb acc,
    fold_left (fun scored d =>
        let score := scoreOf cos P g qv terms d in
        if gt score (ofNat 0) then scored ++ [(d, score)] else scored) kb acc
    = acc ++ List.map (fun d => (d, scoreOf cos P g qv terms d))
               (List.filter (positiveScore cos P g qv terms) kb))
    by apply (Hgen (KB g) []).
  induction kb as [|d kb IH]; intros acc; cbn [fold_left List.filter List.map].
  - now rewrite app_nil_r.
  - rewrite IH. unfold positiveScore at 2. cbn [gt real_Number ofNat INR].
    destruct (Rgtb (scoreOf cos P g qv terms d) 0); [|reflexivity].
    now rewrite <- app_assoc.
Qed.







(** *** The context loop *)

End Ranking.

(** *** The score as a formula *)

Lemma addTerm_fold (P : R -> R -> R) (g : Globals R) (tf : gmap jsstring nat)
    (terms : list jsstring) (s : R) :
  P = PrevRetrieval.termProduct \/ P = CurRetrieval.termProduct ->
  fold_left (addTerm P g tf) terms s =
    (s + sumOver (fun t => contribution (orZero (VOCAB_IDF g !! t))
                             (default 0%nat (tf !! t))) terms)%R.
Proof.
  intros HP. revert s. induction terms as [|t terms IH]; intros s;
    cbn [fold_left sumOver fold_right].
  - lra.
  - rewrite IH, addTerm_real by exact HP. fold (sumOver (fun t =>
      contribution (orZero (VOCAB_IDF g !! t)) (default 0%nat (tf !! t))) terms).
    lra.
Qed.

Lemma IsVersion_product (cos : list R -> list R -> R) (P : R -> R -> R) :
  IsVersion cos P -> P = PrevRetrieval.termProduct \/ P = CurRetrieval.termProduct.
Proof. intros [[_ ->]|[_ ->]]; auto. Qed.

(** *** The cosine as a formula *)





(** ** The context budget *)



Lemma longCrawl_KB : KB (fst (crawlRun noGlobals longCrawl)) = longKB.
Proof. vm_compute. reflexivity. Qed.

Lemma tanh_zero : tanh 0 = 0%R.
Proof. unfold tanh. rewrite sinh_0. unfold Rdiv. apply Rmult_0_l. Qed.

Lemma scoreOf_unit `{Platform} (cos : list R -> list R -> R) (P : R -> R -> R)
    (g : Globals R) (d : Chunk R) :
  IsVersion cos P -> vec d = Some [1%R] ->
  scoreOf cos P g [1%R] [] d = 0.7%R.
Proof.
  intros Hv Hd. unfold scoreOf, denseOf, sparseOf. rewrite Hd.
  assert (Hcos : cos [1%R] [1%R] = 1%R).
  { assert (Hex : Exists (fun x : R => x <> 0%R) [1%R]) by (constructor; lra).
    destruct (real_cosine_self [1%R] Hex) as [HP HC].
    destruct Hv as [[-> _]|[-> _]]; assumption. }
  rewrite Hcos.
  assert (Hsparse : match CHUNK_TF g !! id d with
                    | Some tf => fold_left (addTerm P g tf) [] (ofNat 0)
                    | None => ofNat 0
                    end = 0%R) by (destruct (CHUNK_TF g !! id d); reflexivity).
  rewrite Hsparse. cbn [mul add c_0_7 c_0_3 real_Number Math_tanh real_MathLib].
  rewrite tanh_zero. lra.
Qed.

Lemma scoreAll_const `{Platform} (cos : list R -> list R -> R) (P : R -> R -> R)
    (g : Globals R) (qv : list R) (terms : list jsstring) (s : R) :
  (forall d, d ∈ KB g -> scoreOf cos P g qv terms d = s) -> (0 < s)%R ->
  scoreAll cos P g qv terms = List.map (fun d => (d, s)) (KB g).
Proof.
  intros Hall Hs. rewrite scoreAll_spec.
  induction (KB g) as [|d kb IH]; [reflexivity|].
  cbn [List.filter List.map]. unfold positiveScore at 1.
  rewrite (Hall d) by (now left).
  replace (Rgtb s 0) with true by (symmetry; now apply Rgtb_true).
  cbn [List.map]. rewrite (Hall d) by (now left). f_equal.
  apply IH. intros d' Hd'. apply Hall. now right.
Qed.

Lemma sortByScore_const (s : R) (kb : list (Chunk R)) :
  sortByScore (List.map (fun d => (d, s)) kb) = List.map (fun d => (d, s)) kb.
Proof.
  induction kb as [|d kb IH]; [reflexivity|].
  cbn [List.map sortByScore fold_right].
  change (fold_right insertByScore [] (List.map (fun d => (d, s)) kb))
    with (sortByScore (List.map (fun d => (d, s)) kb)).
  rewrite IH. destruct kb as [|d' kb]; [reflexivity|].
  cbn [List.map insertByScore snd gt sub real_Number ofNat INR].
  replace (Rgtb (s - s) 0) with false; [reflexivity|].
  symmetry. apply Rgtb_false. lra.
Qed.

Lemma longKB_vec (d : Chunk R) : d ∈ longKB -> vec d = Some [1%R].
Proof.
  unfold longKB. intros Hd. apply list_elem_of_lookup in Hd. destruct Hd as [i Hi].
  rewrite list_lookup_imap in Hi.
  destruct (chunkTextDefault longDoc !! i); [|discriminate].
  injection Hi as <-. reflexivity.
Qed.

Lemma longCrawl_context (cos : list R -> list R -> R) (P : R -> R -> R)
    (query : jsstring) :
  IsVersion cos P -> unique (tokenize query) = [] ->
  length (retrieveContextWith cos P (fst (crawlRun noGlobals longCrawl)) [1%R] query)
    = MAX_CONTEXT + 17.
Proof.
  intros Hv Hterms.
  assert (Hkb := longCrawl_KB). revert Hkb.
  generalize (fst (crawlRun noGlobals longCrawl)). intros g Hkb.
  unfold retrieveContextWith, retrieveContextAcross, retrieveScan.
  rewrite Hterms.
  rewrite (scoreAll_const cos P g [1%R] [] 0.7%R); [| |lra].
  2:{ intros d Hd. apply scoreOf_unit; [exact Hv|].
      apply longKB_vec. rewrite <- Hkb. exact Hd. }
  rewrite sortByScore_const, Hkb.
  vm_compute. reflexivity.
Qed.

(** C1 (failing input). A crawl of one page of 8500 characters, every chunk
    embedded as [[1]], and the query "?" embedded as [[1]]: all eleven chunks
    score 0.7 and are ranked in their order; the first ten entries make 8470
    characters, the test [8470 + 500 > 9000] lets the eleventh chunk in, and
    the context has 9017 characters, 17 more than [MAX_CONTEXT], in both
    files. *)
Theorem context_budget_overflow :
  let g := fst (crawlRun noGlobals longCrawl) in
  length (PrevRetrieval.retrieveContext g [1%R] (lit "?")) = MAX_CONTEXT + 17 /\
  length (CurRetrieval.retrieveContext g [1%R] (lit "?")) = MAX_CONTEXT + 17.
Proof.
  assert (Hterms : unique (tokenize (lit "?")) = []) by (vm_compute; reflexivity).
  split.
  - apply (longCrawl_context Prev.cosine PrevRetrieval.termProduct);
      [left; split; reflexivity | exact Hterms].
  - apply (longCrawl_context Cur.cosine CurRetrieval.termProduct);
      [right; split; reflexivity | exact Hterms].
Qed.

(** ** A query during a re-index *)

(** With no table and no vector every score is 0, nothing is ranked and the
    context is empty. *)
Lemma retrieveScan_unindexed `{Platform} (cos : list R -> list R -> R) (P : R -> R -> R)
    (g : Globals R) (qv : list R) (query : jsstring) :
  CHUNK_TF g = ∅ -> Forall (fun d => vec d = None) (KB g) ->
  retrieveScan cos P g qv query = [].
Proof.
  intros Htf Hvec. unfold retrieveScan. rewrite scoreAll_spec.
  replace (List.filter _ (KB g)) with (@nil (Chunk R)); [reflexivity|].
  symmetry. induction Hvec as [|d kb Hd Hkb IH]; [reflexivity|].
  cbn [List.filter]. rewrite IH.
  unfold positiveScore, scoreOf, denseOf, sparseOf.
  rewrite Hd, Htf, lookup_empty.
  cbn [mul add c_0_7 c_0_3 real_Number Math_tanh real_MathLib ofNat INR].
  rewrite tanh_zero.
  replace (Rgtb _ 0) with false; [reflexivity|].
  symmetry. apply Rgtb_false. lra.
Qed.

(** C2 (counterexample). A re-index is started on the generation that the
    one-page crawl has completed; its sitemap lists two pages.  While it
    awaits the second page, the knowledge base holds the chunk of the first
    page, both lexical tables are empty, and no chunk has a vector: what a
    query finds is neither the previous generation nor the new one, and a
    query that was started on the previous generation and resumes now gets
    the empty context.  And a crawl of 97 pages that awaits its second batch
    of embeddings has both tables filled, vectors on its first 96 chunks and
    none on the last. *)
Lemma reindex_exposes_partial_generation :
  (let old := fst (crawlRun noGlobals (demoCrawl ++ [Embeddings [[1%R]]])) in
   let st := crawlRun old [Urls [demoUrl; SITE ++ lit "/contact"]; Page (Some demoText)] in
   snd (crawlRun noGlobals (demoCrawl ++ [Embeddings [[1%R]]])) = Done /\
   length (KB old) = 1 /\ size (CHUNK_TF old) = 1 /\
   snd st = AwaitPage (SITE ++ lit "/contact") [] 1 /\
   length (KB (fst st)) = 1 /\
   VOCAB_IDF (fst st) = ∅ /\ CHUNK_TF (fst st) = ∅ /\
   Forall (fun d => vec d = None) (KB (fst st)) /\
   (forall qv query,
      retrieveContextAcross Prev.cosine PrevRetrieval.termProduct old (fst st) qv query = [] /\
      retrieveContextAcross Cur.cosine CurRetrieval.termProduct old (fst st) qv query = [])) /\
  (let st := crawlRun noGlobals manyCrawl in
   snd st = AwaitEmbeddings (repeat pageDoc 97) 96 /\
   length (KB (fst st)) = 97 /\
   size (CHUNK_TF (fst st)) = 97 /\
   size (VOCAB_IDF (fst st)) = 2 /\
   List.map (fun d => bool_decide (vec d = None)) (KB (fst st)) = repeat false 96 ++ [true]).
Proof.
  split; [|vm_compute; repeat split; reflexivity].
  cbn zeta. split; [reflexivity|]. split; [reflexivity|]. split; [reflexivity|].
  split; [reflexivity|]. split; [reflexivity|]. split; [reflexivity|].
  split; [reflexivity|].
  assert (Hvec : Forall (fun d : Chunk R => vec d = None)
            (KB (fst (crawlRun
               (fst (crawlRun noGlobals (demoCrawl ++ [Embeddings [[1%R]]])))
               [Urls [demoUrl; SITE ++ lit "/contact"]; Page (Some demoText)]))))
    by (repeat constructor).
  split; [exact Hvec|].
  intros qv query. unfold retrieveContextAcross.
  change (length (KB (fst (crawlRun noGlobals (demoCrawl ++ [Embeddings [[1%R]]])))) =? 0)
    with false.
  split; apply retrieveScan_unindexed; (reflexivity || exact Hvec).
Qed.

(** ** The two files side by side *)

(** In double arithmetic the two [cosine]s part on NaN: the first file
    divides, the second returns 0. *)
Theorem cosine_nan_divergence :
  Prev.cosine [nan]%float [1]%float = nan /\ Cur.cosine [nan]%float [1]%float = 0%float.
Proof. split; vm_compute; reflexivity. Qed.

(** C8 (failing input). For a sitemap that lists the English page
    [/film-production], the first file drops the page, since its path starts
    with [fi], and returns the eight fallback pages only; the second file
    keeps it. *)
Theorem language_filter_divergence :
  PrevDiscovery.excluded (lit "film-production") = true /\
  CurDiscovery.excluded (lit "film-production") = false /\
  PrevDiscovery.getSitemapUrls (Some filmSitemap) =
    List.map resolveFallback fallbackPaths /\
  CurDiscovery.getSitemapUrls (Some filmSitemap) =
    (SITE ++ lit "/film-production") :: List.map resolveFallback fallbackPaths.
Proof. repeat split; vm_compute; reflexivity. Qed.

Lemma startsWith_app (s p q : jsstring) :
  startsWith s (p ++ q) = true -> startsWith s p = true.
Proof.
  revert s. induction p as [|c p IH]; intros [|d s]; cbn [startsWith app];
    try reflexivity; try discriminate.
  destruct (N.eqb c d); [apply IH|discriminate].
Qed.

(** X5. Every path that the second file excludes ([fi], [sv], or under
    [fi/] or [sv/]) the first file excludes too; the converse fails at
    [film-production]. *)
Theorem excluded_cur_prev (path : jsstring) :
  CurDiscovery.excluded path = true -> PrevDiscovery.excluded path = true.
Proof.
  unfold CurDiscovery.excluded, PrevDiscovery.excluded, jsstring_eqb.
  rewrite !orb_true_iff.
  intros [[[Hfi|Hfi]|Hsv]|Hsv].
  - apply bool_decide_eq_true_1 in Hfi. subst. vm_compute. tauto.
  - left. left. left. apply (startsWith_app path (lit "fi") (lit "/")). exact Hfi.
  - apply bool_decide_eq_true_1 in Hsv. subst. vm_compute. tauto.
  - left. right. apply (startsWith_app path (lit "sv") (lit "/")). exact Hsv.
Qed.

Lemma excluded_cur_prev_witness : PrevDiscovery.excluded (lit "fi/yhteystiedot") = true.
Proof. apply (excluded_cur_prev (lit "fi/yhteystiedot")). reflexivity. Defined.

(** ** The chat handler *)

Lemma truthy_string (s : jsstring) : truthy (JString s) = true <-> s <> [].
Proof.
  cbn. unfold jsstring_eqb. case_bool_decide; cbn; split; congruence.
Qed.

Lemma chatWith_falsy (L : JSValue -> jsstring) (M : jsstring) (body : option Body) :
  truthy (bodyMessage body) = false ->
  chatWith L M body = Respond (lit "Please type a message.").
Proof. intros Hf. unfold chatWith, orElse. cbv zeta. rewrite Hf. reflexivity. Qed.

Lemma chatWith_truthy (L : JSValue -> jsstring) (M : jsstring) (body : option Body) :
  truthy (bodyMessage body) = true ->
  exists k,
    chatWith L M body = Retrieve (bodyMessage body) k /\
    (forall text, k (Failed text) = Respond (lit "Error " ++ text)) /\
    (forall ctx, exists k',
       k (Fulfilled ctx) =
         Complete (sysPrompt L M (orElse (bodyLang body) (JString (lit "en"))) ctx)
           (bodyMessage body) k' /\
       (forall text, k' (Failed text) = Respond (lit "Error " ++ text)) /\
       (forall c content, k' (Fulfilled (Some (c :: content))) = Respond (c :: content)) /\
       k' (Fulfilled (Some [])) = Respond (lit "(no reply)") /\
       k' (Fulfilled None) = Respond (lit "(no reply)")).
Proof.
  intros Ht. unfold chatWith, orElse. cbv zeta. rewrite Ht. cbv iota. rewrite Ht.
  cbn [negb].
  eexists. split; [reflexivity|]. split; [reflexivity|].
  intros ctx. eexists. split; [reflexivity|]. repeat split.
Qed.

(** C10. In both files the handler answers "Please type a message.",
    without calling [retrieveContext], exactly when the message of the body
    is falsy: absent (also with no body at all), [null], [false], a zero or
    NaN, or the empty string.  Every other message — a string of white
    space is one — is passed to [retrieveContext] and then, with the system
    prompt, to the completion, whose content (or "(no reply)", or the text
    of an error) is the reply. *)
Theorem chat_rejection (body : option Body) :
  let msg := bodyMessage body in
  (PrevChat.chat body = Respond (lit "Please type a message.") <-> truthy msg = false) /\
  (CurChat.chat body = Respond (lit "Please type a message.") <-> truthy msg = false) /\
  (truthy msg = false <->
     msg = JUndefined \/ msg = JNull \/ msg = JBool false \/
     (exists x, msg = JNumber x /\ falsy x = true) \/ msg = JString []) /\
  (truthy msg = true ->
     exists k1 k2,
       PrevChat.chat body = Retrieve msg k1 /\ CurChat.chat body = Retrieve msg k2 /\
       forall ctx, exists c1 c2,
         k1 (Fulfilled ctx) =
           Complete (sysPrompt PrevChat.langRuleOf PrevChat.missingRule
                       (orElse (bodyLang body) (JString (lit "en"))) ctx) msg c1 /\
         k2 (Fulfilled ctx) =
           Complete (sysPrompt CurChat.langRuleOf CurChat.missingRule
                       (orElse (bodyLang body) (JString (lit "en"))) ctx) msg c2 /\
         forall c content,
           c1 (Fulfilled (Some (c :: content))) = Respond (c :: content) /\
           c2 (Fulfilled (Some (c :: content))) = Respond (c :: content)) /\
  (forall s, s <> [] -> Forall (fun c => isJSSpace c = true) s ->
     msg = JString s -> truthy msg = true).
Proof.
  cbn zeta.
  assert (Hiff : forall L M,
    chatWith L M body = Respond (lit "Please type a message.") <->
    truthy (bodyMessage body) = false).
  { intros L M. split; [|apply chatWith_falsy].
    destruct (truthy (bodyMessage body)) eqn:Ht; [|reflexivity].
    destruct (chatWith_truthy L M body Ht) as (k & -> & _). discriminate. }
  split; [apply Hiff|]. split; [apply Hiff|]. split; [|split].
  - destruct (bodyMessage body) as [| |b|x|s|]; cbn [truthy].
    + split; [auto|reflexivity].
    + split; [auto|reflexivity].
    + destruct b.
      * split; [discriminate|].
        intros [Hm|[Hm|[Hm|[[y [Hm _]]|Hm]]]]; discriminate Hm.
      * split; [auto 10|reflexivity].
    + rewrite negb_false_iff. split.
      * intros Hx. right. right. right. left. exists x. auto.
      * intros [Hm|[Hm|[Hm|[[y [Hm Hy]]|Hm]]]]; try discriminate Hm.
        injection Hm as ->. exact Hy.
    + unfold jsstring_eqb. rewrite negb_false_iff, bool_decide_eq_true. split.
      * intros ->. auto 10.
      * intros [Hm|[Hm|[Hm|[[y [Hm _]]|Hm]]]]; try discriminate Hm.
        now injection Hm.
    + split; [discriminate|].
      intros [Hm|[Hm|[Hm|[[y [Hm _]]|Hm]]]]; discriminate Hm.
  - intros Ht.
    destruct (chatWith_truthy PrevChat.langRuleOf PrevChat.missingRule body Ht)
      as (k1 & E1 & _ & H1).
    destruct (chatWith_truthy CurChat.langRuleOf CurChat.missingRule body Ht)
      as (k2 & E2 & _ & H2).
    exists k1, k2. split; [exact E1|]. split; [exact E2|].
    intros ctx. destruct (H1 ctx) as (c1 & Ec1 & _ & Hc1 & _).
    destruct (H2 ctx) as (c2 & Ec2 & _ & Hc2 & _).
    exists c1, c2. auto.
  - intros s Hs _ ->. now apply truthy_string.
Qed.

(** A message of three spaces is passed on to [retrieveContext]. *)
Lemma chat_rejection_witness :
  truthy (JString (lit "   ")) = true /\
  CurChat.chat (Some (mkBody (JString [])  JUndefined)) = Respond (lit "Please type a message.") /\
  exists k1 k2,
    PrevChat.chat (Some (mkBody (JString (lit "   ")) JUndefined))
      = Retrieve (JString (lit "   ")) k1 /\
    CurChat.chat (Some (mkBody (JString (lit "   ")) JUndefined))
      = Retrieve (JString (lit "   ")) k2.
Proof.
  pose proof (chat_rejection (Some (mkBody (JString (lit "   ")) JUndefined)))
    as (_ & _ & _ & Hgo & Hspace).
  pose proof (chat_rejection (Some (mkBody (JString []) JUndefined)))
    as (_ & Hrej & _).
  cbn zeta in *. cbn [bodyMessage message] in *.
  assert (Ht : truthy (JString (lit "   ")) = true).
  { apply (Hspace (lit "   ")); [discriminate | repeat constructor | reflexivity]. }
  split; [exact Ht|]. split; [apply Hrej; reflexivity|].
  destruct (Hgo Ht) as (k1 & k2 & E1 & E2 & _). eauto.
Defined.

(** ** The lexical score in double arithmetic *)

(** X2. In double arithmetic, for the weights 1 and 0.28768207245178096 (the
    double nearest to [ln(4/3)]) and every count from 0 to 400, the most that
    a chunk of 800 characters can hold of a term of two characters, the
    contribution does not decrease with the count and its increase shrinks,
    in both files; at count 0 it is 0. *)
Theorem double_contribution_in_range :
  forallb (saturatesAt PrevRetrieval.termProduct 1) (seq 0 401) = true /\
  forallb (saturatesAt CurRetrieval.termProduct 1) (seq 0 401) = true /\
  forallb (saturatesAt PrevRetrieval.termProduct 0.28768207245178096) (seq 0 401) = true /\
  forallb (saturatesAt CurRetrieval.termProduct 0.28768207245178096) (seq 0 401) = true /\
  doubleContribution PrevRetrieval.termProduct 1 0 = 0%float /\
  doubleContribution CurRetrieval.termProduct 1 0 = 0%float.
Proof. repeat split; vm_compute; reflexivity. Qed.

(** * Further properties *)

(** ** unique and tokenize *)

Section UniqueMore.
Context {A : Type} `{EqDecision A}.

Lemma unique_fold_sublist (arr acc : list A) :
  exists l, fold_left uniqueStep arr acc = acc ++ l /\ l `sublist_of` arr.
Proof.
  revert acc. induction arr as [|y arr IH]; intros acc; cbn [fold_left].
  - exists []. rewrite app_nil_r. split; [reflexivity|constructor].
  - destruct (IH (uniqueStep acc y)) as (l & -> & Hl). unfold uniqueStep.
    case_bool_decide as Hy.
    + exists l. split; [reflexivity|]. now apply sublist_cons.
    + exists (y :: l). rewrite <- app_assoc. split; [reflexivity|]. now apply sublist_skip.
Qed.

Lemma unique_fold_fixed (arr acc : list A) :
  NoDup (acc ++ arr) -> fold_left uniqueStep arr acc = acc ++ arr.
Proof.
  revert acc. induction arr as [|y arr IH]; intros acc Hnd; cbn [fold_left].
  - now rewrite app_nil_r.
  - unfold uniqueStep. case_bool_decide as Hy.
    + apply NoDup_app in Hnd as (_ & Hd & _). exfalso. apply (Hd y Hy). left.
    + rewrite IH; rewrite <- app_assoc; [reflexivity|exact Hnd].
Qed.

(** X6. [unique] keeps exactly the first occurrence of every element, in the
    order of the array: the result has no duplicates and the same members, it
    is obtained from the array by deleting elements, an array without
    duplicates is returned unchanged, and a second pass changes nothing. *)
Theorem unique_first_occurrences (arr : list A) :
  NoDup (unique arr)
  /\ (forall x, x ∈ unique arr <-> x ∈ arr)
  /\ unique arr `sublist_of` arr
  /\ head (unique arr) = head arr
  /\ unique (unique arr) = unique arr
  /\ (unique arr = arr <-> NoDup arr).
Proof.
  assert (Hfix : forall l : list A, NoDup l -> unique l = l).
  { intros l Hl. apply (unique_fold_fixed l []). exact Hl. }
  split; [apply unique_NoDup|]. split; [intros x; apply unique_elem|].
  split; [|split; [|split; [|split; [intros <-; apply unique_NoDup|apply Hfix]]]].
  - destruct (unique_fold_sublist arr []) as (l & Hl & Hs).
    unfold unique. change (fold_left uniqueStep arr [] `sublist_of` arr).
    now rewrite Hl.
  - destruct arr as [|y arr]; [reflexivity|].
    unfold unique. change (head (fold_left uniqueStep arr (uniqueStep [] y)) = Some y).
    destruct (unique_fold_sublist arr (uniqueStep [] y)) as (l & -> & _).
    unfold uniqueStep. case_bool_decide as Hy; [now apply elem_of_nil in Hy|reflexivity].
  - apply Hfix, unique_NoDup.
Qed.
End UniqueMore.

Lemma splitLoop_sound (s cur : jsstring) (inSep : bool) (w : jsstring) :
  (inSep = true -> cur = []) -> w ∈ splitLoop s cur inSep -> runAhead s cur w.
Proof.
  revert cur inSep. induction s as [|c s IH]; intros cur inSep Hsep Hw; cbn [splitLoop] in Hw.
  - apply list_elem_of_singleton in Hw. subst w. left. exists [], [].
    rewrite app_nil_r. repeat split; [constructor|discriminate].
  - destruct (isTokenChar c) eqn:Hc.
    + destruct (IH (c :: cur) false ltac:(intros; discriminate) Hw) as [(w2 & post & -> & -> & Hf & Hp)|(s1 & c1 & post & -> & Hc1 & Hf & Hp)].
      * left. exists (c :: w2), post. cbn [rev]. rewrite <- app_assoc.
        repeat split; [now constructor|exact Hp].
      * right. exists (c :: s1), c1, post. repeat split; assumption.
    + assert (Hrec : w ∈ splitLoop s [] true -> runAhead (c :: s) cur w).
      { intros Hw'.
        destruct (IH [] true ltac:(reflexivity) Hw') as [(w2 & post & -> & -> & Hf & Hp)|(s1 & c1 & post & -> & Hc1 & Hf & Hp)].
        - right. exists [], c, post. repeat split; assumption.
        - right. exists (c :: s1), c1, post. repeat split; assumption. }
      destruct inSep; [rewrite (Hsep eq_refl) in Hw; exact (Hrec Hw)|].
      apply elem_of_cons in Hw as [->|Hw]; [|exact (Hrec Hw)].
      left. exists [], (c :: s). rewrite app_nil_r.
      repeat split; [constructor|]. intros c' [= <-]. exact Hc.
Qed.

Lemma splitLoop_complete (s cur : jsstring) (inSep : bool) (w : jsstring) :
  w <> [] -> (inSep = true -> cur = []) -> runAhead s cur w -> w ∈ splitLoop s cur inSep.
Proof.
  intros Hne. revert cur inSep. induction s as [|c s IH]; intros cur inSep Hsep Hrun; cbn [splitLoop].
  - destruct Hrun as [(w2 & post & -> & Hs & _)|(s1 & c1 & post & Hs & _)].
    + symmetry in Hs. apply app_eq_nil in Hs as [-> _]. rewrite app_nil_r. left.
    + destruct s1; discriminate Hs.
  - destruct Hrun as [(w2 & post & Hw & Hs & Hf & Hp)|(s1 & c1 & post & Hs & Hc1 & Hf & Hp)].
    + destruct w2 as [|c' w2].
      * cbn in Hs. subst post. rewrite app_nil_r in Hw. subst w.
        rewrite (Hp c eq_refl). destruct inSep.
        -- rewrite (Hsep eq_refl) in Hne. now contradiction Hne.
        -- left.
      * injection Hs as <- ->. inversion Hf as [|? ? Hc' Hf']; subst. rewrite Hc'.
        apply IH; [discriminate|]. left. exists w2, post. cbn [rev]. rewrite <- app_assoc.
        repeat split; first [assumption|reflexivity].
    + destruct s1 as [|c' s1].
      * injection Hs as <- ->. rewrite Hc1.
        assert (w ∈ splitLoop (w ++ post) [] true).
        { apply IH; [reflexivity|]. left. exists w, post. repeat split; assumption. }
        destruct inSep; [rewrite (Hsep eq_refl); assumption|]. now right.
      * injection Hs as <- ->.
        assert (Hr : runAhead (s1 ++ c1 :: w ++ post) [] w).
        { right. exists s1, c1, post. repeat split; assumption. }
        destruct (isTokenChar c).
        -- apply IH; [discriminate|]. right. exists s1, c1, post. repeat split; assumption.
        -- destruct inSep; [rewrite (Hsep eq_refl); now apply IH|]. right. now apply IH.
Qed.

(** X7. The tokens of a text are exactly the maximal runs of two or more
    class characters of its lower-cased form. *)
Theorem tokenize_maximal_runs `{Platform} (s w : jsstring) :
  w ∈ tokenize s <-> 2 <= length w /\ tokenRun (toLowerCase s) w.
Proof.
  unfold tokenize. rewrite list_elem_of_In, filter_In, <- list_elem_of_In.
  unfold splitNonToken. split.
  - intros [Hw Hlen]. apply andb_prop in Hlen as [_ Hlen].
    apply Nat.ltb_lt in Hlen. split; [lia|].
    destruct (splitLoop_sound _ [] false _ ltac:(intros; discriminate) Hw) as [(w2 & post & -> & Hs & Hf & Hp)|(s1 & c1 & post & Hs & Hc1 & Hf & Hp)].
    + exists [], post. cbn. repeat split; [exact Hs|exact Hf|discriminate|exact Hp].
    + exists (s1 ++ [c1]), post. rewrite <- app_assoc. split; [exact Hs|].
      split; [exact Hf|]. split; [|exact Hp].
      intros c. rewrite last_snoc. now intros [= <-].
  - intros [Hlen (pre & post & Hs & Hf & Hpre & Hp)]. split; cycle 1.
    + apply andb_true_intro. split.
      * apply negb_true_iff. unfold jsstring_eqb. apply bool_decide_eq_false.
        intros ->. cbn in Hlen. lia.
      * apply Nat.ltb_lt. lia.
    + rewrite Hs. apply splitLoop_complete; [intros ->; cbn in Hlen; lia|discriminate|].
      destruct pre as [|p pre _] using rev_ind.
      * left. exists w, post. repeat split; assumption.
      * right. exists pre, p, post. rewrite <- app_assoc.
        split; [reflexivity|]. split; [|split; assumption].
        apply Hpre. now rewrite last_snoc.
Qed.

(** ** Term counts *)

Lemma regexSpecial_not_b (c : N) :
  existsb (N.eqb c) regexSpecial = true -> N.eqb c 98 = false.
Proof.
  intros Hc. destruct (N.eqb_spec c 98) as [->|]; [|reflexivity].
  vm_compute in Hc. discriminate Hc.
Qed.

Lemma regexSpecial_backslash (c : N) :
  existsb (N.eqb c) regexSpecial = false -> N.eqb c 92 = false.
Proof.
  intros Hc. destruct (N.eqb_spec c 92) as [->|]; [|reflexivity].
  vm_compute in Hc. discriminate Hc.
Qed.

(** Escaping makes every unit of the term a literal of the pattern. *)
Lemma parsePattern_escape (t rest : jsstring) :
  parsePattern (escapeForWordBoundary t ++ rest) false
  = List.map Char t ++ parsePattern rest false.
Proof.
  induction t as [|c t IH]; [reflexivity|].
  unfold escapeForWordBoundary in *. cbn [flat_map List.map].
  destruct (existsb (N.eqb c) regexSpecial) eqn:Hc.
  - cbn [app parsePattern]. change (N.eqb 92 92) with true. cbv iota.
    rewrite (regexSpecial_not_b c Hc). now rewrite IH.
  - cbn [app parsePattern]. rewrite (regexSpecial_backslash c Hc). now rewrite IH.
Qed.

Lemma termPattern_literal (t : jsstring) :
  termPattern t = WordBoundary :: List.map Char t ++ [WordBoundary].
Proof.
  unfold termPattern. change (lit "\b") with [92%N; 98%N].
  cbn [app parsePattern]. change (N.eqb 92 92) with true. cbv iota.
  change (N.eqb 98 98) with true. cbv iota.
  now rewrite parsePattern_escape.
Qed.

Lemma matchHere_chars (t : jsstring) (atoms : list Atom) (prev : option N) (s : jsstring) (len : nat) :
  matchHere (List.map Char t ++ atoms) prev s = Some len ->
  exists m s' prev' k,
    s = m ++ s' /\ length m = length t /\ Forall2 (fun c d => charEqI c d = true) t m
    /\ matchHere atoms prev' s' = Some k /\ len = length t + k.
Proof.
  revert prev s len. induction t as [|c t IH]; intros prev s len Hm.
  - exists [], s, prev, len. cbn in *. repeat split; [constructor|exact Hm].
  - cbn [List.map app matchHere] in Hm. destruct s as [|d s]; [discriminate|].
    destruct (charEqI c d) eqn:Hcd; [|discriminate].
    destruct (matchHere (List.map Char t ++ atoms) (Some d) s) as [n|] eqn:Hn; [|discriminate].
    injection Hm as <-.
    destruct (IH _ _ _ Hn) as (m & s' & prev' & k & -> & Hlen & Hf & Hk & ->).
    exists (d :: m), s', prev', k. cbn [length]. rewrite Hlen.
    split; [reflexivity|]. split; [reflexivity|]. split; [now constructor|].
    split; [exact Hk|]. reflexivity.
Qed.

Lemma matchHere_term (t : jsstring) (prev : option N) (s : jsstring) (len : nat) :
  matchHere (termPattern t) prev s = Some len -> len = length t /\ len <= length s.
Proof.
  rewrite termPattern_literal. cbn [matchHere].
  destruct (xorb _ _); [|discriminate]. intros Hm.
  destruct (matchHere_chars _ _ _ _ _ Hm) as (m & s' & prev' & k & -> & Hlen & _ & Hk & ->).
  cbn [matchHere] in Hk. destruct (xorb _ _); [|discriminate]. injection Hk as <-.
  rewrite length_app. lia.
Qed.

Lemma countMatches_bound (atoms : list Atom) (L : nat) :
  1 <= L ->
  (forall prev s len, matchHere atoms prev s = Some len -> len = L /\ len <= length s) ->
  forall s skip prev, countMatches atoms skip prev s * L + skip <= length s \/
                      countMatches atoms skip prev s = 0.
Proof.
  intros HL Hm. induction s as [|c s IH]; intros skip prev.
  - destruct skip; cbn [countMatches]; [|now right].
    destruct (matchHere atoms prev []) as [len|] eqn:E; [|now right].
    apply Hm in E. cbn in E. lia.
  - destruct skip as [|k]; cbn [countMatches].
    + destruct (matchHere atoms prev (c :: s)) as [len|] eqn:E.
      * apply Hm in E as [-> Hle]. cbn [length] in *. left.
        destruct (IH (L - 1) (Some c)) as [Hb| ->]; nia.
      * destruct (IH 0 (Some c)) as [Hb| ->]; [left; cbn [length]; lia|now right].
    + destruct (IH k (Some c)) as [Hb| ->]; [left; cbn [length]; lia|now right].
Qed.

Lemma termCount_bound (t text : jsstring) :
  t <> [] -> termCount t text = 1 \/ termCount t text * length t <= length text.
Proof.
  intros Ht. unfold termCount.
  destruct (Nat.eqb_spec (countMatches (termPattern t) 0 None text) 0) as [|Hn]; [now left|].
  right.
  destruct (countMatches_bound (termPattern t) (length t)) with (s := text) (skip := 0) (prev := @None N)
    as [Hb|Hz].
  - destruct t; [contradiction|cbn; lia].
  - intros prev s len. apply matchHere_term.
  - lia.
  - contradiction.
Qed.

(** ** Complete crawls *)

Section CrawlRuns.
Context {T : Type} `{Number T} `{MathLib T} `{Platform}.

Lemma crawlPage_pieces (u : jsstring) (doc : option jsstring) (kb : list (Chunk T)) (n : nat) :
  crawlPage u doc (kb, n) =
    (kb ++ numbered n (List.map (pair u) (pagePieces doc)), n + length (pagePieces doc)).
Proof.
  assert (Hskip : (kb, n) = (kb ++ numbered n (List.map (pair u) []), n + 0)).
  { cbn. now rewrite app_nil_r, Nat.add_0_r. }
  destruct doc as [[|c doc]|]; cbn [crawlPage pagePieces]; try exact Hskip.
  rewrite pushChunks_spec. unfold numbered.
  change (List.map (pair u) ?l) with (pair u <$> l). now rewrite imap_fmap.
Qed.

Lemma numbered_app (n : nat) (l1 l2 : list (jsstring * jsstring)) :
  numbered (T:=T) n (l1 ++ l2) = numbered n l1 ++ numbered (n + length l1) l2.
Proof.
  unfold numbered. rewrite imap_app. f_equal. apply imap_ext. intros k x _. cbn.
  f_equal. lia.
Qed.


Lemma assignVecs_middle (data : list (list T)) (pre rest : list (Chunk T)) (start i : nat) :
  start + i = length pre ->
  assignVecs (pre ++ rest) start i data =
    (pre ++ withVecs rest data ++ drop (length data) rest, length data <=? length rest).
Proof.
  revert pre rest i. induction data as [|e data IH]; intros pre rest i Hi.
  - unfold withVecs. now rewrite zip_with_nil_r.
  - cbn [assignVecs]. rewrite Hi. destruct rest as [|d rest].
    + rewrite lookup_ge_None_2 by (rewrite length_app; cbn; lia). reflexivity.
    + rewrite list_lookup_middle by reflexivity.
      replace (length pre) with (length pre + 0) by lia. rewrite insert_app_r.
      cbn [insert list_insert]. rewrite (cons_middle _ pre), app_assoc.
      rewrite (IH (pre ++ [setVec e d]) rest (S i)).
      * now rewrite <- app_assoc.
      * rewrite length_app. cbn [length]. lia.
Qed.

End CrawlRuns.

Section CrawlTheorems.
Context {T : Type} `{Number T} `{MathLib T} `{Platform}.

Lemma chunkTextDefault_chunksOf (s : jsstring) :
  chunkTextDefault s = chunksOf (length s) CHUNK_SIZE s.
Proof.
  unfold chunkTextDefault, chunkText.
  rewrite chunkLoop_spec; [reflexivity | unfold CHUNK_SIZE; lia | lia].
Qed.


Lemma chunksOf_sizes {A} (n fuel : nat) (s : list A) :
  0 < n -> Forall (fun c => 1 <= length c <= n) (chunksOf fuel n s).
Proof.
  intros Hn. revert s. induction fuel as [|fuel IH]; intros s; [constructor|].
  destruct s as [|a s]; [constructor|]. cbn [chunksOf]. constructor; [|apply IH].
  rewrite length_take. cbn [length]. lia.
Qed.

Lemma pagePieces_sizes (doc : option jsstring) :
  Forall (fun c => 1 <= length c <= CHUNK_SIZE) (pagePieces doc).
Proof.
  destruct doc as [[|c s]|]; try constructor. cbn [pagePieces].
  rewrite chunkTextDefault_chunksOf. apply chunksOf_sizes. unfold CHUNK_SIZE. lia.
Qed.

Lemma numbered_pieces (n : nat) (ps : list (jsstring * jsstring)) :
  List.map (fun d : Chunk T => (url d, chunk d)) (numbered n ps) = ps.
Proof.
  revert n. induction ps as [|[u c] ps IH]; intros n; [reflexivity|].
  unfold numbered. cbn [imap List.map url chunk fst snd]. f_equal.
  rewrite <- (IH (S n)) at 2. f_equal. apply imap_ext. intros k x _. cbn. f_equal. lia.
Qed.

Lemma numbered_ids (n : nat) (ps : list (jsstring * jsstring)) :
  List.map id (numbered (T:=T) n ps) = seq n (length ps).
Proof.
  revert n. induction ps as [|[u c] ps IH]; intros n; [reflexivity|].
  unfold numbered. cbn [imap List.map id length seq]. rewrite Nat.add_0_r. f_equal.
  rewrite <- (IH (S n)). f_equal. apply imap_ext. intros k x _. cbn. f_equal. lia.
Qed.


End CrawlTheorems.

Section CrawlExtras.
Context {T : Type} `{Number T} `{MathLib T} `{Platform}.


Lemma filter_none {A} (f : A -> bool) (l : list A) :
  Forall (fun x => f x = false) l -> List.filter f l = [].
Proof. induction 1 as [|x l Hx _ IH]; cbn; [reflexivity|]. now rewrite Hx, IH. Qed.

Lemma docFreq_pos (t : jsstring) (kb : list (Chunk T)) :
  1 <= docFreq t kb <-> t ∈ flat_map (fun d => tokenize (chunk d)) kb.
Proof.
  unfold docFreq. induction kb as [|d kb IH]; cbn [List.filter flat_map length].
  - rewrite elem_of_nil. lia.
  - rewrite elem_of_app, <- IH. unfold hasToken at 1. case_bool_decide as Ht.
    + cbn [length]. split; [tauto|lia].
    + split; [tauto|]. intros [?|?]; [contradiction|assumption].
Qed.

Lemma vocab_size (g : Globals T) :
  Indexed g -> size (VOCAB_IDF g) = length (vocabulary (KB g)).
Proof.
  intros [_ Hidf]. rewrite <- size_dom.
  rewrite <- (size_list_to_set (C := gset jsstring) (vocabulary (KB g)))
    by apply unique_NoDup.
  f_equal. apply set_eq. intros t.
  rewrite elem_of_dom, elem_of_list_to_set. unfold vocabulary.
  rewrite unique_elem, <- docFreq_pos, Hidf.
  destruct (docFreq t (KB g)); split.
  - intros [? ?]; discriminate.
  - lia.
  - lia.
  - eauto.
Qed.




(** X10. A response of the embedding service with more embeddings than
    chunks are left from [start] on makes the crawl fail: the chunks from
    [start] on have got their embeddings, and nothing else of the knowledge
    base has changed. *)
Theorem embeddings_overflow (g : Globals T) (texts : list jsstring) (start : nat)
    (data : list (list T)) :
  start <= length (KB g) -> length (KB g) < start + length data ->
  let st := crawlResume (g, AwaitEmbeddings texts start) (Embeddings data) in
  snd st = Rejected
  /\ KB (fst st) = take start (KB g) ++ withVecs (drop start (KB g)) data
  /\ VOCAB_IDF (fst st) = VOCAB_IDF g /\ CHUNK_TF (fst st) = CHUNK_TF g.
Proof.
  intros Hstart Hlen. cbn zeta. cbn [crawlResume].
  assert (E : assignVecs (KB g) start 0 data =
              (take start (KB g) ++ withVecs (drop start (KB g)) data, false)).
  { rewrite <- (take_drop start (KB g)) at 1.
    rewrite (assignVecs_middle data (take start (KB g)) (drop start (KB g)) start 0)
      by (rewrite length_take; lia).
    rewrite (proj2 (Nat.leb_gt _ _)) by (rewrite length_drop; lia).
    rewrite (drop_ge (drop start (KB g))) by (rewrite length_drop; lia).
    now rewrite app_nil_r. }
  rewrite E. repeat split.
Qed.
End CrawlExtras.



Lemma embeddings_overflow_witness :
  let g := mkGlobals [mkChunk 0 demoUrl (lit "en") demoText None] ∅ ∅ in
  let st := crawlResume (g, AwaitEmbeddings [demoText] 0) (Embeddings [[1%R]; [2%R]]) in
  snd st = Rejected
  /\ KB (fst st) = take 0 (KB g) ++ withVecs (drop 0 (KB g)) [[1%R]; [2%R]]
  /\ VOCAB_IDF (fst st) = VOCAB_IDF g /\ CHUNK_TF (fst st) = CHUNK_TF g.
Proof.
  apply (embeddings_overflow
           (mkGlobals [mkChunk 0 demoUrl (lit "en") demoText None] ∅ ∅));
    cbn [KB length]; lia.
Defined.

Lemma tokenize_long `{Platform} (s w : jsstring) : w ∈ tokenize s -> 2 <= length w.
Proof.
  unfold tokenize. rewrite list_elem_of_In, filter_In. intros [_ Hlen].
  apply andb_prop in Hlen as [_ Hlen]. apply Nat.ltb_lt in Hlen. lia.
Qed.

Section ChunkSizes.
Context {T : Type} `{Number T} `{MathLib T} `{Platform}.

Lemma embedLoop_KB (g : Globals T) (texts : list jsstring) (start : nat) :
  KB (fst (embedLoop g texts start)) = KB g.
Proof. unfold embedLoop. now destruct (start <? length texts). Qed.

Lemma pageLoop_KB (g : Globals T) (urls : list jsstring) (n : nat) :
  KB (fst (pageLoop g urls n)) = KB g.
Proof.
  destruct urls; cbn [pageLoop fst]; [|reflexivity].
  now rewrite embedLoop_KB, sparseIndex_KB.
Qed.

Lemma numbered_chunks (n : nat) (ps : list (jsstring * jsstring)) :
  List.map chunk (numbered (T:=T) n ps) = List.map snd ps.
Proof.
  rewrite <- (numbered_pieces (T:=T) n ps) at 2. rewrite List.map_map.
  apply List.map_ext. reflexivity.
Qed.

Lemma crawlResume_sizes (st : Globals T * CrawlPC) (r : Response T) :
  sizedChunks (KB (fst st)) -> sizedChunks (KB (fst (crawlResume st r))).
Proof.
  destruct st as [g pc]. cbn [fst]. intros Hs.
  destruct pc as [|u rest idCounter|texts start| |], r as [urls|doc|data|];
    cbn [crawlResume fst]; try exact Hs.
  - now rewrite pageLoop_KB.
  - rewrite crawlPage_pieces, pageLoop_KB. cbn [KB]. unfold sizedChunks.
    rewrite List.map_app. apply Forall_app. split; [exact Hs|].
    rewrite numbered_chunks, List.map_map. cbn [snd]. rewrite List.map_id.
    apply pagePieces_sizes.
  - pose proof (assignVecs_same (KB g) start 0 data) as (_ & Hchunk & _).
    destruct (assignVecs (KB g) start 0 data) as [kb ok]. cbn [fst] in Hchunk.
    destruct ok; [rewrite embedLoop_KB|]; cbn [fst KB]; unfold sizedChunks;
      now rewrite Hchunk.
Qed.

Lemma crawlRun_sizes (g0 : Globals T) (rs : list (Response T)) :
  sizedChunks (KB (fst (crawlRun g0 rs))).
Proof.
  unfold crawlRun.
  assert (Hstart : sizedChunks (KB (fst (crawlStart g0)))) by constructor.
  revert Hstart. generalize (crawlStart g0).
  induction rs as [|r rs IH]; intros st Hst; cbn [fold_left]; [exact Hst|].
  apply IH. now apply crawlResume_sizes.
Qed.

(** X11. In every state a crawl reaches, a count [n] stored in [CHUNK_TF]
    for a term [t] belongs to a term of at least two characters and lies
    between 1 and 400: beyond 1 it counts occurrences that do not overlap,
    so [n] times the length of [t] is at most [CHUNK_SIZE]. *)
Theorem term_frequency_bounds (g0 : Globals T) (rs : list (Response T))
    (i : nat) (tf : gmap jsstring nat) (t : jsstring) (n : nat) :
  CHUNK_TF (fst (crawlRun g0 rs)) !! i = Some tf -> tf !! t = Some n ->
  2 <= length t /\ 1 <= n <= 400 /\ (n = 1 \/ n * length t <= CHUNK_SIZE).
Proof.
  intros Htf Hn.
  pose proof (crawlRun_inv g0 rs) as [_ Hpc].
  pose proof (crawlRun_sizes g0 rs) as Hsizes.
  destruct (crawlRun g0 rs) as [g pc]. cbn [fst snd] in *.
  assert (Hidx : Indexed g).
  { destruct pc; try tauto.
    - destruct Hpc as (_ & _ & E). rewrite E in Htf. discriminate Htf.
    - destruct Hpc as (_ & _ & E & _). rewrite E in Htf. discriminate Htf. }
  destruct Hidx as [Htable _]. rewrite Htable in Htf.
  destruct (KB g !! i) as [d|] eqn:Hd; [|discriminate Htf]. injection Htf as <-.
  unfold tfOf in Hn. rewrite termFreqs_lookup in Hn.
  case_bool_decide as Ht; [|discriminate Hn]. injection Hn as <-.
  rewrite unique_elem in Ht. apply tokenize_long in Ht as Hlen.
  assert (Hchunk : length (chunk d) <= CHUNK_SIZE).
  { unfold sizedChunks in Hsizes. rewrite List.Forall_forall in Hsizes.
    apply Hsizes, in_map. apply list_elem_of_In. eapply list_elem_of_lookup_2. exact Hd. }
  pose proof (termCount_pos t (chunk d)) as Hpos.
  assert (Hbound : termCount t (chunk d) = 1 \/ termCount t (chunk d) * length t <= CHUNK_SIZE).
  { destruct (termCount_bound t (chunk d)) as [|Hb]; [intros ->; cbn in Hlen; lia|now left|].
    right. lia. }
  split; [exact Hlen|]. split; [|exact Hbound].
  unfold CHUNK_SIZE in Hbound. destruct Hbound as [->|Hb]; [lia|]. nia.
Qed.
End ChunkSizes.

Lemma term_frequency_bounds_witness :
  2 <= length (lit "video") /\ 1 <= 1 <= 400
  /\ (1 = 1 \/ 1 * length (lit "video") <= CHUNK_SIZE).
Proof.
  apply (term_frequency_bounds noGlobals demoCrawl 0
           (tfOf (mkChunk (T:=R) 0 demoUrl (lit "en") demoText None)) (lit "video") 1).
  - vm_compute. reflexivity.
  - vm_compute. reflexivity.
Defined.

(** ** A crawl that runs alone *)

Section Alone.
Context {T : Type} `{Number T} `{MathLib T} `{Platform}.

(** The page loop on a list of pages of which only the first ones have
    arrived. *)
Lemma pages_partial (done : list jsstring) (u : jsstring) (rest : list jsstring)
    (docs : list (option jsstring)) (g : Globals T) (n : nat) :
  length docs = length done ->
  fold_left crawlResume (List.map Page docs) (pageLoop g (done ++ u :: rest) n) =
    (mkGlobals (KB g ++ numbered n (piecesOf done docs)) (VOCAB_IDF g) (CHUNK_TF g),
     AwaitPage u rest (n + length (piecesOf done docs))).
Proof.
  revert docs g n. induction done as [|v done IH]; intros [|doc docs] g n Hlen;
    try discriminate Hlen.
  - cbn [List.map app fold_left pageLoop piecesOf zip_with concat numbered imap length].
    rewrite app_nil_r, Nat.add_0_r. now destruct g.
  - cbn [List.map app fold_left pageLoop crawlResume].
    rewrite crawlPage_pieces. rewrite IH by (injection Hlen; auto).
    cbn [KB VOCAB_IDF CHUNK_TF]. unfold piecesOf. cbn [zip_with concat].
    rewrite numbered_app, !length_app, !length_map, <- app_assoc. f_equal. f_equal. lia.
Qed.

Lemma crawlRun_pages (g0 : Globals T) (done : list jsstring) (u : jsstring)
    (rest : list jsstring) (docs : list (option jsstring)) :
  length docs = length done ->
  crawlRun g0 (Urls (done ++ u :: rest) :: List.map Page docs) =
    (mkGlobals (fetchedChunks done docs) ∅ ∅,
     AwaitPage u rest (length (fetchedChunks (T:=T) done docs))).
Proof.
  intros Hlen. unfold crawlRun, crawlStart. cbn [fold_left crawlResume].
  rewrite pages_partial by exact Hlen. cbn [KB VOCAB_IDF CHUNK_TF app].
  unfold fetchedChunks, numbered. now rewrite length_imap.
Qed.

(** The older of two crawls receives its last page after the newer one has
    been started and has received its list of pages. *)
Lemma serverRun_overlap (g0 : Globals T) (older : list CrawlPC) (done : list jsstring)
    (u : jsstring) (docs : list (option jsstring)) (u2 : jsstring) (rest2 : list jsstring)
    (c : N) (doc : jsstring) :
  length docs = length done ->
  let n := length (fetchedChunks (T:=T) done docs) in
  let st := serverRun (g0, older)
              (alone older (Urls (done ++ [u]) :: List.map Page docs)
               ++ [StartCrawl; Settle (S (length older)) (Urls (u2 :: rest2));
                   Settle (length older) (Page (Some (c :: doc)))]) in
  snd st = older ++ [AwaitEmbeddings (chunkTextDefault (c :: doc)) 0; AwaitPage u2 rest2 0]
  /\ List.map id (KB (fst st)) = seq n (length (chunkTextDefault (c :: doc)))
  /\ KB (fst st) <> []
  /\ is_Some (CHUNK_TF (fst st) !! n).
Proof.
  intros Hlen. cbn zeta. rewrite serverRun_app, serverRun_alone.
  rewrite crawlRun_pages by exact Hlen. cbn [fst snd].
  set (n := length (fetchedChunks (T:=T) done docs)).
  unfold serverRun. cbn [fold_left].
  change (serverStep (?g, ?pcs) StartCrawl) with (mkGlobals (T:=T) [] ∅ ∅, pcs ++ [AwaitUrls]).
  replace (S (length older)) with (length (older ++ [AwaitPage u [] n]))
    by (rewrite length_app; cbn; lia).
  rewrite serverStep_last. cbn [crawlResume pageLoop fst snd].
  rewrite <- app_assoc. cbn [app].
  cbn [serverStep]. rewrite list_lookup_middle by reflexivity.
  cbn [crawlResume KB VOCAB_IDF CHUNK_TF]. rewrite crawlPage_pieces. cbn [app pageLoop].
  set (ps := List.map (pair u) (pagePieces (Some (c :: doc)))).
  assert (Hps : List.map snd ps = chunkTextDefault (c :: doc)).
  { unfold ps. rewrite List.map_map. cbn [snd]. now rewrite List.map_id. }
  assert (Hne : 1 <= length (chunkTextDefault (c :: doc))).
  { rewrite chunkTextDefault_chunksOf. cbn [length chunksOf]. lia. }
  assert (Hlps : length ps = length (chunkTextDefault (c :: doc))).
  { now rewrite <- Hps, length_map. }
  set (g := mkGlobals (numbered (T:=T) n ps) ∅ ∅).
  assert (Hkb : KB (sparseIndex g) = numbered n ps) by apply sparseIndex_KB.
  assert (Hlen' : length (numbered (T:=T) n ps) = length ps) by apply length_imap.
  unfold embedLoop. rewrite Hkb, numbered_chunks, Hps.
  destruct (Nat.ltb_spec 0 (length (chunkTextDefault (c :: doc)))) as [_|Hz]; [|lia].
  cbn [fst snd]. rewrite Hkb. split; [|split; [|split]].
  - f_equal. replace (length older) with (length older + 0) by lia.
    now rewrite insert_app_r.
  - now rewrite numbered_ids, Hlps.
  - intros E. rewrite E in Hlen'. change (0 = length ps) in Hlen'. lia.
  - unfold sparseIndex.
    pose proof (indexChunk_fold_tf (KB g) n (CHUNK_TF g) ∅ n) as Htf.
    destruct (fold_left indexChunk (KB g) (CHUNK_TF g, ∅)) as [ctf df].
    cbn [CHUNK_TF fst] in *. rewrite Htf.
    + rewrite decide_True by lia. rewrite Nat.sub_diag.
      destruct (KB g !! 0) as [d|] eqn:E; [eauto|].
      apply lookup_ge_None_1 in E. cbn [KB g] in E. lia.
    + cbn [KB g]. now rewrite numbered_ids, Hlen'.
Qed.
End Alone.

(** C2 (amended). A crawl that runs alone: it is started on any generation
    and with any activations suspended, and from then on no other crawl is
    started or resumed.  Whatever its promises settle to, at each of its
    control points: from its start the previous generation is gone and the
    identifiers are [0, 1, 2, ...]; while it awaits a page both lexical
    tables are empty and no chunk has a vector, so that every query gets
    the empty context; from the first embedding request on, and when it has
    ended or failed, the tables are exactly the index of the chunks.  While
    it awaits the page after the pages [done], the knowledge base holds
    exactly the chunks of the documents fetched for [done].  The condition
    is needed: when a second crawl is started and receives its list of
    pages while the first awaits its last page, then after that page has
    arrived the second crawl still awaits its first page, with its counter
    at 0, while the knowledge base holds the chunks of the page, numbered
    from the counter of the first crawl on, and the table of the first of
    them. *)
Theorem crawl_phases `{Platform} (g0 : Globals R) (older : list CrawlPC) :
  (forall rs,
     let st := serverRun (g0, older) (alone older rs) in
     let g := fst st in
     exists pc, snd st = older ++ [pc] /\
       List.map id (KB g) = seq 0 (length (KB g)) /\
       match pc with
       | AwaitUrls => KB g = [] /\ VOCAB_IDF g = ∅ /\ CHUNK_TF g = ∅
       | AwaitPage _ _ idCounter =>
           idCounter = length (KB g) /\ VOCAB_IDF g = ∅ /\ CHUNK_TF g = ∅ /\
           Forall (fun d => vec d = None) (KB g) /\
           (forall cos P qv query, retrieveScan cos P g qv query = [])
       | AwaitEmbeddings texts start =>
           texts = List.map chunk (KB g) /\ start < length texts /\ Indexed g
       | Done | Rejected => Indexed g
       end)
  /\ (forall done u rest docs, length docs = length done ->
        serverRun (g0, older) (alone older (Urls (done ++ u :: rest) :: List.map Page docs)) =
          (mkGlobals (fetchedChunks done docs) ∅ ∅,
           older ++ [AwaitPage u rest (length (fetchedChunks (T:=R) done docs))]))
  /\ (forall done u docs u2 rest2 doc, length docs = length done -> doc <> [] ->
        let n := length (fetchedChunks (T:=R) done docs) in
        let st := serverRun (g0, older)
                    (alone older (Urls (done ++ [u]) :: List.map Page docs)
                     ++ [StartCrawl; Settle (S (length older)) (Urls (u2 :: rest2));
                         Settle (length older) (Page (Some doc))]) in
        snd st = older ++ [AwaitEmbeddings (chunkTextDefault doc) 0; AwaitPage u2 rest2 0]
        /\ List.map id (KB (fst st)) = seq n (length (chunkTextDefault doc))
        /\ KB (fst st) <> []
        /\ is_Some (CHUNK_TF (fst st) !! n)).
Proof.
  split; [|split].
  - intros rs. cbn zeta. rewrite serverRun_alone. cbn [fst snd].
    exists (snd (crawlRun g0 rs)). split; [reflexivity|].
    pose proof (crawlRun_inv g0 rs) as [Hids Hpc].
    split; [exact Hids|].
    destruct (snd (crawlRun g0 rs)); try exact Hpc.
    destruct Hpc as (Hc & Hidf & Htf & Hvec). repeat split; try assumption.
    intros cos P qv query. now apply retrieveScan_unindexed.
  - intros done u rest docs Hlen. rewrite serverRun_alone.
    now rewrite crawlRun_pages by exact Hlen.
  - intros done u docs u2 rest2 [|c doc] Hlen Hdoc; [contradiction|].
    now apply serverRun_overlap.
Qed.

Lemma crawl_phases_witness :
  serverRun (noGlobals, [])
      (alone [] (Urls ([demoUrl] ++ (SITE ++ lit "/contact") :: []) :: List.map Page [Some demoText])) =
    (mkGlobals (fetchedChunks [demoUrl] [Some demoText]) ∅ ∅,
     [] ++ [AwaitPage (SITE ++ lit "/contact") []
              (length (fetchedChunks (T:=R) [demoUrl] [Some demoText]))])
  /\ (let st := serverRun (noGlobals, [])
                  (alone [] (Urls ([demoUrl] ++ [SITE ++ lit "/contact"])
                               :: List.map Page [Some demoText])
                   ++ [StartCrawl; Settle (S (length (@nil CrawlPC))) (Urls (demoUrl :: []));
                       Settle (length (@nil CrawlPC)) (Page (Some demoText))]) in
      List.map id (KB (fst st)) = seq 1 (length (chunkTextDefault demoText))).
Proof.
  destruct (crawl_phases noGlobals []) as (_ & Hpages & Hover). split.
  - apply (Hpages [demoUrl] (SITE ++ lit "/contact") [] [Some demoText]). reflexivity.
  - apply (Hover [demoUrl] (SITE ++ lit "/contact") [Some demoText] demoUrl [] demoText);
      [reflexivity|discriminate].
Defined.

(** ** What the status route reports *)

(** X12. What [/kb-status] reports during a crawl that runs alone (started
    on any generation and with any activations suspended, no other crawl
    started or resumed since): never more embedded chunks than chunks; no
    embedded chunk and an empty vocabulary as long as pages are being
    fetched; and, from the moment the sparse index is built, as vocabulary
    the number of distinct tokens of the chunks. *)
Theorem kb_status_of_crawl {T : Type} `{Number T} `{MathLib T} `{Platform}
    (g0 : Globals T) (older : list CrawlPC) (rs : list (Response T)) :
  let st := serverRun (g0, older) (alone older rs) in
  let s := kbStatus (fst st) in
  exists pc, snd st = older ++ [pc]
  /\ chunks s = length (KB (fst st))
  /\ embedded s <= chunks s
  /\ (indexedPC pc -> vocab s = length (vocabulary (KB (fst st))))
  /\ (~ indexedPC pc -> embedded s = 0 /\ vocab s = 0).
Proof.
  cbn zeta. rewrite serverRun_alone. pose proof (crawlRun_inv g0 rs) as [_ Hpc].
  destruct (crawlRun g0 rs) as [g pc]. cbn [fst snd] in *.
  exists pc. split; [reflexivity|].
  unfold kbStatus. cbn [chunks embedded vocab].
  split; [reflexivity|]. split; [apply List.filter_length_le|]. split.
  - intros Hidx. apply vocab_size. destruct pc; try contradiction; tauto.
  - intros Hno. destruct pc; try (exfalso; apply Hno; exact I).
    + destruct Hpc as (-> & -> & _). split; reflexivity.
    + destruct Hpc as (_ & -> & _ & Hvec). split; [|reflexivity].
      rewrite filter_none; [reflexivity|].
      eapply List.Forall_impl; [|exact Hvec]. intros d Hd. cbn beta. now rewrite Hd.
Qed.

(** ** URL discovery *)

Lemma dropWhile_idem {A} (f : A -> bool) (l : list A) :
  dropWhile f (dropWhile f l) = dropWhile f l.
Proof.
  induction l as [|x l IH]; [reflexivity|]. cbn [dropWhile].
  destruct (f x) eqn:E; [exact IH|]. cbn [dropWhile]. now rewrite E.
Qed.

Lemma dropEnd_idem {A} (f : A -> bool) (l : list A) : dropEnd f (dropEnd f l) = dropEnd f l.
Proof. unfold dropEnd. now rewrite rev_involutive, dropWhile_idem. Qed.

Lemma setAdd_elem (set : list jsstring) (u x : jsstring) :
  x ∈ setAdd set u <-> x ∈ set \/ x = u.
Proof.
  unfold setAdd. case_bool_decide as Hu.
  - split; [tauto|]. intros [?| ->]; assumption.
  - rewrite elem_of_app, list_elem_of_singleton. tauto.
Qed.

Lemma setAdd_NoDup (set : list jsstring) (u : jsstring) : NoDup set -> NoDup (setAdd set u).
Proof.
  intros Hnd. unfold setAdd. case_bool_decide as Hu; [exact Hnd|].
  apply NoDup_app. split; [exact Hnd|]. split; [|apply NoDup_singleton].
  intros x Hx Hx'. apply list_elem_of_singleton in Hx'. now subst.
Qed.

Lemma setAdd_length (set : list jsstring) (u : jsstring) :
  length (setAdd set u) <= S (length set).
Proof. unfold setAdd. case_bool_decide; [lia|]. rewrite length_app. cbn. lia. Qed.

Section DiscoveryFacts.
Context `{Platform}.
Variable excluded : jsstring -> bool.

Lemma sitemapLoop_NoDup (locs set : list jsstring) :
  NoDup set -> NoDup (sitemapLoop excluded locs set).
Proof.
  revert set. induction locs as [|m1 locs IH]; intros set Hnd; cbn [sitemapLoop]; [exact Hnd|].
  destruct (urlPathname _); [|exact Hnd].
  destruct (excluded _); [now apply IH|].
  destruct (startsWith _ SITE); apply IH; [now apply setAdd_NoDup|exact Hnd].
Qed.

Lemma sitemapLoop_length (locs set : list jsstring) :
  length (sitemapLoop excluded locs set) <= length set + length locs.
Proof.
  revert set. induction locs as [|m1 locs IH]; intros set; cbn [sitemapLoop length]; [lia|].
  destruct (urlPathname _); [|lia].
  destruct (excluded _); [specialize (IH set); lia|].
  destruct (startsWith _ SITE).
  - specialize (IH (setAdd set (stripTrailingSlashes (trim m1)))).
    pose proof (setAdd_length set (stripTrailingSlashes (trim m1))). lia.
  - specialize (IH set). lia.
Qed.

Lemma sitemapLoop_elem (locs set : list jsstring) (x : jsstring) :
  x ∈ sitemapLoop excluded locs set ->
  x ∈ set \/
  (startsWith x SITE = true /\
   exists m1 p, m1 ∈ locs /\ x = stripTrailingSlashes (trim m1)
     /\ urlPathname x = Some p /\ excluded (stripLeadingSlashes p) = false).
Proof.
  revert set. induction locs as [|m1 locs IH]; intros set; cbn [sitemapLoop]; [now left|].
  assert (Hrec : x ∈ sitemapLoop excluded locs set ->
    x ∈ set \/
    (startsWith x SITE = true /\
     exists m0 p, m0 ∈ m1 :: locs /\ x = stripTrailingSlashes (trim m0)
       /\ urlPathname x = Some p /\ excluded (stripLeadingSlashes p) = false)).
  { intros Hx. destruct (IH _ Hx) as [?|(Hs & m0 & p & Hm & Hrest)]; [now left|].
    right. split; [exact Hs|]. exists m0, p. split; [now right|exact Hrest]. }
  destruct (urlPathname (stripTrailingSlashes (trim m1))) as [p|] eqn:Hp; [|now left].
  destruct (excluded (stripLeadingSlashes p)) eqn:Hex; [exact Hrec|].
  destruct (startsWith (stripTrailingSlashes (trim m1)) SITE) eqn:Hs; [|exact Hrec].
  intros Hx. destruct (IH _ Hx) as [Hin|(Hs' & m0 & p' & Hm & Hrest)].
  - apply setAdd_elem in Hin as [?| ->]; [now left|]. right. split; [exact Hs|].
    exists m1, p. split; [now left|]. auto.
  - right. split; [exact Hs'|]. exists m0, p'. split; [now right|exact Hrest].
Qed.

Lemma fallbacks_fold (set : list jsstring) (ps : list jsstring) :
  let set' := fold_left (fun set p => setAdd set (resolveFallback p)) ps set in
  (NoDup set -> NoDup set')
  /\ (forall x, x ∈ set' <-> x ∈ set \/ x ∈ List.map resolveFallback ps)
  /\ length set' <= length set + length ps.
Proof.
  cbn zeta. revert set. induction ps as [|p ps IH]; intros set; cbn [fold_left List.map length].
  - split; [auto|]. split; [|lia]. intros x. rewrite elem_of_nil. tauto.
  - destruct (IH (setAdd set (resolveFallback p))) as (Hnd & Hel & Hlen).
    split; [intros ?; now apply Hnd, setAdd_NoDup|]. split.
    + intros x. rewrite Hel, setAdd_elem, elem_of_cons. tauto.
    + pose proof (setAdd_length set (resolveFallback p)). lia.
Qed.

(** X13. The URLs to crawl: no URL twice, at most [MAX_PAGES] of them; each
    is a URL of the site without a slash at its end, and is one of the eight
    fixed pages or was listed in the sitemap with a path that the language
    test lets through.  When the sitemap lists at most 112 pages, all of the
    eight fixed pages are among them. *)
Theorem getSitemapUrls_spec (sitemap : option jsstring) :
  let urls := getSitemapUrlsWith excluded sitemap in
  NoDup urls
  /\ length urls <= MAX_PAGES
  /\ (forall u, u ∈ urls ->
        startsWith u SITE = true /\ stripTrailingSlashes u = u
        /\ (u ∈ fallbackUrls \/ exists xml, sitemap = Some xml /\ listed excluded xml u))
  /\ (from_option (fun xml => length (locScan 0 xml) + 8 <= MAX_PAGES) True sitemap ->
      forall u, u ∈ fallbackUrls -> u ∈ urls).
Proof.
  cbn zeta. unfold getSitemapUrlsWith.
  set (set0 := match sitemap with
               | Some xml => sitemapLoop excluded (locScan 0 xml) []
               | None => []
               end).
  destruct (fallbacks_fold set0 fallbackPaths) as (Hnd & Hel & Hlen).
  set (set1 := fold_left (fun set p => setAdd set (resolveFallback p)) fallbackPaths set0) in *.
  assert (Hnd0 : NoDup set0).
  { unfold set0. destruct sitemap; [apply sitemapLoop_NoDup|]; constructor. }
  assert (Hfb : forall u, u ∈ fallbackUrls ->
            startsWith u SITE = true /\ stripTrailingSlashes u = u).
  { intros u Hu. unfold fallbackUrls, fallbackPaths in Hu. rewrite !List.map_cons in Hu.
    repeat (apply elem_of_cons in Hu as [->|Hu]; [split; vm_compute; reflexivity|]).
    now apply elem_of_nil in Hu. }
  split; [|split; [|split]].
  - specialize (Hnd Hnd0). rewrite <- (take_drop MAX_PAGES set1) in Hnd.
    now apply NoDup_app in Hnd as [? _].
  - rewrite length_take. lia.
  - intros u Hu. apply elem_of_take in Hu as (i & Hu & _).
    apply list_elem_of_lookup_2, Hel in Hu as [Hu|Hu].
    + unfold set0 in Hu. destruct sitemap as [xml|]; [|now apply elem_of_nil in Hu].
      apply sitemapLoop_elem in Hu as [Hu|(Hs & m1 & p & Hm & Hx & Hp & Hex)];
        [now apply elem_of_nil in Hu|].
      split; [exact Hs|]. split.
      * rewrite Hx. apply dropEnd_idem.
      * right. exists xml. split; [reflexivity|]. exists m1, p. auto.
    + destruct (Hfb u Hu) as [Hs Hstrip]. split; [exact Hs|]. split; [exact Hstrip|now left].
  - intros Hroom u Hu.
    assert (Hin : u ∈ set1) by (apply Hel; now right).
    apply list_elem_of_lookup in Hin as [i Hi].
    apply elem_of_take. exists i. split; [exact Hi|].
    apply lookup_lt_Some in Hi.
    assert (length set0 + 8 <= MAX_PAGES).
    { unfold set0. destruct sitemap as [xml|]; cbn [from_option] in Hroom.
      - pose proof (sitemapLoop_length (locScan 0 xml) []). cbn [length] in *. lia.
      - cbn. unfold MAX_PAGES. lia. }
    change (length fallbackPaths) with 8 in Hlen. lia.
Qed.

(** X14. A sitemap entry that is not a valid URL ends the reading of the
    sitemap: the entries after it are ignored, whatever they are. *)
Theorem sitemap_invalid_entry (locs1 locs2 : list jsstring) (m1 : jsstring)
    (set : list jsstring) :
  urlPathname (stripTrailingSlashes (trim m1)) = None ->
  sitemapLoop excluded (locs1 ++ m1 :: locs2) set = sitemapLoop excluded locs1 set.
Proof.
  intros Hbad. revert set. induction locs1 as [|m0 locs1 IH]; intros set.
  - cbn [app sitemapLoop]. now rewrite Hbad.
  - cbn [app sitemapLoop].
    destruct (urlPathname (stripTrailingSlashes (trim m0))); [|reflexivity].
    destruct (excluded _); [apply IH|]. destruct (startsWith _ SITE); apply IH.
Qed.
End DiscoveryFacts.

Lemma getSitemapUrls_spec_witness :
  NoDup (CurDiscovery.getSitemapUrls (Some filmSitemap))
  /\ length (CurDiscovery.getSitemapUrls (Some filmSitemap)) <= MAX_PAGES.
Proof.
  destruct (getSitemapUrls_spec CurDiscovery.excluded (Some filmSitemap)) as (Hnd & Hlen & _).
  split; [exact Hnd|exact Hlen].
Defined.

Lemma sitemap_invalid_entry_witness :
  sitemapLoop CurDiscovery.excluded
    ([SITE ++ lit "/services"] ++ lit "not a url" :: [SITE ++ lit "/about-us"]) []
  = sitemapLoop CurDiscovery.excluded [SITE ++ lit "/services"] [].
Proof.
  apply (sitemap_invalid_entry CurDiscovery.excluded [SITE ++ lit "/services"]
           [SITE ++ lit "/about-us"] (lit "not a url") []).
  reflexivity.
Defined.

(** ** The range of the score *)

Lemma tanh_bounds (x : R) : (-1 < tanh x < 1)%R.
Proof.
  unfold tanh, sinh, cosh.
  pose proof (exp_pos x) as Hp. pose proof (exp_pos (- x)) as Hn.
  set (p := exp x) in *. set (n := exp (- x)) in *.
  replace ((p - n) / 2 / ((p + n) / 2))%R with ((p - n) / (p + n))%R by (field; lra).
  split.
  - apply Rmult_lt_reg_r with (r := (p + n)%R); [lra|].
    unfold Rdiv. rewrite Rmult_assoc, Rinv_l by lra. lra.
  - apply Rmult_lt_reg_r with (r := (p + n)%R); [lra|].
    unfold Rdiv. rewrite Rmult_assoc, Rinv_l by lra. lra.
Qed.

Lemma tanh_nonneg (x : R) : (0 <= x)%R -> (0 <= tanh x)%R.
Proof.
  intros Hx. unfold tanh, sinh, cosh.
  pose proof (exp_pos x) as Hp. pose proof (exp_pos (- x)) as Hn.
  assert (Hle : (exp (- x) <= exp x)%R).
  { destruct (Req_dec x 0) as [->|Hne]; [rewrite Ropp_0; lra|].
    left. apply exp_increasing. lra. }
  set (p := exp x) in *. set (n := exp (- x)) in *.
  replace ((p - n) / 2 / ((p + n) / 2))%R with ((p - n) / (p + n))%R by (field; lra).
  unfold Rdiv. apply Rmult_le_pos; [lra|]. left. apply Rinv_0_lt_compat. lra.
Qed.


(** The inequality of Cauchy and Schwarz for the accumulators of [cosine]. *)
Lemma real_zipLoop_cs (a b : list R) (d x y : R) :
  (d * d <= x * y)%R -> (0 <= x)%R -> (0 <= y)%R ->
  let '(d', x', y') := zipLoop a b d x y in
  (d' * d' <= x' * y')%R /\ (0 <= x')%R /\ (0 <= y')%R.
Proof.
  revert b d x y. induction a as [|u a IH]; intros [|v b] d x y Hd Hx Hy;
    cbn [zipLoop]; auto.
  apply IH; cbn [add mul real_Number].
  - assert (Hmix : (2 * (d * (u * v)) <= x * (v * v) + y * (u * u))%R).
    { destruct (Rle_dec (2 * (d * (u * v))) 0) as [Hneg|Hpos].
      - assert (0 <= x * (v * v))%R by (apply Rmult_le_pos; nra).
        assert (0 <= y * (u * u))%R by (apply Rmult_le_pos; nra). lra.
      - apply Rnot_le_lt in Hpos.
        assert (Hsq : ((2 * (d * (u * v))) * (2 * (d * (u * v)))
                       <= (x * (v * v) + y * (u * u)) * (x * (v * v) + y * (u * u)))%R).
        { assert (((d * d) * ((u * u) * (v * v)) <= (x * y) * ((u * u) * (v * v))))%R.
          { apply Rmult_le_compat_r; [|exact Hd]. apply Rmult_le_pos; nra. }
          pose proof (Rle_0_sqr (x * (v * v) - y * (u * u))) as Hs. unfold Rsqr in Hs.
          lra. }
        assert (0 <= x * (v * v) + y * (u * u))%R.
        { assert (0 <= x * (v * v))%R by (apply Rmult_le_pos; nra).
          assert (0 <= y * (u * u))%R by (apply Rmult_le_pos; nra). lra. }
        nra. }
    nra.
  - nra.
  - nra.
Qed.

Lemma real_cosine_bounds (cos : list R -> list R -> R) (a b : list R) :
  cos = Prev.cosine \/ cos = Cur.cosine -> length a = length b ->
  (-1 <= cos a b <= 1)%R.
Proof.
  intros Hcos Hlen.
  assert (Hboth : Cur.cosine a b = Prev.cosine a b) by reflexivity.
  assert (Hprev : (-1 <= Prev.cosine a b <= 1)%R).
  { unfold Prev.cosine. rewrite cosineLoop_zip0 by exact Hlen.
    pose proof (real_zipLoop_cs a b 0 0 0) as Hcs.
    change (ofNat 0 : R) with 0%R.
    destruct (zipLoop a b 0%R 0%R 0%R) as [[d x] y].
    destruct Hcs as (Hd & Hx & Hy); try lra.
    cbn [isZero real_Number div mul Math_sqrt].
    destruct (Reqb0 x) eqn:Ex; [cbn; lra|]. destruct (Reqb0 y) eqn:Ey; [cbn; lra|].
    cbn [orb]. apply Reqb0_false in Ex, Ey.
    assert (Hsx : (0 < R_sqrt.sqrt x)%R) by (apply sqrt_lt_R0; lra).
    assert (Hsy : (0 < R_sqrt.sqrt y)%R) by (apply sqrt_lt_R0; lra).
    set (n := (R_sqrt.sqrt x * R_sqrt.sqrt y)%R).
    assert (Hn : (0 < n)%R) by (apply Rmult_lt_0_compat; assumption).
    assert (Hnn : (n * n = x * y)%R).
    { unfold n. transitivity ((R_sqrt.sqrt x * R_sqrt.sqrt x)
                              * (R_sqrt.sqrt y * R_sqrt.sqrt y))%R; [ring|].
      now rewrite !sqrt_sqrt by lra. }
    assert (Hdn : (- n <= d <= n)%R) by (split; nra).
    split.
    - apply Rmult_le_reg_r with (r := n); [exact Hn|].
      unfold Rdiv. rewrite Rmult_assoc, Rinv_l by lra. lra.
    - apply Rmult_le_reg_r with (r := n); [exact Hn|].
      unfold Rdiv. rewrite Rmult_assoc, Rinv_l by lra. lra. }
  destruct Hcos as [-> | ->]; [exact Hprev|now rewrite Hboth].
Qed.

Lemma contribution_nonneg (idf : R) (f : nat) : (0 <= idf)%R -> (0 <= contribution idf f)%R.
Proof.
  intros Hidf. unfold contribution. pose proof (pos_INR f) as Hf. decimals.
  unfold Rdiv. apply Rmult_le_pos; [nra|]. left. apply Rinv_0_lt_compat. lra.
Qed.


Lemma sumOver_nonneg (f : jsstring -> R) (terms : list jsstring) :
  (forall t, 0 <= f t)%R -> (0 <= sumOver f terms)%R.
Proof.
  intros Hf. induction terms as [|t terms IH]; cbn [sumOver fold_right]; [lra|].
  specialize (Hf t). unfold sumOver in IH. lra.
Qed.


Section ScoreFacts.
Context `{Platform}.

(** The weights of a crawl are positive. *)
Lemma crawl_weights_positive (g0 : Globals R) (rs : list (Response R)) (t : jsstring) (v : R) :
  VOCAB_IDF (fst (crawlRun g0 rs)) !! t = Some v -> (0 < v)%R.
Proof.
  pose proof (crawlRun_inv g0 rs) as [_ Hpc].
  destruct (crawlRun g0 rs) as [g pc]. cbn [fst snd] in *. intros Hv.
  assert (Hidx : Indexed g).
  { destruct pc; try tauto.
    - destruct Hpc as (_ & E & _). rewrite E in Hv. discriminate Hv.
    - destruct Hpc as (_ & E & _). rewrite E in Hv. discriminate Hv. }
  destruct Hidx as [_ Hidf]. rewrite Hidf in Hv.
  pose proof (docFreq_le t (KB g)) as Hle.
  destruct (docFreq t (KB g)) as [|n] eqn:E; [discriminate|]. injection Hv as <-.
  unfold generationSize. destruct (Nat.eqb_spec (length (KB g)) 0) as [Hz|_]; [lia|].
  apply (idf_positive (length (KB g)) (S n)). lia.
Qed.

Lemma orZero_nonneg (x : option R) :
  (forall v, x = Some v -> 0 < v)%R -> (0 <= orZero x)%R.
Proof.
  intros Hx. destruct x as [v|]; cbn; [|lra].
  specialize (Hx v eq_refl). destruct (Reqb0 v); lra.
Qed.

Lemma crawl_sparse_nonneg (P : R -> R -> R) (g0 : Globals R) (rs : list (Response R))
    (terms : list jsstring) (d : Chunk R) :
  P = PrevRetrieval.termProduct \/ P = CurRetrieval.termProduct ->
  (0 <= sparseOf P (fst (crawlRun g0 rs)) terms d)%R.
Proof.
  intros HP. unfold sparseOf.
  destruct (CHUNK_TF (fst (crawlRun g0 rs)) !! id d) as [tf|]; [|cbn; lra].
  rewrite addTerm_fold by exact HP. change (ofNat 0 : R) with 0%R. rewrite Rplus_0_l.
  apply sumOver_nonneg. intros t. apply contribution_nonneg, orZero_nonneg.
  intros v. apply crawl_weights_positive.
Qed.

(** X15. Over the reals, in every state a crawl reaches and for either
    file, the score of a chunk whose vector has the length of the query
    vector lies between -0.7 and 1 (1 excluded): the cosine lies between -1
    and 1, the lexical sum is not negative and its [tanh] stays below 1. *)
Theorem score_range (cos : list R -> list R -> R) (P : R -> R -> R)
    (g0 : Globals R) (rs : list (Response R)) (qv : list R) (terms : list jsstring)
    (d : Chunk R) :
  IsVersion cos P ->
  (forall v, vec d = Some v -> length qv = length v) ->
  let g := fst (crawlRun g0 rs) in
  (-1 <= denseOf cos qv d <= 1)%R
  /\ (0 <= sparseOf P g terms d)%R
  /\ (-0.7 <= scoreOf cos P g qv terms d < 1)%R.
Proof.
  intros Hv Hlen. cbn zeta.
  assert (Hdense : (-1 <= denseOf cos qv d <= 1)%R).
  { unfold denseOf. destruct (vec d) as [v|]; [|cbn; lra].
    apply real_cosine_bounds; [|now apply Hlen].
    destruct Hv as [[-> _]|[-> _]]; auto. }
  pose proof (crawl_sparse_nonneg P g0 rs terms d (IsVersion_product cos P Hv)) as Hsparse.
  split; [exact Hdense|]. split; [exact Hsparse|].
  unfold scoreOf. cbn [mul add c_0_7 c_0_3 real_Number Math_tanh real_MathLib].
  pose proof (tanh_bounds (sparseOf P (fst (crawlRun g0 rs)) terms d)) as Hb.
  pose proof (tanh_nonneg _ Hsparse) as Hn.
  decimals. lra.
Qed.

End ScoreFacts.

Lemma score_range_witness :
  let g := fst (crawlRun noGlobals demoCrawl) in
  let d := mkChunk 0 demoUrl (lit "en") demoText None in
  (-1 <= denseOf Cur.cosine [1%R] d <= 1)%R
  /\ (0 <= sparseOf CurRetrieval.termProduct g [lit "video"] d)%R
  /\ (-0.7 <= scoreOf Cur.cosine CurRetrieval.termProduct g [1%R] [lit "video"] d < 1)%R.
Proof.
  apply (score_range Cur.cosine CurRetrieval.termProduct noGlobals demoCrawl [1%R]
           [lit "video"] (mkChunk 0 demoUrl (lit "en") demoText None)).
  - right. split; reflexivity.
  - intros v E. discriminate E.
Defined.


(** ** The two cosines in double arithmetic *)

Lemma double_is_nan (x : float) : PrimFloat.is_nan x = true <-> Prim2SF x = S754_nan.
Proof.
  unfold PrimFloat.is_nan. rewrite negb_true_iff, FloatAxioms.eqb_spec.
  destruct (Prim2SF x) as [s|s| |s m e] eqn:E; cbn.
  - split; [destruct s|]; discriminate.
  - split; [destruct s|]; discriminate.
  - tauto.
  - split; [|discriminate]. destruct s; cbn; rewrite ?Z.compare_refl, ?Pos.compare_refl,
      ?Pos.compare_cont_refl; discriminate.
Qed.

Lemma double_sqrt_nan (x : float) :
  PrimFloat.is_nan x = true -> PrimFloat.is_nan (PrimFloat.sqrt x) = true.
Proof.
  rewrite !double_is_nan, sqrt_spec. intros ->. reflexivity.
Qed.

Lemma double_mul_nan (x y : float) :
  PrimFloat.is_nan x = true \/ PrimFloat.is_nan y = true ->
  PrimFloat.is_nan (PrimFloat.mul x y) = true.
Proof.
  rewrite !double_is_nan, mul_spec. unfold SF64mul, SFmul.
  intros [-> | ->]; [reflexivity|]. now destruct (Prim2SF x).
Qed.

Lemma double_div_nan (x y : float) :
  PrimFloat.is_nan y = true -> PrimFloat.is_nan (PrimFloat.div x y) = true.
Proof.
  rewrite !double_is_nan, div_spec. unfold SF64div, SFdiv.
  intros ->. now destruct (Prim2SF x).
Qed.

(** X4. In double arithmetic the two [cosine]s return the same number
    unless a squared norm is NaN; then the second file returns 0, and the
    first file returns NaN (0 if the other norm is zero). *)
Theorem cosine_versions_double (a b : list float) :
  let '(_, na, nb) := cosineLoop a b 0 (ofNat 0) (ofNat 0) (ofNat 0) in
  if (PrimFloat.is_nan na || PrimFloat.is_nan nb)%bool then
    Cur.cosine a b = 0%float
    /\ (if (isZero na || isZero nb)%bool then Prev.cosine a b = 0%float
        else PrimFloat.is_nan (Prev.cosine a b) = true)
  else Prev.cosine a b = Cur.cosine a b.
Proof.
  unfold Prev.cosine, Cur.cosine.
  destruct (cosineLoop a b 0 (ofNat 0) (ofNat 0) (ofNat 0)) as [[dot na] nb].
  cbn [falsy double_Number].
  destruct (PrimFloat.is_nan na) eqn:Ea; cbn [orb].
  - rewrite orb_true_r. cbn [orb]. split; [reflexivity|].
    destruct (isZero na || isZero nb)%bool; [reflexivity|].
    cbn [div mul Math_sqrt double_Number].
    apply double_div_nan, double_mul_nan. left. now apply double_sqrt_nan.
  - destruct (PrimFloat.is_nan nb) eqn:Eb.
    + rewrite !orb_true_r. split; [reflexivity|].
      destruct (isZero na || isZero nb)%bool; [reflexivity|].
      cbn [div mul Math_sqrt double_Number].
      apply double_div_nan, double_mul_nan. right. now apply double_sqrt_nan.
    + cbn [isZero double_Number]. now rewrite !orb_false_r.
Qed.

(** * The text of a page *)

(** ** Replacement *)

Lemma replaceLoop_skip (here : jsstring -> option jsstring) (rep : jsstring)
    (n : nat) (s : jsstring) :
  n <= length s -> replaceLoop here rep n s = replaceLoop here rep 0 (drop n s).
Proof.
  revert s. induction n as [|n IH]; intros s Hn; [reflexivity|].
  destruct s as [|c s]; [cbn in Hn; lia|]. cbn [replaceLoop drop]. apply IH.
  cbn in Hn. lia.
Qed.

(** After a match of at least one character the replacement goes on with
    what is left. *)
Lemma replaceAll_match (here : jsstring -> option jsstring) (rep m rest : jsstring) :
  m <> [] -> here (m ++ rest) = Some rest ->
  replaceAll here rep (m ++ rest) = rep ++ replaceAll here rep rest.
Proof.
  intros Hm Hhere. unfold replaceAll. destruct m as [|c m]; [contradiction|].
  cbn [app replaceLoop]. cbn [app] in Hhere. rewrite Hhere.
  cbn [length]. rewrite length_app.
  replace (S (length m + length rest) - length rest) with (S (length m)) by lia.
  cbn [Nat.eqb]. replace (S (length m) - 1) with (length m) by lia.
  rewrite replaceLoop_skip by (rewrite length_app; lia).
  now rewrite drop_app_length.
Qed.

Lemma replaceAll_none (here : jsstring -> option jsstring) (rep : jsstring)
    (c : N) (s : jsstring) :
  here (c :: s) = None -> replaceAll here rep (c :: s) = c :: replaceAll here rep s.
Proof. intros Hhere. unfold replaceAll. cbn [replaceLoop]. now rewrite Hhere. Qed.

Lemma replaceAll_nil (here : jsstring -> option jsstring) (rep : jsstring) :
  here [] = None -> replaceAll here rep [] = [].
Proof. intros Hhere. unfold replaceAll. cbn [replaceLoop]. now rewrite Hhere. Qed.

(** A text in which the expression matches nowhere is left as it is. *)
Lemma replaceAll_id (here : jsstring -> option jsstring) (rep s : jsstring) :
  (forall n, here (drop n s) = None) -> replaceAll here rep s = s.
Proof.
  induction s as [|c s IH]; intros Hnone.
  - apply replaceAll_nil. apply (Hnone 0).
  - rewrite replaceAll_none by apply (Hnone 0). f_equal. apply IH.
    intros n. apply (Hnone (S n)).
Qed.

(** ** The matchers of [stripHtml] *)

Lemma takeWhile_dropWhile {A} (f : A -> bool) (l : list A) :
  takeWhile f l ++ dropWhile f l = l.
Proof.
  induction l as [|x l IH]; [reflexivity|]. cbn [takeWhile dropWhile].
  destruct (f x); [cbn; now rewrite IH|reflexivity].
Qed.

(** A greedy run before a continuation that rejects every text starting in
    the class: the whole run is taken. *)
Lemma greedy_run {A} (f : N -> bool) (min : nat) (k : jsstring -> option A) (s : jsstring) :
  (forall d s', f d = true -> k (d :: s') = None) ->
  greedy f min k s =
    if min <=? length (takeWhile f s) then k (dropWhile f s) else None.
Proof.
  intros Hk. revert min. induction s as [|d s IH]; intros min; cbn [greedy takeWhile dropWhile].
  - cbn [length]. now destruct min.
  - destruct (f d) eqn:Hd.
    + rewrite IH. cbn [length]. destruct min as [|min]; cbn [pred Nat.eqb Nat.leb].
      * destruct (k (dropWhile f s)); [reflexivity|]. now apply Hk.
      * now destruct (min <=? length (takeWhile f s)), (k (dropWhile f s)).
    + cbn [length]. now destruct min.
Qed.

Lemma one_exact {A} (c : N) (k : jsstring -> option A) (s : jsstring) :
  one false c k s = match s with d :: s' => if N.eqb c d then k s' else None | [] => None end.
Proof. reflexivity. Qed.

Lemma existsb_dropWhile_notGt (s : jsstring) :
  existsb (N.eqb 62) s = match dropWhile notGt s with [] => false | _ :: _ => true end.
Proof.
  induction s as [|d s IH]; [reflexivity|]. cbn [existsb dropWhile]. unfold notGt at 1.
  rewrite (N.eqb_sym 62 d). destruct (N.eqb d 62); [reflexivity|]. exact IH.
Qed.

Lemma dropWhile_notGt_head (s : jsstring) :
  match dropWhile notGt s with d :: _ => d = 62%N | [] => True end.
Proof.
  induction s as [|d s IH]; [exact I|]. cbn [dropWhile]. unfold notGt at 1.
  destruct (N.eqb_spec d 62) as [->|]; [reflexivity|exact IH].
Qed.

Lemma reTag_spec (s : jsstring) :
  reTag s = if tagAt s then Some (tail (dropWhile notGt s)) else None.
Proof.
  unfold reTag. rewrite one_exact. destruct s as [|c s]; [reflexivity|].
  destruct (N.eqb_spec 60 c) as [<-|Hc].
  - rewrite greedy_run.
    + change (dropWhile notGt (60%N :: s)) with (dropWhile notGt s).
      destruct s as [|d s]; [reflexivity|].
      change (tagAt (60%N :: d :: s)) with (negb (N.eqb d 62) && existsb (N.eqb 62) s).
      cbn [takeWhile dropWhile].
      assert (Hn : notGt d = negb (N.eqb d 62)) by reflexivity. rewrite Hn.
      destruct (N.eqb_spec d 62) as [->|Hd]; [reflexivity|].
      cbn [negb length Nat.leb andb].
      rewrite existsb_dropWhile_notGt. pose proof (dropWhile_notGt_head s) as Hh.
      destruct (dropWhile notGt s) as [|e r]; [reflexivity|]. subst e. reflexivity.
    + intros d s' Hd. rewrite one_exact. unfold notGt in Hd.
      rewrite N.eqb_sym. now destruct (N.eqb d 62).
  - unfold tagAt. destruct c as [|p]; [reflexivity|].
    do 6 (destruct p as [p|p|]; try reflexivity). contradiction.
Qed.

Lemma tagAt_cons (c : N) (x : jsstring) :
  tagAt (c :: x) =
    N.eqb c 60 && match x with
                  | d :: s' => negb (N.eqb d 62) && existsb (N.eqb 62) s'
                  | [] => false
                  end.
Proof.
  destruct (N.eqb_spec c 60) as [->|Hc]; [reflexivity|].
  unfold tagAt. destruct c as [|p]; [reflexivity|].
  do 6 (destruct p as [p|p|]; try reflexivity). contradiction.
Qed.

Lemma tagAt_has_gt (x : jsstring) : tagAt x = true -> existsb (N.eqb 62) x = true.
Proof.
  destruct x as [|c [|d x]]; try discriminate.
  - rewrite tagAt_cons, andb_false_r. discriminate.
  - rewrite tagAt_cons. intros Ht. apply andb_prop in Ht as [_ Ht].
    apply andb_prop in Ht as [_ Ht]. cbn [existsb]. rewrite Ht. now rewrite !orb_true_r.
Qed.

Lemma existsb_drop {A} (f : A -> bool) (n : nat) (l : list A) :
  existsb f l = false -> existsb f (drop n l) = false.
Proof.
  revert n. induction l as [|x l IH]; intros [|n] Hl; try reflexivity; [exact Hl|].
  cbn [existsb] in Hl. apply orb_false_elim in Hl as [_ Hl]. cbn [drop]. now apply IH.
Qed.

Lemma reTag_no_gt (s : jsstring) :
  existsb (N.eqb 62) s = false -> replaceAll reTag space s = s.
Proof.
  intros Hs. apply replaceAll_id. intros n. rewrite reTag_spec.
  destruct (tagAt (drop n s)) eqn:Ht; [|reflexivity].
  apply tagAt_has_gt in Ht. now rewrite existsb_drop in Ht.
Qed.

(** The text of a tag: up to and including its [>]. *)
Lemma tagAt_split (s : jsstring) :
  tagAt s = true ->
  exists m, m <> [] /\ s = m ++ tail (dropWhile notGt s).
Proof.
  intros Ht. exists (takeWhile notGt s ++ [62%N]). split; [now destruct (takeWhile notGt s)|].
  apply tagAt_has_gt in Ht. rewrite existsb_dropWhile_notGt in Ht.
  pose proof (dropWhile_notGt_head s) as Hh. pose proof (takeWhile_dropWhile notGt s) as Hs.
  destruct (dropWhile notGt s) as [|e r]; [discriminate|]. subst e.
  cbn [tail]. rewrite <- app_assoc. cbn [app]. now symmetry.
Qed.

Lemma noTag_replace_tags (s : jsstring) : noTag (replaceAll reTag space s) = true.
Proof.
  remember (length s) as n eqn:Hn. assert (Hle : length s <= n) by lia. clear Hn.
  revert s Hle. induction n as [|n IH]; intros s Hle.
  - destruct s; [|cbn in Hle; lia]. reflexivity.
  - destruct s as [|c s]; [reflexivity|].
    destruct (tagAt (c :: s)) eqn:Ht.
    + destruct (tagAt_split _ Ht) as (m & Hm & Hs).
      set (rest := tail (dropWhile notGt (c :: s))) in *.
      rewrite Hs, replaceAll_match; [| exact Hm | rewrite <- Hs, reTag_spec, Ht; reflexivity].
      cbn [space app noTag]. rewrite tagAt_cons. cbn [N.eqb Pos.eqb andb negb].
      apply IH. apply (f_equal (@length _)) in Hs. rewrite length_app in Hs.
      destruct m; [contradiction|]. cbn [length] in *. lia.
    + rewrite replaceAll_none by (rewrite reTag_spec, Ht; reflexivity).
      cbn [noTag]. rewrite IH by (cbn [length] in Hle; lia). rewrite andb_true_r.
      apply negb_true_iff. rewrite tagAt_cons in Ht |- *.
      destruct (N.eqb c 60); [|reflexivity]. cbn [andb] in *.
      destruct s as [|d s]; [reflexivity|].
      destruct (N.eqb_spec d 62) as [->|Hd].
      * rewrite replaceAll_none by (rewrite reTag_spec, tagAt_cons; reflexivity).
        reflexivity.
      * cbn [negb andb] in Ht. rewrite reTag_no_gt.
        -- apply N.eqb_neq in Hd. now rewrite Hd, Ht.
        -- cbn [existsb]. rewrite Ht, orb_false_r. apply N.eqb_neq. congruence.
Qed.

(** White space *)

Lemma greedy_all (f : N -> bool) (min : nat) (s : jsstring) :
  greedy f min Some s =
    if min <=? length (takeWhile f s) then Some (dropWhile f s) else None.
Proof.
  revert min. induction s as [|d s IH]; intros min; cbn [greedy takeWhile dropWhile].
  - cbn [length]. now destruct min.
  - destruct (f d) eqn:Hd.
    + rewrite IH. cbn [length]. destruct min as [|min]; cbn [pred Nat.eqb Nat.leb];
        [reflexivity|].
      now destruct (min <=? length (takeWhile f s)).
    + cbn [length]. now destruct min.
Qed.

Lemma reSpaces_spec (s : jsstring) :
  reSpaces s = if headSpace s then Some (dropWhile isJSSpace s) else None.
Proof.
  unfold reSpaces. rewrite greedy_all. destruct s as [|d s]; [reflexivity|].
  cbn [takeWhile headSpace]. now destruct (isJSSpace d).
Qed.

Lemma dropWhile_length {A} (f : A -> bool) (l : list A) : length (dropWhile f l) <= length l.
Proof.
  induction l as [|x l IH]; [reflexivity|]. cbn [dropWhile]. destruct (f x); cbn [length]; lia.
Qed.

Lemma dropWhile_head {A} (f : A -> bool) (l : list A) :
  match dropWhile f l with x :: _ => f x = false | [] => True end.
Proof.
  induction l as [|x l IH]; [exact I|]. cbn [dropWhile]. destruct (f x) eqn:E; assumption.
Qed.

Lemma collapse_space (c : N) (s : jsstring) :
  isJSSpace c = true ->
  replaceAll reSpaces space (c :: s) = 32%N :: replaceAll reSpaces space (dropWhile isJSSpace s).
Proof.
  intros Hc.
  assert (Hd : dropWhile isJSSpace (c :: s) = dropWhile isJSSpace s) by (cbn; now rewrite Hc).
  pose proof (takeWhile_dropWhile isJSSpace (c :: s)) as Hs. rewrite Hd in Hs.
  rewrite <- Hs at 1. rewrite replaceAll_match; [reflexivity| |].
  - cbn [takeWhile]. now rewrite Hc.
  - rewrite Hs, reSpaces_spec. cbn [headSpace]. now rewrite Hc, Hd.
Qed.

Lemma collapse_other (c : N) (s : jsstring) :
  isJSSpace c = false ->
  replaceAll reSpaces space (c :: s) = c :: replaceAll reSpaces space s.
Proof.
  intros Hc. apply replaceAll_none. rewrite reSpaces_spec. cbn [headSpace]. now rewrite Hc.
Qed.

(** An induction on the text for the replacement of white space. *)
Lemma collapse_ind (P : jsstring -> jsstring -> Prop) :
  P [] [] ->
  (forall c s, isJSSpace c = true ->
     P (dropWhile isJSSpace s) (replaceAll reSpaces space (dropWhile isJSSpace s)) ->
     P (c :: s) (32%N :: replaceAll reSpaces space (dropWhile isJSSpace s))) ->
  (forall c s, isJSSpace c = false ->
     P s (replaceAll reSpaces space s) -> P (c :: s) (c :: replaceAll reSpaces space s)) ->
  forall s, P s (replaceAll reSpaces space s).
Proof.
  intros Hnil Hsp Hother s.
  remember (length s) as n eqn:Hn. assert (Hle : length s <= n) by lia. clear Hn.
  revert s Hle. induction n as [|n IH]; intros s Hle.
  - destruct s; [|cbn in Hle; lia]. exact Hnil.
  - destruct s as [|c s]; [exact Hnil|]. cbn [length] in Hle.
    destruct (isJSSpace c) eqn:Hc.
    + rewrite collapse_space by exact Hc. apply Hsp; [exact Hc|].
      apply IH. pose proof (dropWhile_length isJSSpace s). lia.
    + rewrite collapse_other by exact Hc. apply Hother; [exact Hc|]. apply IH. lia.
Qed.

Lemma space_not_gt (c : N) : isJSSpace c = true -> N.eqb 62 c = false.
Proof. intros Hc. destruct (N.eqb_spec 62 c) as [<-|]; [discriminate Hc|reflexivity]. Qed.

Lemma space_not_lt (c : N) : isJSSpace c = true -> N.eqb c 60 = false.
Proof. intros Hc. destruct (N.eqb_spec c 60) as [->|]; [discriminate Hc|reflexivity]. Qed.

Lemma existsb_dropWhile_space (s : jsstring) :
  existsb (N.eqb 62) (dropWhile isJSSpace s) = existsb (N.eqb 62) s.
Proof.
  induction s as [|d s IH]; [reflexivity|]. cbn [dropWhile existsb].
  destruct (isJSSpace d) eqn:Hd; [|reflexivity]. now rewrite (space_not_gt d Hd).
Qed.

Lemma collapse_gt (s : jsstring) :
  existsb (N.eqb 62) (replaceAll reSpaces space s) = existsb (N.eqb 62) s.
Proof.
  apply (collapse_ind (fun s out => existsb (N.eqb 62) out = existsb (N.eqb 62) s)).
  - reflexivity.
  - intros c t Hc IH. cbn [existsb]. rewrite IH, existsb_dropWhile_space.
    now rewrite (space_not_gt c Hc).
  - intros c t Hc IH. cbn [existsb]. now rewrite IH.
Qed.

(** What follows a [<] decides alike before and after the replacement. *)
Lemma collapse_after_lt (s : jsstring) :
  tagAt (60%N :: replaceAll reSpaces space s) = tagAt (60%N :: s).
Proof.
  rewrite !tagAt_cons. cbn [N.eqb Pos.eqb andb]. destruct s as [|d s]; [reflexivity|].
  destruct (isJSSpace d) eqn:Hd.
  - rewrite collapse_space by exact Hd. rewrite collapse_gt, existsb_dropWhile_space.
    destruct (N.eqb_spec d 62) as [->|_]; [discriminate Hd|reflexivity].
  - rewrite collapse_other by exact Hd. now rewrite collapse_gt.
Qed.

Lemma noTag_cons (c : N) (s : jsstring) :
  noTag (c :: s) = negb (tagAt (c :: s)) && noTag s.
Proof. reflexivity. Qed.

Lemma noTag_drop (n : nat) (s : jsstring) : noTag s = true -> noTag (drop n s) = true.
Proof.
  revert s. induction n as [|n IH]; intros s Hs; [exact Hs|].
  destruct s as [|c s]; [reflexivity|]. cbn [drop]. apply IH.
  rewrite noTag_cons in Hs. now apply andb_prop in Hs as [_ ?].
Qed.

Lemma dropWhile_drop {A} (f : A -> bool) (l : list A) :
  exists n, dropWhile f l = drop n l.
Proof.
  induction l as [|x l [n IH]]; [now exists 0|]. cbn [dropWhile].
  destruct (f x); [exists (S n); exact IH|now exists 0].
Qed.

Lemma noTag_dropWhile (f : N -> bool) (s : jsstring) :
  noTag s = true -> noTag (dropWhile f s) = true.
Proof. intros Hs. destruct (dropWhile_drop f s) as [n ->]. now apply noTag_drop. Qed.

Lemma noTag_collapse (s : jsstring) :
  noTag s = true -> noTag (replaceAll reSpaces space s) = true.
Proof.
  apply (collapse_ind (fun s out => noTag s = true -> noTag out = true)).
  - auto.
  - intros c t Hc IH Ht. rewrite noTag_cons in Ht |- *. apply andb_prop in Ht as [_ Ht].
    rewrite tagAt_cons. cbn [N.eqb Pos.eqb andb negb].
    apply IH. now apply noTag_dropWhile.
  - intros c t Hc IH Ht. rewrite noTag_cons in Ht |- *. apply andb_prop in Ht as [Hc' Ht].
    rewrite (IH Ht), andb_true_r.
    destruct (N.eqb_spec c 60) as [->|Hne].
    + now rewrite collapse_after_lt.
    + rewrite tagAt_cons. apply N.eqb_neq in Hne. now rewrite Hne.
Qed.

Lemma tagAt_app (x y : jsstring) : tagAt x = true -> tagAt (x ++ y) = true.
Proof.
  destruct x as [|c [|d x]]; try discriminate.
  - rewrite tagAt_cons, andb_false_r. discriminate.
  - cbn [app]. rewrite !tagAt_cons. intros Ht.
    apply andb_prop in Ht as [-> Ht]. apply andb_prop in Ht as [-> Ht].
    rewrite existsb_app, Ht. reflexivity.
Qed.

Lemma noTag_prefix (x y : jsstring) : noTag (x ++ y) = true -> noTag x = true.
Proof.
  induction x as [|c x IH]; [reflexivity|]. cbn [app]. rewrite !noTag_cons.
  intros Ht. apply andb_prop in Ht as [Hc Ht]. rewrite (IH Ht), andb_true_r.
  apply negb_true_iff. apply negb_true_iff in Hc.
  destruct (tagAt (c :: x)) eqn:E; [|reflexivity].
  apply (tagAt_app _ y) in E. cbn [app] in E. congruence.
Qed.

Lemma dropEnd_prefix {A} (f : A -> bool) (l : list A) : exists t, l = dropEnd f l ++ t.
Proof.
  unfold dropEnd. destruct (dropWhile_drop f (rev l)) as [n Hn]. rewrite Hn.
  exists (rev (take n (rev l))). rewrite <- rev_app_distr, take_drop. now rewrite rev_involutive.
Qed.

Lemma noTag_trim (s : jsstring) : noTag s = true -> noTag (trim s) = true.
Proof.
  intros Hs. unfold trim.
  destruct (dropEnd_prefix isJSSpace (dropWhile isJSSpace s)) as [t Ht].
  apply (noTag_prefix _ t). rewrite <- Ht. now apply noTag_dropWhile.
Qed.

(** The shape of the white space *)

Lemma collapse_head (s : jsstring) :
  headSpace s = false -> headSpace (replaceAll reSpaces space s) = false.
Proof.
  destruct s as [|d s]; [reflexivity|]. cbn [headSpace]. intros Hd.
  rewrite collapse_other by exact Hd. exact Hd.
Qed.

Lemma headSpace_dropWhile (s : jsstring) : headSpace (dropWhile isJSSpace s) = false.
Proof.
  pose proof (dropWhile_head isJSSpace s) as Hh.
  destruct (dropWhile isJSSpace s); [reflexivity|exact Hh].
Qed.

Lemma collapsed_collapse (s : jsstring) : collapsed (replaceAll reSpaces space s) = true.
Proof.
  apply (collapse_ind (fun _ out => collapsed out = true)).
  - reflexivity.
  - intros c t Hc IH. cbn [collapsed]. rewrite IH.
    rewrite collapse_head by apply headSpace_dropWhile. reflexivity.
  - intros c t Hc IH. cbn [collapsed]. now rewrite Hc, IH.
Qed.

Lemma collapsed_drop (n : nat) (s : jsstring) : collapsed s = true -> collapsed (drop n s) = true.
Proof.
  revert s. induction n as [|n IH]; intros s Hs; [exact Hs|].
  destruct s as [|c s]; [reflexivity|]. cbn [drop]. apply IH.
  cbn [collapsed] in Hs. now apply andb_prop in Hs as [_ ?].
Qed.

Lemma collapsed_prefix (x y : jsstring) : collapsed (x ++ y) = true -> collapsed x = true.
Proof.
  induction x as [|c x IH]; [reflexivity|]. cbn [app collapsed].
  intros Hs. apply andb_prop in Hs as [Hc Hs]. rewrite (IH Hs), andb_true_r.
  destruct (isJSSpace c); [|reflexivity].
  apply andb_prop in Hc as [-> Hc]. destruct x; [reflexivity|exact Hc].
Qed.

Lemma collapsed_trim (s : jsstring) : collapsed s = true -> collapsed (trim s) = true.
Proof.
  intros Hs. unfold trim.
  destruct (dropEnd_prefix isJSSpace (dropWhile isJSSpace s)) as [t Ht].
  apply (collapsed_prefix _ t). rewrite <- Ht.
  destruct (dropWhile_drop isJSSpace s) as [n ->]. now apply collapsed_drop.
Qed.

(** A trimmed text neither starts nor ends with white space. *)
Lemma dropEnd_last {A} (f : A -> bool) (l : list A) (x : A) :
  last (dropEnd f l) = Some x -> f x = false.
Proof.
  unfold dropEnd. pose proof (dropWhile_head f (rev l)) as Hh.
  destruct (dropWhile f (rev l)) as [|y r]; [discriminate|].
  cbn [rev]. rewrite last_snoc. now intros [= <-].
Qed.

Lemma dropEnd_head {A} (f : A -> bool) (l : list A) (x : A) :
  (forall y, head l = Some y -> f y = false) ->
  head (dropEnd f l) = Some x -> f x = false.
Proof.
  intros Hl Hx. destruct (dropEnd_prefix f l) as [t Ht].
  apply Hl. rewrite Ht. destruct (dropEnd f l); [discriminate|exact Hx].
Qed.

Lemma trim_ends (s : jsstring) :
  (forall x, head (trim s) = Some x -> isJSSpace x = false)
  /\ (forall x, last (trim s) = Some x -> isJSSpace x = false).
Proof.
  unfold trim. split; intros x.
  - apply dropEnd_head. intros y Hy. pose proof (dropWhile_head isJSSpace s) as Hh.
    destruct (dropWhile isJSSpace s); [discriminate|]. now injection Hy as <-.
  - apply dropEnd_last.
Qed.

(** ** What the other expressions of [stripHtml] match is a tag as well *)

Lemma text_startsWithI {A} (p : jsstring) (k : jsstring -> option A) (s : jsstring) :
  text true p k s = if startsWithI s p then k (drop (length p) s) else None.
Proof.
  revert s. induction p as [|c p IH]; intros s; [now destruct s|].
  destruct s as [|d s]; [reflexivity|].
  cbn [text startsWithI length drop]. unfold one at 1.
  destruct (charEqI c d); [apply IH|reflexivity].
Qed.

Lemma text_startsWith {A} (p : jsstring) (k : jsstring -> option A) (s : jsstring) :
  text false p k s = if startsWith s p then k (drop (length p) s) else None.
Proof.
  revert s. induction p as [|c p IH]; intros s; [now destruct s|].
  destruct s as [|d s]; [reflexivity|].
  cbn [text startsWith length drop]. unfold one at 1.
  rewrite N.eqb_sym. destruct (N.eqb d c); [apply IH|reflexivity].
Qed.

Lemma lazy_inv {A} (f : N -> bool) (k : jsstring -> option A) (s : jsstring) (r : A) :
  lazy f k s = Some r -> exists n, k (drop n s) = Some r.
Proof.
  induction s as [|d s IH]; cbn [lazy].
  - destruct (k []) eqn:E; [|discriminate]. intros [= <-]. now exists 0.
  - destruct (k (d :: s)) eqn:E.
    + intros [= <-]. now exists 0.
    + destruct (f d); [|discriminate]. intros Hr. destruct (IH Hr) as [n Hn]. now exists (S n).
Qed.

Lemma anyOf_inv {A} (ms : list ((jsstring -> option A) -> jsstring -> option A))
    (k : jsstring -> option A) (s : jsstring) (r : A) :
  anyOf ms k s = Some r -> exists m, In m ms /\ m k s = Some r.
Proof.
  induction ms as [|m ms IH]; cbn [anyOf]; [discriminate|].
  destruct (m k s) eqn:E.
  - intros [= <-]. exists m. split; [now left|exact E].
  - intros Hr. destruct (IH Hr) as (m' & Hin & Hm'). exists m'. split; [now right|exact Hm'].
Qed.

Lemma canonicalize_low (d : N) : (d < 65)%N -> canonicalize d = d.
Proof.
  intros Hd. unfold canonicalize, inRange.
  destruct (N.leb_spec 97 d); [lia|]. cbn [andb].
  destruct (N.leb_spec 224 d); [lia|]. cbn [andb].
  destruct (N.eqb_spec d 255); [lia|]. destruct (N.eqb_spec d 181); [lia|]. reflexivity.
Qed.

Lemma canonicalize_high (c : N) : canonicalize c = c \/ (65 <= canonicalize c)%N.
Proof.
  unfold canonicalize, inRange.
  destruct (N.leb_spec 97 c), (N.leb_spec c 122); cbn [andb]; try (right; lia);
    destruct (N.leb_spec 224 c), (N.leb_spec c 254); cbn [andb];
    try (destruct (N.eqb_spec c 247); cbn [negb]);
    try (right; lia);
    destruct (N.eqb_spec c 255); try (right; lia);
    destruct (N.eqb_spec c 181); try (right; lia); now left.
Qed.

Lemma charEqI_low (c d : N) : (d < 65)%N -> charEqI d c = true -> c = d.
Proof.
  intros Hd Heq. unfold charEqI in Heq. rewrite (canonicalize_low d Hd) in Heq.
  apply N.eqb_eq in Heq. destruct (canonicalize_high c) as [E|E]; [congruence|lia].
Qed.

Lemma existsb_suffix {A} (f : A -> bool) (n : nat) (l : list A) :
  existsb f (drop n l) = true -> existsb f l = true.
Proof.
  intros Hn. destruct (existsb f l) eqn:E; [reflexivity|].
  now rewrite (existsb_drop f n l E) in Hn.
Qed.

(** A text that starts with [<] and a character other than [>] and has a
    [>] further on starts with a tag. *)
Lemma tagAt_intro (c d : N) (s : jsstring) (n : nat) :
  c = 60%N -> d <> 62%N -> existsb (N.eqb 62) (drop n s) = true -> tagAt (c :: d :: s) = true.
Proof.
  intros -> Hd Hn. rewrite tagAt_cons. cbn [N.eqb Pos.eqb andb].
  apply N.eqb_neq in Hd. rewrite Hd. cbn [negb andb]. now apply (existsb_suffix _ n).
Qed.

Lemma startsWithI_gt (s : jsstring) (p : jsstring) :
  startsWithI s (p ++ [62%N]) = true -> existsb (N.eqb 62) s = true.
Proof.
  revert s. induction p as [|c p IH]; intros [|d s]; cbn [app startsWithI]; try discriminate.
  - destruct (charEqI 62 d) eqn:E; [|discriminate]. intros _.
    apply charEqI_low in E; [|reflexivity]. subst d. reflexivity.
  - destruct (charEqI c d); [|discriminate]. intros Hs. cbn [existsb].
    rewrite (IH _ Hs). apply orb_true_r.
Qed.

Lemma startsWith_gt (s : jsstring) (p : jsstring) :
  startsWith s (p ++ [62%N]) = true -> existsb (N.eqb 62) s = true.
Proof.
  revert s. induction p as [|c p IH]; intros [|d s]; cbn [app startsWith]; try discriminate.
  - destruct (N.eqb_spec 62 d) as [<-|]; [reflexivity|discriminate].
  - destruct (N.eqb c d); [|discriminate]. intros Hs. cbn [existsb].
    rewrite (IH _ Hs). apply orb_true_r.
Qed.

Lemma startsWith_I (s p : jsstring) : startsWith s p = true -> startsWithI s p = true.
Proof.
  revert s. induction p as [|c p IH]; intros [|d s]; cbn [startsWith startsWithI]; auto.
  destruct (N.eqb_spec c d) as [->|]; [|discriminate].
  unfold charEqI. rewrite N.eqb_refl. apply IH.
Qed.

(** The text starts as a tag does and has a [>] from its [n]-th character
    behind the first two on. *)
Lemma tagAt_opening (s : jsstring) (b : N) (p : jsstring) (n : nat) :
  startsWithI s (60%N :: b :: p) = true -> charEqI b 62 = false ->
  existsb (N.eqb 62) (drop (2 + n) s) = true -> tagAt s = true.
Proof.
  intros Hs Hb Hn. destruct s as [|c [|d s]]; cbn [startsWithI] in Hs; try discriminate Hs.
  - now destruct (charEqI 60 c).
  - destruct (charEqI 60 c) eqn:Ec; [|discriminate].
    destruct (charEqI b d) eqn:Ed; [|discriminate].
    apply charEqI_low in Ec; [|reflexivity].
    apply (tagAt_intro c d s n); [exact Ec| |exact Hn].
    intros ->. congruence.
Qed.

Ltac literal t := let x := eval vm_compute in (lit t) in change (lit t) with x in *.

Lemma reScript_tag (s : jsstring) (r : jsstring) : reScript s = Some r -> tagAt s = true.
Proof.
  unfold reScript. rewrite text_startsWithI.
  destruct (startsWithI s (lit "<script")) eqn:Hs; [|discriminate].
  intros Hr. apply lazy_inv in Hr as [n Hn]. rewrite text_startsWithI in Hn.
  destruct (startsWithI (drop n (drop (length (lit "<script")) s)) (lit "</script>")) eqn:He;
    [|discriminate].
  apply (startsWithI_gt _ (lit "</script")) in He.
  rewrite drop_drop in He. literal "<script"%string.
  eapply (tagAt_opening s _ _ (5 + n)); [exact Hs|reflexivity|exact He].
Qed.

Lemma reStyle_tag (s : jsstring) (r : jsstring) : reStyle s = Some r -> tagAt s = true.
Proof.
  unfold reStyle. rewrite text_startsWithI.
  destruct (startsWithI s (lit "<style")) eqn:Hs; [|discriminate].
  intros Hr. apply lazy_inv in Hr as [n Hn]. rewrite text_startsWithI in Hn.
  destruct (startsWithI (drop n (drop (length (lit "<style")) s)) (lit "</style>")) eqn:He;
    [|discriminate].
  apply (startsWithI_gt _ (lit "</style")) in He.
  rewrite drop_drop in He. literal "<style"%string.
  eapply (tagAt_opening s _ _ (4 + n)); [exact Hs|reflexivity|exact He].
Qed.

Lemma reComment_tag (s : jsstring) (r : jsstring) : reComment s = Some r -> tagAt s = true.
Proof.
  unfold reComment. rewrite text_startsWith.
  destruct (startsWith s (lit "<!--")) eqn:Hs; [|discriminate].
  intros Hr. apply lazy_inv in Hr as [n Hn]. rewrite text_startsWith in Hn.
  destruct (startsWith (drop n (drop (length (lit "<!--")) s)) (lit "-->")) eqn:He;
    [|discriminate].
  apply (startsWith_gt _ (lit "--")) in He. apply startsWith_I in Hs.
  rewrite drop_drop in He. literal "<!--"%string.
  eapply (tagAt_opening s _ _ (2 + n)); [exact Hs|reflexivity|exact He].
Qed.

Lemma reBlockEnd_tag (s : jsstring) (r : jsstring) : reBlockEnd s = Some r -> tagAt s = true.
Proof.
  unfold reBlockEnd. rewrite text_startsWithI.
  destruct (startsWithI s (lit "</")) eqn:Hs; [|discriminate].
  intros Hr. apply anyOf_inv in Hr as (m & Hin & Hm).
  apply in_map_iff in Hin as (name & <- & _). rewrite text_startsWithI in Hm.
  destruct (startsWithI (drop (length (lit "</")) s) (lit name)) eqn:Hname; [|discriminate].
  set (rest := drop (length (lit name)) (drop (length (lit "</")) s)) in *.
  assert (Hgt : existsb (N.eqb 62) rest = true).
  { unfold one in Hm. destruct rest as [|e rest']; [discriminate|].
    destruct (charEqI 62 e) eqn:Ee; [|discriminate].
    apply charEqI_low in Ee; [|reflexivity]. subst e. reflexivity. }
  unfold rest in Hgt. rewrite drop_drop in Hgt. literal "</"%string.
  destruct s as [|c [|d s]]; cbn [startsWithI] in Hs; try discriminate Hs.
  - now destruct (charEqI 60 c).
  - destruct (charEqI 60 c) eqn:Ec; [|discriminate].
    destruct (charEqI 47 d) eqn:Ed; [|discriminate].
    apply charEqI_low in Ec; [|reflexivity]. apply charEqI_low in Ed; [|reflexivity].
    subst c d. cbn [length Nat.add drop] in Hgt.
    apply (tagAt_intro _ _ s (length (lit name))); [reflexivity|discriminate|exact Hgt].
Qed.

Lemma stripHtml_facts (html : jsstring) :
  noTag (stripHtml html) = true /\ collapsed (stripHtml html) = true
  /\ (forall x, head (stripHtml html) = Some x -> isJSSpace x = false)
  /\ (forall x, last (stripHtml html) = Some x -> isJSSpace x = false).
Proof.
  destruct html as [|c html]; [repeat split; discriminate|].
  cbn [stripHtml]. set (t := replaceAll reBlockEnd newline _).
  split; [|split].
  - apply noTag_trim, noTag_collapse, noTag_replace_tags.
  - apply collapsed_trim, collapsed_collapse.
  - apply trim_ends.
Qed.

Lemma noTag_hasTag (s : jsstring) : noTag s = true -> ~ hasTag s.
Proof.
  intros Hs (pre & run & post & -> & Hrun & Hgt).
  apply (noTag_drop (length pre)) in Hs. rewrite drop_app_length in Hs.
  cbn [app] in Hs. rewrite noTag_cons in Hs. apply andb_prop in Hs as [Hs _].
  apply negb_true_iff in Hs. destruct run as [|d run]; [contradiction|].
  cbn [app] in Hs. rewrite tagAt_cons in Hs. cbn [N.eqb Pos.eqb andb] in Hs.
  rewrite existsb_app in Hs. cbn [existsb N.eqb Pos.eqb orb] in Hs.
  rewrite orb_true_r, andb_true_r in Hs. apply negb_false_iff, N.eqb_eq in Hs.
  apply Hgt. subst d. left.
Qed.

Lemma collapsed_singleSpaced (s : jsstring) :
  collapsed s = true ->
  (forall x, head s = Some x -> isJSSpace x = false) ->
  (forall x, last s = Some x -> isJSSpace x = false) ->
  singleSpaced s.
Proof.
  intros Hc Hhead Hlast pre c post -> Hsp.
  assert (Hhere : collapsed (c :: post) = true).
  { apply (collapsed_drop (length pre)) in Hc. now rewrite drop_app_length in Hc. }
  cbn [collapsed] in Hhere. rewrite Hsp in Hhere.
  apply andb_prop in Hhere as [Hhere _]. apply andb_prop in Hhere as [Heq Hnext].
  apply N.eqb_eq in Heq. apply negb_true_iff in Hnext.
  split; [exact Heq|]. split.
  - destruct pre as [|a pre _] using rev_ind.
    + specialize (Hhead c eq_refl). congruence.
    + exists a. rewrite last_snoc. split; [reflexivity|].
      apply (collapsed_drop (length pre)) in Hc.
      rewrite <- app_assoc, drop_app_length in Hc. cbn [app collapsed headSpace] in Hc.
      destruct (isJSSpace a); [|reflexivity].
      rewrite Hsp in Hc. cbn [negb] in Hc. rewrite andb_false_r in Hc. discriminate Hc.
  - destruct post as [|b post].
    + specialize (Hlast c). rewrite last_snoc in Hlast. specialize (Hlast eq_refl). congruence.
    + exists b. split; [reflexivity|exact Hnext].
Qed.

(** X17. The text [stripHtml] returns holds no tag, and its white space is
    single spaces between words: every white-space character is a space
    with a character that is not white space on either side.  *)
Theorem stripHtml_clean (html : jsstring) :
  ~ hasTag (stripHtml html) /\ singleSpaced (stripHtml html).
Proof.
  destruct (stripHtml_facts html) as (Htag & Hcol & Hhead & Hlast). split.
  - now apply noTag_hasTag.
  - now apply collapsed_singleSpaced.
Qed.

Lemma collapse_fixed (s : jsstring) :
  collapsed s = true -> replaceAll reSpaces space s = s.
Proof.
  induction s as [|c s IH]; [reflexivity|]. cbn [collapsed]. intros Hc.
  apply andb_prop in Hc as [Hc Hs]. destruct (isJSSpace c) eqn:Hsp.
  - apply andb_prop in Hc as [Heq Hnext]. apply N.eqb_eq in Heq. subst c.
    rewrite collapse_space by exact Hsp. f_equal.
    apply negb_true_iff in Hnext.
    replace (dropWhile isJSSpace s) with s; [now apply IH|].
    destruct s as [|d s]; [reflexivity|]. cbn [headSpace] in Hnext. cbn [dropWhile].
    now rewrite Hnext.
  - rewrite collapse_other by exact Hsp. f_equal. now apply IH.
Qed.

Lemma dropWhile_fixed {A} (f : A -> bool) (l : list A) :
  (forall x, head l = Some x -> f x = false) -> dropWhile f l = l.
Proof.
  destruct l as [|x l]; [reflexivity|]. intros Hx. cbn [dropWhile].
  now rewrite (Hx x eq_refl).
Qed.

Lemma trim_fixed (s : jsstring) :
  (forall x, head s = Some x -> isJSSpace x = false) ->
  (forall x, last s = Some x -> isJSSpace x = false) ->
  trim s = s.
Proof.
  intros Hhead Hlast. unfold trim, dropEnd. rewrite (dropWhile_fixed _ s Hhead).
  rewrite dropWhile_fixed; [apply rev_involutive|].
  intros x Hx. apply Hlast. destruct s as [|y s _] using rev_ind; [discriminate|].
  rewrite rev_app_distr in Hx. cbn in Hx. injection Hx as ->. apply last_snoc.
Qed.

(** X18. A second pass of [stripHtml] over a text it has returned changes
    nothing: the expressions for scripts, styles, comments, block ends and
    tags match nowhere in the text, every match of the white-space
    expression is one space (which is replaced by a space), and the text is
    trimmed already. *)
Theorem stripHtml_idempotent (html : jsstring) :
  let t := stripHtml html in
  (forall n, reScript (drop n t) = None /\ reStyle (drop n t) = None
             /\ reComment (drop n t) = None /\ reBlockEnd (drop n t) = None
             /\ reTag (drop n t) = None)
  /\ (forall n r, reSpaces (drop n t) = Some r -> drop n t = space ++ r)
  /\ replaceAll reSpaces space t = t
  /\ trim t = t
  /\ stripHtml t = t.
Proof.
  cbn zeta. destruct (stripHtml_facts html) as (Htag & Hcol & Hhead & Hlast).
  assert (Hnone : forall (here : jsstring -> option jsstring),
            (forall t r, here t = Some r -> tagAt t = true) ->
            forall n, here (drop n (stripHtml html)) = None).
  { intros here Hhere n. destruct (here (drop n (stripHtml html))) as [r|] eqn:E;
      [|reflexivity].
    apply Hhere in E. pose proof (noTag_drop n _ Htag) as Hn.
    destruct (drop n (stripHtml html)) as [|c t]; [discriminate E|].
    rewrite noTag_cons, E in Hn. discriminate Hn. }
  assert (HreTag : forall t r, reTag t = Some r -> tagAt t = true).
  { intros t r Hr. rewrite reTag_spec in Hr. now destruct (tagAt t). }
  split; [|split; [|split; [|split]]].
  - intros n. repeat split; apply Hnone;
      first [exact reScript_tag | exact reStyle_tag | exact reComment_tag
            | exact reBlockEnd_tag | exact HreTag].
  - intros n r. rewrite reSpaces_spec. pose proof (collapsed_drop n _ Hcol) as Hc.
    destruct (drop n (stripHtml html)) as [|c t]; [discriminate|].
    cbn [headSpace collapsed] in *. destruct (isJSSpace c) eqn:Hsp; [|discriminate].
    intros [= <-]. apply andb_prop in Hc as [Hc _]. apply andb_prop in Hc as [Heq Hnext].
    apply N.eqb_eq in Heq. subst c. cbn [dropWhile]. rewrite Hsp. cbn [space app].
    f_equal. apply negb_true_iff in Hnext. destruct t as [|d t]; [reflexivity|].
    cbn [headSpace] in Hnext. cbn [dropWhile]. now rewrite Hnext.
  - now apply collapse_fixed.
  - now apply trim_fixed.
  - destruct (stripHtml html) as [|c out] eqn:E; [reflexivity|].
    cbn [stripHtml].
    rewrite (replaceAll_id reScript) by (intros n; apply Hnone, reScript_tag).
    rewrite (replaceAll_id reStyle) by (intros n; apply Hnone, reStyle_tag).
    rewrite (replaceAll_id reComment) by (intros n; apply Hnone, reComment_tag).
    rewrite (replaceAll_id reBlockEnd) by (intros n; apply Hnone, reBlockEnd_tag).
    rewrite (replaceAll_id reTag) by (intros n; apply Hnone, HreTag).
    rewrite collapse_fixed by exact Hcol. now apply trim_fixed.
Qed.

Lemma stripHtml_idempotent_witness :
  drop 1 (stripHtml (lit "<p>a  b</p>")) = space ++ lit "b"
  /\ stripHtml (stripHtml (lit "<p>a  b</p>")) = stripHtml (lit "<p>a  b</p>").
Proof.
  pose proof (stripHtml_idempotent (lit "<p>a  b</p>")) as H. cbn zeta in H.
  destruct H as (_ & Hsp & _ & _ & Hid). split; [|exact Hid].
  apply (Hsp 1 (lit "b")). vm_compute. reflexivity.
Defined.

(** ** Scripts *)

Lemma replaceAll_prefix (here : jsstring -> option jsstring) (rep a t : jsstring) :
  (forall n, n < length a -> here (drop n (a ++ t)) = None) ->
  replaceAll here rep (a ++ t) = a ++ replaceAll here rep t.
Proof.
  induction a as [|c a IH]; intros Hnone; [reflexivity|].
  cbn [app]. rewrite replaceAll_none by (apply (Hnone 0); cbn; lia). f_equal.
  apply IH. intros n Hn. apply (Hnone (S n)). cbn. lia.
Qed.

Lemma lazy_first {A} (k : jsstring -> option A) (x t : jsstring) (r : A) :
  (forall n, n < length x -> k (drop n (x ++ t)) = None) -> k t = Some r ->
  lazy anyUnit k (x ++ t) = Some r.
Proof.
  induction x as [|c x IH]; intros Hnone Ht.
  - cbn [app]. destruct t; cbn [lazy]; now rewrite Ht.
  - cbn [app lazy]. pose proof (Hnone 0 ltac:(cbn; lia)) as H0. cbn [drop app] in H0.
    rewrite H0. cbn [anyUnit].
    apply IH; [|exact Ht]. intros n Hn. apply (Hnone (S n)). cbn. lia.
Qed.

Lemma startsWithI_app (p t : jsstring) : startsWithI (p ++ t) p = true.
Proof.
  induction p as [|c p IH]; [now destruct t|]. cbn [app startsWithI].
  unfold charEqI at 1. now rewrite N.eqb_refl.
Qed.

Lemma startsWithI_longer (s p b : jsstring) :
  length p <= length s -> startsWithI (s ++ b) p = startsWithI s p.
Proof.
  revert s. induction p as [|c p IH]; intros [|d s] Hlen; cbn [length] in Hlen;
    try lia; try reflexivity.
  - now destruct b.
  - cbn [app startsWithI]. destruct (charEqI c d); [apply IH; lia|reflexivity].
Qed.

Lemma reScript_head (c : N) (t : jsstring) : c <> 60%N -> reScript (c :: t) = None.
Proof.
  intros Hc. unfold reScript. rewrite text_startsWithI. literal "<script"%string.
  cbn [startsWithI]. destruct (charEqI 60 c) eqn:E; [|reflexivity].
  apply charEqI_low in E; [contradiction|reflexivity].
Qed.

(** The test [!html] only spares the work: the replacements leave the
    empty text empty. *)
Lemma stripHtml_unfold (html : jsstring) :
  stripHtml html =
    trim
      (replaceAll reSpaces space
         (replaceAll reTag space
            (replaceAll reBlockEnd newline
               (replaceAll reComment space
                  (replaceAll reStyle space
                     (replaceAll reScript space html)))))).
Proof. destruct html; reflexivity. Qed.

(** X19. A script element in a text without other markup before it is
    replaced as a whole, up to its first closing tag, by one space: the
    code of the script leaves no trace in what [stripHtml] returns. *)
Theorem stripHtml_drops_script (a x b : jsstring) :
  60%N ∉ a ->
  (forall n, n < length x ->
     startsWithI (drop n (x ++ lit "</script>")) (lit "</script>") = false) ->
  stripHtml (a ++ lit "<script" ++ x ++ lit "</script>" ++ b) = stripHtml (a ++ space ++ b).
Proof.
  intros Ha Hx.
  assert (Hpre : forall t, replaceAll reScript space (a ++ t) = a ++ replaceAll reScript space t).
  { intros t. apply replaceAll_prefix. intros n Hn.
    destruct (drop n (a ++ t)) as [|c r] eqn:E.
    - apply (f_equal (@length _)) in E. rewrite length_drop, length_app in E. cbn in E. lia.
    - apply reScript_head. intros ->. apply Ha.
      assert (Hc : (a ++ t) !! n = Some 60%N).
      { rewrite <- (Nat.add_0_r n), <- lookup_drop, E. reflexivity. }
      rewrite lookup_app_l in Hc by exact Hn. eapply list_elem_of_lookup_2. exact Hc. }
  assert (Hmatch : reScript (lit "<script" ++ x ++ lit "</script>" ++ b) = Some b).
  { unfold reScript. rewrite text_startsWithI, startsWithI_app, drop_app_length.
    apply lazy_first.
    - intros n Hn. rewrite text_startsWithI.
      rewrite app_assoc, drop_app_le by (rewrite length_app; lia).
      rewrite startsWithI_longer by (rewrite length_drop, length_app; lia).
      now rewrite Hx.
    - rewrite text_startsWithI, startsWithI_app, drop_app_length. reflexivity. }
  assert (Hfirst : replaceAll reScript space (a ++ lit "<script" ++ x ++ lit "</script>" ++ b)
                   = replaceAll reScript space (a ++ space ++ b)).
  { rewrite !Hpre. f_equal.
    rewrite (app_assoc (lit "<script")), (app_assoc (lit "<script" ++ x)).
    rewrite replaceAll_match;
      [|discriminate|rewrite <- !app_assoc; exact Hmatch].
    cbn [space app]. rewrite replaceAll_none; [reflexivity|]. now apply reScript_head. }
  rewrite !stripHtml_unfold. now rewrite Hfirst.
Qed.

Lemma stripHtml_drops_script_witness :
  stripHtml (lit "Films " ++ lit "<script" ++ lit ">if (a</b) go();" ++ lit "</script>" ++ lit "since 2010")
  = stripHtml (lit "Films " ++ space ++ lit "since 2010").
Proof.
  apply (stripHtml_drops_script (lit "Films ") (lit ">if (a</b) go();") (lit "since 2010")).
  - intros Hin. apply list_elem_of_In in Hin. vm_compute in Hin.
    repeat (destruct Hin as [Hin|Hin]; [discriminate Hin|]). exact Hin.
  - intros n Hn. change (length (lit ">if (a</b) go();")) with 16 in Hn.
    do 16 (destruct n as [|n]; [vm_compute; reflexivity|]). lia.
Defined.

(** ** fetchPageStrong *)

Lemma joinWith_head (sep p : jsstring) (parts : list jsstring) :
  exists t, joinWith sep (p :: parts) = p ++ t.
Proof.
  destruct parts as [|q parts]; cbn [joinWith].
  - exists []. now rewrite app_nil_r.
  - eexists. reflexivity.
Qed.

Lemma startsWith_prefix (p t : jsstring) : startsWith (p ++ t) p = true.
Proof.
  induction p as [|c p IH]; [now destruct t|]. cbn [app startsWith].
  now rewrite N.eqb_refl.
Qed.

Lemma labelled_starts (label : string) (x t : jsstring) :
  nonEmpty (labelled label x) = true -> startsWith (labelled label x ++ t) (lit label) = true.
Proof.
  unfold labelled. destruct (nonEmpty x); [|discriminate]. intros _.
  rewrite <- app_assoc. apply startsWith_prefix.
Qed.

(** X20. [fetchPageStrong] returns a document only for a page that was
    fetched with an ok response; the document then has at least
    [MIN_DOC_CHARS] characters, starts with the label of its first section
    ([TITLE: ], [DESCRIPTION: ] or [BODY:] and a line break), and gives
    [crawl] at least one chunk, [ceil(length / CHUNK_SIZE)] in all. *)
Theorem fetchPageStrong_doc (r : Fetched) (doc : jsstring) :
  fetchPageStrong r = Some doc ->
  (exists html, r = Html html)
  /\ MIN_DOC_CHARS <= length doc
  /\ (startsWith doc (lit "TITLE: ") || startsWith doc (lit "DESCRIPTION: ")
      || startsWith doc (lit "BODY:" ++ newline) = true)
  /\ 1 <= length (chunkTextDefault doc)
  /\ length (chunkTextDefault doc) = (length doc + CHUNK_SIZE - 1) / CHUNK_SIZE.
Proof.
  destruct r as [| |html]; try discriminate. cbn [fetchPageStrong].
  set (title := trim _). set (meta := trim _). set (body := if _ <? 120 then _ else _).
  set (parts := List.filter nonEmpty _). intros Hdoc.
  destruct (nonEmpty (joinWith (newline ++ newline) parts)) eqn:Hne; [|discriminate].
  destruct (Nat.leb_spec MIN_DOC_CHARS (length (joinWith (newline ++ newline) parts)))
    as [Hlen|]; [|discriminate].
  injection Hdoc as <-. split; [eauto|]. split; [exact Hlen|].
  assert (Hchunks : length (chunkTextDefault (joinWith (newline ++ newline) parts))
                    = (length (joinWith (newline ++ newline) parts) + CHUNK_SIZE - 1)
                      / CHUNK_SIZE).
  { rewrite chunkTextDefault_chunksOf. apply chunksOf_length; [unfold CHUNK_SIZE; lia|lia]. }
  split; [|split; [|exact Hchunks]].
  - unfold parts in *. cbn [List.filter] in *.
    destruct (nonEmpty (labelled "TITLE: " title)) eqn:E1.
    { match goal with
      | |- context [joinWith ?sep (?p :: ?rest)] =>
          destruct (joinWith_head sep p rest) as [t Ht]; rewrite Ht
      end.
      now rewrite labelled_starts. }
    destruct (nonEmpty (labelled "DESCRIPTION: " meta)) eqn:E2.
    { match goal with
      | |- context [joinWith ?sep (?p :: ?rest)] =>
          destruct (joinWith_head sep p rest) as [t Ht]; rewrite Ht
      end.
      rewrite labelled_starts by exact E2.
      apply orb_true_iff. left. apply orb_true_r. }
    destruct (nonEmpty body) eqn:E3.
    + cbn [nonEmpty]. replace (nonEmpty (lit "BODY:" ++ newline ++ body)) with true
        by reflexivity.
      cbn [joinWith]. rewrite app_assoc, startsWith_prefix. apply orb_true_r.
    + discriminate Hne.
  - change (10%N :: newline) with (newline ++ newline).
    rewrite Hchunks. unfold MIN_DOC_CHARS, CHUNK_SIZE in *.
    apply Nat.div_le_lower_bound; lia.
Qed.

Lemma fetchPageStrong_doc_witness :
  let doc := lit "TITLE: Films" ++ newline ++ newline ++ lit "BODY:" ++ newline
             ++ lit "Films " ++ repeat 97%N 170 in
  (exists html, Html (lit "<title>Films</title>" ++ repeat 97%N 170) = Html html)
  /\ MIN_DOC_CHARS <= length doc
  /\ (startsWith doc (lit "TITLE: ") || startsWith doc (lit "DESCRIPTION: ")
      || startsWith doc (lit "BODY:" ++ newline) = true)
  /\ 1 <= length (chunkTextDefault doc)
  /\ length (chunkTextDefault doc) = (length doc + CHUNK_SIZE - 1) / CHUNK_SIZE.
Proof.
  apply (fetchPageStrong_doc (Html (lit "<title>Films</title>" ++ repeat 97%N 170))).
  vm_compute. reflexivity.
Defined.

Lemma searchFrom_prefix {A} (here : jsstring -> option A) (pre s : jsstring) :
  (forall n, n < length pre -> here (drop n (pre ++ s)) = None) ->
  searchFrom here (pre ++ s) = searchFrom here s.
Proof.
  induction pre as [|c pre IH]; intros Hnone; [reflexivity|].
  cbn [app searchFrom]. pose proof (Hnone 0 ltac:(cbn; lia)) as H0. cbn [drop app] in H0.
  rewrite H0. apply IH. intros n Hn. apply (Hnone (S n)). cbn. lia.
Qed.

Lemma searchFrom_here {A} (here : jsstring -> option A) (s : jsstring) (r : A) :
  here s = Some r -> searchFrom here s = Some r.
Proof. intros Hs. destruct s; cbn [searchFrom]; now rewrite Hs. Qed.

Lemma dropWhile_notGt_app (attrs rest : jsstring) :
  62%N ∉ attrs -> dropWhile notGt (attrs ++ 62%N :: rest) = 62%N :: rest.
Proof.
  induction attrs as [|d attrs IH]; intros Hgt; [reflexivity|].
  cbn [app dropWhile]. unfold notGt at 1.
  destruct (N.eqb_spec d 62) as [->|_]; [exfalso; apply Hgt; left|].
  cbn [negb]. apply IH. intros Hin. apply Hgt. now right.
Qed.

(** The title of a page whose first [<title] opens a title element. *)
Lemma reTitle_found (pre attrs t post : jsstring) :
  (forall n, n < length pre ->
     startsWithI (drop n (pre ++ lit "<title")) (lit "<title") = false) ->
  62%N ∉ attrs ->
  (forall n, n < length t ->
     startsWithI (drop n (t ++ lit "</title>")) (lit "</title>") = false) ->
  searchFrom reTitle
    (pre ++ lit "<title" ++ attrs ++ [62%N] ++ t ++ lit "</title>" ++ post) = Some t.
Proof.
  intros Hpre Hattrs Ht. rewrite searchFrom_prefix.
  - apply searchFrom_here. unfold reTitle.
    rewrite text_startsWithI, startsWithI_app, drop_app_length.
    rewrite greedy_run.
    + cbn [Nat.leb app]. rewrite dropWhile_notGt_app by exact Hattrs.
      unfold one at 1. replace (charEqI 62 62) with true by reflexivity.
      apply lazy_first.
      * intros n Hn. rewrite text_startsWithI.
        rewrite app_assoc, drop_app_le by (rewrite length_app; lia).
        rewrite startsWithI_longer by (rewrite length_drop, length_app; lia).
        now rewrite Ht.
      * rewrite text_startsWithI, startsWithI_app. f_equal. unfold upTo.
        rewrite !length_app.
        replace (length t + (length (lit "</title>") + length post)
                 - (length (lit "</title>") + length post)) with (length t) by lia.
        apply take_app_length.
    + intros d s' Hd. unfold one. destruct (charEqI 62 d) eqn:E; [|reflexivity].
      apply charEqI_low in E; [|reflexivity]. subst d. discriminate Hd.
  - intros n Hn. unfold reTitle. rewrite text_startsWithI.
    rewrite app_assoc, drop_app_le by (rewrite length_app; lia).
    rewrite startsWithI_longer by (rewrite length_drop, length_app; lia).
    now rewrite Hpre.
Qed.

(** X21. The title of a page: when the first [<title] of the page opens a
    title element (attributes allowed) that is closed, the title that
    [fetchPageStrong] finds is the text up to the first closing tag,
    trimmed; if it is not empty, a document that is returned starts with
    [TITLE: ] and this title. *)
Theorem fetchPageStrong_title (pre attrs t post : jsstring) :
  let html := pre ++ lit "<title" ++ attrs ++ [62%N] ++ t ++ lit "</title>" ++ post in
  (forall n, n < length pre ->
     startsWithI (drop n (pre ++ lit "<title")) (lit "<title") = false) ->
  62%N ∉ attrs ->
  (forall n, n < length t ->
     startsWithI (drop n (t ++ lit "</title>")) (lit "</title>") = false) ->
  searchFrom reTitle html = Some t
  /\ (trim t <> [] -> forall doc, fetchPageStrong (Html html) = Some doc ->
        exists rest, doc = lit "TITLE: " ++ trim t ++ rest).
Proof.
  cbn zeta. intros Hpre Hattrs Ht.
  pose proof (reTitle_found pre attrs t post Hpre Hattrs Ht) as Hfound.
  split; [exact Hfound|]. intros Hne doc. cbn [fetchPageStrong]. rewrite Hfound.
  cbn [default from_option Datatypes.id].
  assert (Hlab : labelled "TITLE: " (trim t) = lit "TITLE: " ++ trim t).
  { unfold labelled, nonEmpty, jsstring_eqb. now rewrite bool_decide_eq_false_2. }
  assert (Hnon : nonEmpty (labelled "TITLE: " (trim t)) = true) by now rewrite Hlab.
  cbn [List.filter]. rewrite Hnon.
  match goal with
  | |- context [joinWith ?sep (?p :: ?rest)] =>
      destruct (joinWith_head sep p rest) as [x Hx]; rewrite Hx
  end.
  destruct (nonEmpty _ && _)%bool; [|discriminate]. intros [= <-].
  exists x. rewrite Hlab. now rewrite <- app_assoc.
Qed.

Lemma fetchPageStrong_title_witness :
  let html := lit "<html><head>" ++ lit "<title" ++ lit " lang=en" ++ [62%N]
              ++ lit " Films " ++ lit "</title>" ++ lit "</head></html>" in
  searchFrom reTitle html = Some (lit " Films ")
  /\ (trim (lit " Films ") <> [] -> forall doc, fetchPageStrong (Html html) = Some doc ->
        exists rest, doc = lit "TITLE: " ++ trim (lit " Films ") ++ rest).
Proof.
  apply (fetchPageStrong_title (lit "<html><head>") (lit " lang=en") (lit " Films ")
           (lit "</head></html>")).
  - intros n Hn. change (length (lit "<html><head>")) with 12 in Hn.
    do 12 (destruct n as [|n]; [vm_compute; reflexivity|]). lia.
  - intros Hin. apply list_elem_of_In in Hin. vm_compute in Hin.
    repeat (destruct Hin as [Hin|Hin]; [discriminate Hin|]). exact Hin.
  - intros n Hn. change (length (lit " Films ")) with 7 in Hn.
    do 7 (destruct n as [|n]; [vm_compute; reflexivity|]). lia.
Defined.

(** ** The description *)

Lemma greedy_inv {A} (f : N -> bool) (min : nat) (k : jsstring -> option A)
    (s : jsstring) (r : A) :
  greedy f min k s = Some r -> exists j, min <= j /\ k (drop j s) = Some r.
Proof.
  revert min. induction s as [|d s IH]; intros min; cbn [greedy].
  - destruct (Nat.eqb_spec min 0) as [->|]; [|discriminate]. intros Hk. now exists 0.
  - assert (Hstop : (if min =? 0 then k (d :: s) else None) = Some r ->
                    exists j, min <= j /\ k (drop j (d :: s)) = Some r).
    { destruct (Nat.eqb_spec min 0) as [->|]; [|discriminate]. intros Hk. now exists 0. }
    destruct (f d); [|exact Hstop].
    destruct (greedy f (pred min) k s) as [r'|] eqn:E; [|exact Hstop].
    intros [= ->]. destruct (IH _ E) as (j & Hj & Hk). exists (S j). split; [lia|exact Hk].
Qed.

Lemma oneOf_inv {A} (f : N -> bool) (k : jsstring -> option A) (s : jsstring) (r : A) :
  oneOf f k s = Some r -> k (drop 1 s) = Some r.
Proof. destruct s as [|d s]; [discriminate|]. cbn [oneOf drop]. now destruct (f d). Qed.

Lemma searchFrom_inv {A} (here : jsstring -> option A) (s : jsstring) (r : A) :
  searchFrom here s = Some r -> exists n, here (drop n s) = Some r.
Proof.
  induction s as [|c s IH]; cbn [searchFrom].
  - destruct (here []) eqn:E; [|discriminate]. intros [= <-]. now exists 0.
  - destruct (here (c :: s)) eqn:E.
    + intros [= <-]. now exists 0.
    + intros Hr. destruct (IH Hr) as [n Hn]. now exists (S n).
Qed.

Lemma text_inv {A} (p : jsstring) (k : jsstring -> option A) (s : jsstring) (r : A) :
  text true p k s = Some r -> startsWithI s p = true /\ k (drop (length p) s) = Some r.
Proof. rewrite text_startsWithI. destruct (startsWithI s p); [auto|discriminate]. Qed.

(** X22. The description of a page is found only where, inside the page,
    [content=] comes after [name=]: a page in which no [content=] follows a
    [name=] has no description for [fetchPageStrong], whatever its [meta]
    elements hold; so an element that gives its [content] attribute before
    its [name] attribute is not read. *)
Theorem description_needs_name_first (html : jsstring) :
  (forall n m, n < m ->
     startsWithI (drop n html) (lit "name=") = true ->
     startsWithI (drop m html) (lit "content=") = false) ->
  searchFrom reMeta html = None.
Proof.
  intros Horder. destruct (searchFrom reMeta html) as [r|] eqn:E; [|reflexivity].
  exfalso. apply searchFrom_inv in E as [n0 E]. unfold reMeta in E.
  apply text_inv in E as [_ E]. apply greedy_inv in E as (j1 & _ & E).
  apply text_inv in E as [Hname E]. apply oneOf_inv in E. apply text_inv in E as [_ E].
  apply oneOf_inv in E. apply greedy_inv in E as (j2 & _ & E).
  apply text_inv in E as [Hcontent _].
  repeat rewrite drop_drop in Hname. repeat rewrite drop_drop in Hcontent.
  match type of Hname with
  | startsWithI (drop ?n _) _ = _ =>
      match type of Hcontent with
      | startsWithI (drop ?m _) _ = _ =>
          assert (Hnm : n < m) by lia;
          rewrite (Horder n m Hnm Hname) in Hcontent
      end
  end.
  discriminate Hcontent.
Qed.

Lemma description_needs_name_first_witness :
  searchFrom reMeta (lit "<meta content='Films from Vaasa' name='description'>") = None.
Proof.
  apply description_needs_name_first. intros n m Hnm Hname.
  destruct (Nat.le_gt_cases 52 m) as [Hm|Hm].
  - rewrite drop_ge by (vm_compute; lia). reflexivity.
  - do 52 (destruct m as [|m]; [first [vm_compute; reflexivity | exfalso; revert Hname Hnm; clear;
        intros Hname Hnm;
        do 52 (destruct n as [|n]; [first [lia | vm_compute in Hname; discriminate Hname]|]); lia]|]).
    lia.
Defined.

(** ** Arrays of unequal lengths, in double arithmetic *)

Lemma double_add_nan (x y : float) :
  PrimFloat.is_nan x = true \/ PrimFloat.is_nan y = true ->
  PrimFloat.is_nan (PrimFloat.add x y) = true.
Proof.
  rewrite !double_is_nan, add_spec. unfold SF64add, SFadd.
  intros [-> | ->]; [reflexivity|]. now destruct (Prim2SF x) as [[]|[]| |].
Qed.

Lemma cosineLoop_nan_stays (a b : list float) (i : nat) (dot na nb : float) :
  PrimFloat.is_nan nb = true ->
  PrimFloat.is_nan (snd (cosineLoop a b i dot na nb)) = true.
Proof.
  revert i dot na nb. induction a as [|x a IH]; intros i dot na nb Hnb; [exact Hnb|].
  cbn [cosineLoop]. apply IH. cbn [add double_Number]. apply double_add_nan. now left.
Qed.

Lemma cosineLoop_past_end (a b : list float) (i : nat) (dot na nb : float) :
  i <= length b < i + length a ->
  PrimFloat.is_nan (snd (cosineLoop a b i dot na nb)) = true.
Proof.
  revert i dot na nb. induction a as [|x a IH]; intros i dot na nb Hlen.
  - cbn [length] in Hlen. lia.
  - cbn [cosineLoop]. destruct (Nat.le_gt_cases (length b) i) as [Hi|Hi].
    + apply cosineLoop_nan_stays. rewrite nth_overflow by exact Hi.
      cbn [add mul undefinedNum double_Number]. apply double_add_nan. right.
      apply double_mul_nan. now left.
    + apply IH. cbn [length] in Hlen. lia.
Qed.

Lemma cosine_versions_nan (a b : list float) :
  PrimFloat.is_nan (snd (cosineLoop a b 0 (ofNat 0) (ofNat 0) (ofNat 0))) = true ->
  Cur.cosine a b = 0%float
  /\ (Prev.cosine a b = 0%float \/ PrimFloat.is_nan (Prev.cosine a b) = true).
Proof.
  unfold Prev.cosine, Cur.cosine.
  destruct (cosineLoop a b 0 (ofNat 0) (ofNat 0) (ofNat 0)) as [[dot na] nb].
  cbn [snd falsy double_Number]. intros Hnb. rewrite Hnb, !orb_true_r.
  split; [reflexivity|].
  destruct (isZero na || isZero nb)%bool; [now left|]. right.
  cbn [div mul Math_sqrt double_Number].
  apply double_div_nan, double_mul_nan. right. now apply double_sqrt_nan.
Qed.

Lemma cosineLoop_extra {T} `{Number T} (a b c : list T) (i : nat) (dot na nb : T) :
  i + length a <= length b ->
  cosineLoop a (b ++ c) i dot na nb = cosineLoop a b i dot na nb.
Proof.
  revert i dot na nb. induction a as [|x a IH]; intros i dot na nb Hlen; [reflexivity|].
  cbn [cosineLoop length] in *. rewrite app_nth1 by lia. apply IH. lia.
Qed.

(** X23. Arrays of unequal lengths.  Entries of the second array beyond the
    length of the first are not read, in any arithmetic.  In double
    arithmetic, when the second array is the shorter one, the entries read
    past its end are [undefined], its squared norm becomes NaN, and
    [cosine] returns 0 in the second file and 0 or NaN in the first. *)
Theorem cosine_unequal_lengths :
  (forall (a b c : list float), length a <= length b ->
     Prev.cosine a (b ++ c) = Prev.cosine a b /\ Cur.cosine a (b ++ c) = Cur.cosine a b)
  /\ (forall (a b c : list R), length a <= length b ->
     Prev.cosine a (b ++ c) = Prev.cosine a b /\ Cur.cosine a (b ++ c) = Cur.cosine a b)
  /\ (forall (a b : list float), length b < length a ->
     PrimFloat.is_nan (snd (cosineLoop a b 0 (ofNat 0) (ofNat 0) (ofNat 0))) = true
     /\ Cur.cosine a b = 0%float
     /\ (Prev.cosine a b = 0%float \/ PrimFloat.is_nan (Prev.cosine a b) = true)).
Proof.
  split; [|split].
  - intros a b c Hlen. unfold Prev.cosine, Cur.cosine.
    now rewrite cosineLoop_extra by (cbn; lia).
  - intros a b c Hlen. unfold Prev.cosine, Cur.cosine.
    now rewrite cosineLoop_extra by (cbn; lia).
  - intros a b Hlen.
    assert (Hnan : PrimFloat.is_nan
                     (snd (cosineLoop a b 0 (ofNat 0) (ofNat 0) (ofNat 0))) = true)
      by (apply cosineLoop_past_end; lia).
    split; [exact Hnan|]. now apply cosine_versions_nan.
Qed.

Lemma cosine_unequal_lengths_witness :
  Cur.cosine [1; 2]%float ([3; 4] ++ [5])%float = Cur.cosine [1; 2]%float [3; 4]%float
  /\ Cur.cosine [1; 2]%float [1]%float = 0%float.
Proof.
  destruct cosine_unequal_lengths as (Hlong & _ & Hshort). split.
  - apply (Hlong [1; 2]%float [3; 4]%float [5]%float). cbn. lia.
  - apply (Hshort [1; 2]%float [1]%float). cbn. lia.
Defined.

(** ** The two files side by side, in double arithmetic *)

Section ScoreAll.
Context {T : Type} `{Number T} `{MathLib T} `{Platform}.

Lemma scoreAll_fold (cos : list T -> list T -> T) (P : T -> T -> T) (g : Globals T)
    (qv : list T) (terms : list jsstring) (kb : list (Chunk T)) (acc : list (Chunk T * T)) :
  fold_left (fun scored d =>
      let score := scoreOf cos P g qv terms d in
      if gt score (ofNat 0) then scored ++ [(d, score)] else scored) kb acc
  = acc ++ List.map (fun d => (d, scoreOf cos P g qv terms d))
             (List.filter (fun d => gt (scoreOf cos P g qv terms d) (ofNat 0)) kb).
Proof.
  revert acc. induction kb as [|d kb IH]; intros acc; cbn [fold_left List.filter List.map].
  - now rewrite app_nil_r.
  - rewrite IH. destruct (gt (scoreOf cos P g qv terms d) (ofNat 0)); [|reflexivity].
    now rewrite <- app_assoc.
Qed.

Lemma scoreAll_filter (cos : list T -> list T -> T) (P : T -> T -> T) (g : Globals T)
    (qv : list T) (terms : list jsstring) :
  scoreAll cos P g qv terms =
    List.map (fun d => (d, scoreOf cos P g qv terms d))
      (List.filter (fun d => gt (scoreOf cos P g qv terms d) (ofNat 0)) (KB g)).
Proof. unfold scoreAll. now rewrite scoreAll_fold. Qed.

(** The scoring loop reads the cosine at the vectors of the knowledge base
    only. *)
Lemma scoreAll_ext (cos cos' : list T -> list T -> T) (P : T -> T -> T) (g : Globals T)
    (qv : list T) (terms : list jsstring) :
  Forall (fun d => forall v, vec d = Some v -> cos qv v = cos' qv v) (KB g) ->
  scoreAll cos P g qv terms = scoreAll cos' P g qv terms.
Proof.
  intros Hcos. rewrite !scoreAll_filter.
  induction Hcos as [|d kb Hd Hkb IH]; [reflexivity|].
  assert (Hs : scoreOf cos P g qv terms d = scoreOf cos' P g qv terms d).
  { unfold scoreOf, denseOf. destruct (vec d) as [v|]; [|reflexivity].
    now rewrite (Hd v). }
  cbn [List.filter]. rewrite Hs.
  destruct (gt (scoreOf cos' P g qv terms d) (ofNat 0)); cbn [List.map];
    now rewrite ?Hs, IH.
Qed.

Lemma scoreAll_member (cos : list T -> list T -> T) (P : T -> T -> T) (g : Globals T)
    (qv : list T) (terms : list jsstring) (d : Chunk T) (s : T) :
  (d, s) ∈ scoreAll cos P g qv terms ->
  d ∈ KB g /\ s = scoreOf cos P g qv terms d /\ gt s (ofNat 0) = true.
Proof.
  rewrite scoreAll_filter. intros Hin. apply list_elem_of_In, in_map_iff in Hin.
  destruct Hin as (d' & [= <- <-] & Hd). apply filter_In in Hd as [Hd Hgt].
  split; [now apply list_elem_of_In|]. split; [reflexivity|exact Hgt].
Qed.
End ScoreAll.

Lemma double_ltb_nan (x y : float) :
  PrimFloat.is_nan y = true -> PrimFloat.ltb x y = false.
Proof.
  rewrite double_is_nan, FloatAxioms.ltb_spec. intros ->.
  unfold SFltb, SFcompare. now destruct (Prim2SF x) as [[]|[]| |[]].
Qed.

Lemma cosine_versions_defined (a b : list float) :
  normsDefined a b = true -> Prev.cosine a b = Cur.cosine a b.
Proof.
  unfold normsDefined, Prev.cosine, Cur.cosine.
  destruct (cosineLoop a b 0 (ofNat 0) (ofNat 0) (ofNat 0)) as [[dot na] nb].
  intros Hn. apply andb_prop in Hn as [Ha Hb]. apply negb_true_iff in Ha, Hb.
  cbn [isZero falsy double_Number]. now rewrite Ha, Hb, !orb_false_r.
Qed.

Lemma cosine_versions_undefined (a b : list float) :
  normsDefined a b = false ->
  Cur.cosine a b = 0%float
  /\ (Prev.cosine a b = 0%float \/ PrimFloat.is_nan (Prev.cosine a b) = true).
Proof.
  unfold normsDefined, Prev.cosine, Cur.cosine.
  destruct (cosineLoop a b 0 (ofNat 0) (ofNat 0) (ofNat 0)) as [[dot na] nb].
  intros Hn. cbn [isZero falsy double_Number Math_sqrt div mul].
  assert (Hnan : PrimFloat.is_nan na = true \/ PrimFloat.is_nan nb = true).
  { destruct (PrimFloat.is_nan na); [now left|]. destruct (PrimFloat.is_nan nb); [now right|].
    discriminate Hn. }
  split.
  - destruct Hnan as [-> | ->]; now rewrite ?orb_true_r.
  - destruct (PrimFloat.eqb na 0 || PrimFloat.eqb nb 0)%bool; [now left|]. right.
    apply double_div_nan, double_mul_nan.
    destruct Hnan as [Ha|Hb]; [left|right]; now apply double_sqrt_nan.
Qed.

Section Versions.
Context (M : MathLib float) `{Platform}.

(** X3. The two files in double arithmetic, whatever the engine's
    [Math.tanh] is.  When no squared norm that [cosine] accumulates for the
    query vector and a vector of the knowledge base is NaN, the two
    [retrieveContext] return the same context: the tests [x === 0] and
    [!x] then agree, and [f * 1.2] and [1.2 * f] are the same double.  A
    chunk whose cosine is NaN in the first file is never ranked there.
    When a squared norm is NaN, as for a vector shorter than the query
    vector, the second file gives the chunk the cosine 0, so that only its
    lexical score counts, while in the first file the cosine is 0 or
    NaN. *)
Theorem retrieveContext_versions_double (g : Globals float) (qv : list float)
    (query : jsstring) :
  let terms := unique (tokenize query) in
  (Forall (fun d => forall v, vec d = Some v -> normsDefined qv v = true) (KB g) ->
   PrevRetrieval.retrieveContext g qv query = CurRetrieval.retrieveContext g qv query)
  /\ (forall d v, vec d = Some v -> PrimFloat.is_nan (Prev.cosine qv v) = true ->
        forall s, (d, s) ∉ scoreAll Prev.cosine PrevRetrieval.termProduct g qv terms)
  /\ (forall d v, vec d = Some v -> normsDefined qv v = false ->
        denseOf Cur.cosine qv d = 0%float
        /\ (denseOf Prev.cosine qv d = 0%float
            \/ PrimFloat.is_nan (denseOf Prev.cosine qv d) = true)).
Proof.
  cbn zeta. split; [|split].
  - intros Hdef.
    unfold PrevRetrieval.retrieveContext, CurRetrieval.retrieveContext,
      retrieveContextWith, retrieveContextAcross, retrieveScan.
    destruct (length (KB g) =? 0); [reflexivity|].
    replace (@PrevRetrieval.termProduct float _) with (@CurRetrieval.termProduct float _).
    + rewrite (scoreAll_ext Prev.cosine Cur.cosine); [reflexivity|].
      eapply List.Forall_impl; [|exact Hdef]. intros d Hd v Hv.
      now apply cosine_versions_defined, Hd.
    + apply FunctionalExtensionality.functional_extensionality. intros f.
      apply FunctionalExtensionality.functional_extensionality. intros c.
      apply double_mul_comm.
  - intros d v Hv Hnan s Hin. apply scoreAll_member in Hin as (_ & -> & Hgt).
    unfold scoreOf, denseOf in Hgt. rewrite Hv in Hgt.
    cbn [gt add mul double_Number] in Hgt. rewrite double_ltb_nan in Hgt; [discriminate|].
    apply double_add_nan. left. apply double_mul_nan. now right.
  - intros d v Hv Hundef. unfold denseOf. rewrite Hv.
    now apply cosine_versions_undefined.
Qed.
End Versions.

Lemma retrieveContext_versions_double_witness :
  PrevRetrieval.retrieveContext (H0 := someMathLib) (floatKB [1; 0]%float)
      [1; 0]%float (lit "video")
    = CurRetrieval.retrieveContext (H0 := someMathLib) (floatKB [1; 0]%float)
        [1; 0]%float (lit "video")
  /\ (forall s, (mkChunk 0 demoUrl (lit "en") demoText (Some [1%float]), s)
        ∉ scoreAll (H0 := someMathLib) Prev.cosine PrevRetrieval.termProduct
            (floatKB [1%float]) [1; 2]%float (unique (tokenize (lit "video"))))
  /\ denseOf Cur.cosine [1; 2]%float
       (mkChunk 0 demoUrl (lit "en") demoText (Some [1%float])) = 0%float.
Proof.
  split; [|split].
  - apply (retrieveContext_versions_double someMathLib (floatKB [1; 0]%float)
             [1; 0]%float (lit "video")).
    repeat constructor. intros v [= <-]. vm_compute. reflexivity.
  - apply (proj1 (proj2 (retrieveContext_versions_double someMathLib (floatKB [1%float])
             [1; 2]%float (lit "video"))) _ [1%float]); [reflexivity|].
    vm_compute. reflexivity.
  - apply (proj2 (proj2 (retrieveContext_versions_double someMathLib (floatKB [1%float])
             [1; 2]%float (lit "video"))) _ [1%float]); [reflexivity|].
    vm_compute. reflexivity.
Defined.

(** ** The progress of the embedding *)

Section Progress.
Context {T : Type} `{Number T} `{MathLib T} `{Platform}.


End Progress.

Section ProgressTheorem.
Context {T : Type} `{Number T} `{MathLib T} `{Platform}.




End ProgressTheorem.


(** ** Well-formed sitemaps *)

Lemma locScan_skip (n : nat) (s : jsstring) :
  n <= length s -> locScan n s = locScan 0 (drop n s).
Proof.
  revert s. induction n as [|n IH]; intros s Hn; [reflexivity|].
  destruct s as [|c s]; [cbn in Hn; lia|]. cbn [locScan drop]. apply IH. cbn in Hn. lia.
Qed.

Lemma takeWhile_app_stop {A} (f : A -> bool) (u : list A) (x : A) (rest : list A) :
  Forall (fun c => f c = true) u -> f x = false -> takeWhile f (u ++ x :: rest) = u.
Proof.
  intros Hu Hx. induction Hu as [|c u Hc _ IH]; cbn [app takeWhile].
  - now rewrite Hx.
  - now rewrite Hc, IH.
Qed.

Lemma locAt_entry (u rest : jsstring) :
  u <> [] -> 60%N ∉ u ->
  locAt (lit "<loc>" ++ u ++ lit "</loc>" ++ rest) = Some (u, 5 + length u + 6).
Proof.
  intros Hne Hlt. unfold locAt. rewrite startsWithI_app.
  change (skipn 5 (lit "<loc>" ++ u ++ lit "</loc>" ++ rest)) with (u ++ lit "</loc>" ++ rest).
  assert (Hrun : takeWhile (fun c => negb (N.eqb c 60)) (u ++ lit "</loc>" ++ rest) = u).
  { change (lit "</loc>" ++ rest) with (60%N :: lit "/loc>" ++ rest).
    apply takeWhile_app_stop; [|reflexivity].
    apply List.Forall_forall. intros c Hc. apply negb_true_iff, N.eqb_neq.
    intros ->. apply Hlt. now apply list_elem_of_In. }
  rewrite Hrun. rewrite drop_app_length, startsWithI_app.
  destruct u; [contradiction|]. reflexivity.
Qed.

Lemma locScan_entry (u rest : jsstring) :
  u <> [] -> 60%N ∉ u ->
  locScan 0 (lit "<loc>" ++ u ++ lit "</loc>" ++ rest) = u :: locScan 0 rest.
Proof.
  intros Hne Hlt.
  assert (Hat := locAt_entry u rest Hne Hlt).
  change (lit "<loc>" ++ u ++ lit "</loc>" ++ rest)
    with (60%N :: (lit "loc>" ++ u ++ lit "</loc>" ++ rest)) in *.
  cbn [locScan]. rewrite Hat. f_equal.
  rewrite locScan_skip by (rewrite !length_app; cbn; lia).
  f_equal. replace (5 + length u + 6 - 1) with (4 + (length u + 6)) by lia.
  rewrite <- drop_drop. change (drop 4 (lit "loc>" ++ ?x)) with x.
  rewrite app_assoc.
  replace (length u + 6) with (length (u ++ lit "</loc>")) by (rewrite length_app; reflexivity).
  apply drop_app_length.
Qed.

Lemma locAt_none (s : jsstring) : startsWithI s (lit "<loc>") = false -> locAt s = None.
Proof. intros Hs. unfold locAt. now rewrite Hs. Qed.

Lemma locScan_sep (sep rest : jsstring) :
  noLocIn sep rest -> locScan 0 (sep ++ rest) = locScan 0 rest.
Proof.
  induction sep as [|c sep IH]; intros Hsep; [reflexivity|].
  cbn [app locScan]. rewrite locAt_none by (apply (Hsep 0); cbn; lia).
  apply IH. intros n Hn. apply (Hsep (S n)). cbn. lia.
Qed.

Lemma noLocIn_longer (sep more : jsstring) :
  noLocIn sep (lit "<loc>") -> noLocIn sep (lit "<loc>" ++ more).
Proof.
  intros Hsep n Hn. rewrite app_assoc, drop_app_le by (rewrite length_app; lia).
  rewrite startsWithI_longer by (rewrite length_drop, length_app; cbn [length]; lia).
  now apply Hsep.
Qed.

Lemma locScan_sitemap (entries : list (jsstring * jsstring)) (tail : jsstring) :
  Forall (fun e => noLocIn (fst e) (lit "<loc>") /\ snd e <> [] /\ 60%N ∉ snd e) entries ->
  noLocIn tail [] ->
  locScan 0 (sitemapText entries tail) = List.map snd entries.
Proof.
  intros Hentries Htail. unfold sitemapText.
  induction Hentries as [|[sep u] entries (Hsep & Hne & Hlt) _ IH]; cbn [flat_map List.map app].
  - rewrite <- (app_nil_r tail). rewrite locScan_sep by exact Htail. reflexivity.
  - cbn [fst snd] in *. rewrite <- !app_assoc.
    rewrite locScan_sep by now apply noLocIn_longer.
    rewrite locScan_entry by assumption. now rewrite IH.
Qed.

Section WellFormed.
Context `{Platform}.
Variable excluded : jsstring -> bool.

Lemma sitemapLoop_accepts (us set : list jsstring) :
  Forall (fun u => stripTrailingSlashes (trim u) = u /\ startsWith u SITE = true
                   /\ exists p, urlPathname u = Some p
                                /\ excluded (stripLeadingSlashes p) = false) us ->
  sitemapLoop excluded us set = fold_left uniqueStep us set.
Proof.
  intros Hus. revert set.
  induction Hus as [|u us (Hu & Hsite & p & Hp & Hex) _ IH]; intros set; [reflexivity|].
  cbn [sitemapLoop fold_left]. rewrite Hu, Hp, Hex, Hsite. apply IH.
Qed.

Lemma fallbacks_unique (ps set : list jsstring) :
  fold_left (fun set p => setAdd set (resolveFallback p)) ps set
  = fold_left uniqueStep (List.map resolveFallback ps) set.
Proof. revert set. induction ps as [|q ps IH]; intros set; [reflexivity|]. apply IH. Qed.

(** X25. For a sitemap in which [<loc>] only occurs as the opening tag of
    its entries, and whose entries hold, without surrounding white space or
    a slash at the end, URLs of the site whose paths pass the language test:
    [getSitemapUrls] returns these URLs in the order of the sitemap, then
    the eight fixed pages, each URL once, cut to [MAX_PAGES]. *)
Theorem getSitemapUrls_well_formed (entries : list (jsstring * jsstring)) (tail : jsstring) :
  Forall (fun e => noLocIn (fst e) (lit "<loc>") /\ snd e <> [] /\ 60%N ∉ snd e) entries ->
  noLocIn tail [] ->
  Forall (fun u => stripTrailingSlashes (trim u) = u /\ startsWith u SITE = true
                   /\ exists p, urlPathname u = Some p
                                /\ excluded (stripLeadingSlashes p) = false)
         (List.map snd entries) ->
  locScan 0 (sitemapText entries tail) = List.map snd entries
  /\ getSitemapUrlsWith excluded (Some (sitemapText entries tail))
     = take MAX_PAGES (unique (List.map snd entries ++ fallbackUrls)).
Proof.
  intros Hentries Htail Hus.
  pose proof (locScan_sitemap entries tail Hentries Htail) as Hscan.
  split; [exact Hscan|]. unfold getSitemapUrlsWith. rewrite Hscan.
  rewrite (sitemapLoop_accepts _ [] Hus), fallbacks_unique. f_equal.
  change (unique (List.map snd entries ++ fallbackUrls))
    with (fold_left uniqueStep (List.map snd entries ++ fallbackUrls) []).
  now rewrite fold_left_app.
Qed.
End WellFormed.

Lemma getSitemapUrls_well_formed_witness :
  let entries := [(lit "<urlset><url>", SITE ++ lit "/film-production")] in
  locScan 0 filmSitemap = List.map snd entries
  /\ CurDiscovery.getSitemapUrls (Some filmSitemap)
     = take MAX_PAGES (unique (List.map snd entries ++ fallbackUrls)).
Proof.
  apply (getSitemapUrls_well_formed CurDiscovery.excluded
           [(lit "<urlset><url>", SITE ++ lit "/film-production")] (lit "</url></urlset>")).
  - constructor; [|constructor]. cbn [fst snd]. split; [|split].
    + intros n Hn. change (length (lit "<urlset><url>")) with 13 in Hn.
      do 13 (destruct n as [|n]; [vm_compute; reflexivity|]). lia.
    + discriminate.
    + intros Hin. apply list_elem_of_In in Hin. vm_compute in Hin.
      repeat (destruct Hin as [Hin|Hin]; [discriminate Hin|]). exact Hin.
  - intros n Hn. change (length (lit "</url></urlset>")) with 15 in Hn.
    do 15 (destruct n as [|n]; [vm_compute; reflexivity|]). lia.
  - constructor; [|constructor]. split; [vm_compute; reflexivity|].
    split; [vm_compute; reflexivity|]. eexists. split; vm_compute; reflexivity.
Defined.

(** ** A re-index during a crawl *)

(** X26. Nothing keeps [/reindex] from starting a crawl while another one
    is fetching pages.  The older crawl then goes on with its own counter in
    the emptied knowledge base: when its pending page arrives with text, the
    chunks of that page are numbered from the counter [n] of the older
    crawl on, so that for [n > 0] the identifiers of the knowledge base no
    longer start at 0. *)
Theorem reindex_during_fetch {T : Type} `{Number T} `{MathLib T} `{Platform}
    (g : Globals T) (u : jsstring) (rest : list jsstring) (n : nat) (doc : jsstring) :
  doc <> [] ->
  let g1 := fst (reindex g) in
  let st := crawlResume (g1, AwaitPage u rest n) (Page (Some doc)) in
  KB g1 = []
  /\ KB (fst st) <> []
  /\ List.map id (KB (fst st)) = seq n (length (KB (fst st)))
  /\ (0 < n -> List.map id (KB (fst st)) <> seq 0 (length (KB (fst st)))).
Proof.
  intros Hdoc. cbn zeta. unfold reindex, crawlStart. cbn [fst crawlResume KB].
  rewrite crawlPage_pieces. rewrite pageLoop_KB. cbn [KB app].
  set (ps := List.map (pair u) (pagePieces (Some doc))).
  assert (Hps : 1 <= length ps).
  { unfold ps. rewrite length_map. destruct doc as [|c doc]; [contradiction|].
    cbn [pagePieces]. rewrite chunkTextDefault_chunksOf. cbn [length chunksOf]. lia. }
  clearbody ps.
  assert (Hlen : length (numbered (T:=T) n ps) = length ps).
  { unfold numbered. apply length_imap. }
  split; [reflexivity|]. split; [|split].
  - intros E. rewrite E in Hlen. cbn in Hlen. lia.
  - rewrite Hlen. apply numbered_ids.
  - intros Hn. rewrite numbered_ids, Hlen.
    destruct (length ps) as [|k]; [lia|]. cbn [seq]. intros [= E _]. lia.
Qed.

Lemma reindex_during_fetch_witness :
  let g1 := fst (reindex (fst (crawlRun noGlobals demoCrawl))) in
  let st := crawlResume (g1, AwaitPage demoUrl [] 1) (Page (Some demoText)) in
  KB g1 = []
  /\ KB (fst st) <> []
  /\ List.map id (KB (fst st)) = seq 1 (length (KB (fst st)))
  /\ (0 < 1 -> List.map id (KB (fst st)) <> seq 0 (length (KB (fst st)))).
Proof.
  apply (reindex_during_fetch (fst (crawlRun noGlobals demoCrawl)) demoUrl [] 1 demoText).
  discriminate.
Defined.
